(** * bcrypto: cipher modes, EdDSA and Schnorr

    A shallow embedding of [lib/js/ciphers/modes.js], [lib/js/eddsa.js] and
    [lib/js/schnorr.js], and of the BLAKE2s front end of Node.js
    ([blake2s.js]).  Buffers are lists of integers (one per byte),
    JavaScript exceptions are an explicit [Throw] result, the objects the
    code mutates ([this] of a mode object, the buffers it shares) are
    threaded as explicit state, and everything the code consumes from
    outside these files (block cipher context, curve, big integers,
    hash, random source) is an interface whose operations may throw. *)

From Stdlib Require Import ZArith List Lia Bool String Ascii Znumtheory.
From Stdlib Require Import Zmod.ZmodInv.
From stdpp Require Import base numbers list gmap strings.

Local Open Scope Z_scope.

(** ** Exceptions *)

Inductive result (A : Type) : Type :=
  | Ok (a : A)
  | Throw (msg : string).
Arguments Ok {A} a.
Arguments Throw {A} msg.

#[global] Instance result_ret : MRet result := fun A a => Ok a.
#[global] Instance result_bind : MBind result := fun A B f m =>
  match m with
  | Ok a => f a
  | Throw e => Throw e
  end.

(** [assert(cond)] of bsert. *)
Definition assert (cond : bool) : result unit :=
  if cond then Ok tt else Throw "Assertion failed.".

(** [assert(cond, msg)] of bsert. *)
Definition assert_msg (cond : bool) (msg : string) : result unit :=
  if cond then Ok tt else Throw msg.

(** [try { return body } catch (e) { return false }]. *)
Definition try_or_false (body : result bool) : result bool :=
  match body with
  | Ok b => Ok b
  | Throw _ => Ok false
  end.

(** ** Buffers

    A [Buffer] is a [Uint8Array]: reading outside it gives [undefined]
    (which the bitwise operators of the code turn into 0), writing outside it
    does nothing, and a number written into it is reduced modulo 256. *)

Definition EMPTY : list Z := [].

Definition blen (b : list Z) : Z := Z.of_nat (length b).

Definition bget (b : list Z) (i : Z) : Z :=
  if decide (0 <= i) then default 0 (b !! Z.to_nat i) else 0.

Definition bset (b : list Z) (i v : Z) : list Z :=
  if decide (0 <= i) then <[Z.to_nat i := Z.land v 255]> b else b.

Definition is_bytes (b : list Z) : Prop := Forall (fun x => 0 <= x < 256) b.

(** [for (let i = 0; i < n; i++) body]. *)
Definition for_lt {S : Type} (n : Z) (body : Z -> S -> S) (init : S) : S :=
  foldl (fun s i => body i s) init (seqZ 0 n).

(** Index normalisation of [Buffer.prototype.slice]: a negative index counts
    from the end, and the result is clamped to the buffer. *)
Definition rel_index (n i : Z) : Z :=
  if decide (i < 0) then Z.max (n + i) 0 else Z.min i n.

Definition slice (b : list Z) (s e : Z) : list Z :=
  let s' := rel_index (blen b) s in
  let e' := rel_index (blen b) e in
  take (Z.to_nat (e' - s')) (drop (Z.to_nat s') b).

(** [b.slice(s)]. *)
Definition slice_from (b : list Z) (s : Z) : list Z := slice b s (blen b).

(** Writes the bytes [src] into [dst] from index [dpos] on; what does not
    fit is dropped. *)
Fixpoint blit (src dst : list Z) (dpos : nat) : list Z :=
  match src with
  | [] => dst
  | x :: r => blit r (<[dpos := x]> dst) (Datatypes.S dpos)
  end.

(** [src.copy(target, tstart, sstart, send)], for non-negative positions. *)
Definition copy (src target : list Z) (tstart sstart send : Z) : list Z :=
  blit (take (Z.to_nat (send - sstart)) (drop (Z.to_nat sstart) src))
       target (Z.to_nat tstart).

(** [b.fill(v, s, e)]. *)
Definition fill (b : list Z) (v s e : Z) : list Z :=
  imap (fun i x => if decide (s <= Z.of_nat i < e) then Z.land v 255 else x) b.

(** [b.fill(v)]. *)
Definition fill_all (b : list Z) (v : Z) : list Z := fill b v 0 (blen b).

(** The [bs] bytes a block primitive reads at [pos]. *)
Definition read_block (b : list Z) (pos bs : Z) : list Z :=
  (fun i => bget b i) <$> seqZ pos bs.

(** The number a buffer holds, most significant byte first. *)
Definition be_value (b : list Z) : Z :=
  foldl (fun acc x => acc * 256 + x) 0 b.

(** ** lib/js/ciphers/modes.js *)

Module Modes.

(** The block cipher primitive behind [ctx]: its block size, the keys its
    [init] accepts, and its single-block encryption and decryption under a
    key.  [heap_junk] is the content of the memory [Buffer.allocUnsafe]
    hands out. *)
Class BlockCtx := {
  blockSize : Z;
  key_ok : list Z -> bool;
  encrypt_block : list Z -> list Z -> list Z;
  decrypt_block : list Z -> list Z -> list Z;
  heap_junk : Z -> Z
}.

(** State of the [ctx] object. *)
Inductive ctx_state :=
  | CtxNew
  | CtxReady (key : list Z)
  | CtxDestroyed.

(** The exported classes. *)
Inductive klass :=
  | ECBCipher | ECBDecipher
  | CBCCipher | CBCDecipher
  | CTRCipher | CTRDecipher
  | CFBCipher | CFBDecipher
  | OFBCipher | OFBDecipher.

#[global] Instance klass_eq_dec : EqDecision klass.
Proof. solve_decision. Defined.

(** The class that implements [_init], [_update] and [_final]. *)
Inductive family := BlockCipher | BlockDecipher | CTR | CFB | OFB.

Definition family_of (k : klass) : family :=
  match k with
  | ECBCipher | CBCCipher => BlockCipher
  | ECBDecipher | CBCDecipher => BlockDecipher
  | CTRCipher | CTRDecipher => CTR
  | CFBCipher | CFBDecipher => CFB
  | OFBCipher | OFBDecipher => OFB
  end.

(** What [this.prev] points to: a buffer the mode object does not write to
    any more (the IV, a caller's input, an output already produced), or
    [this.block] itself. *)
Inductive prev_ref :=
  | PrevBuf (data : list Z)
  | PrevBlock.

(** The [input] argument of [_update]: a caller's buffer, [this.block], or
    the very buffer passed as [output]. *)
Inductive input_ref :=
  | InBuf (data : list Z)
  | InBlock
  | InOutput.

(** Fields of a mode object. *)
Record Cipher := mkCipher {
  cls : klass;
  ctx : ctx_state;
  padding : bool;
  block : list Z;
  bpos : Z;
  last : list Z;
  chain : bool;
  encrypt : bool;
  prev : prev_ref;
  ppos : Z;
  state : list Z;
  ctr : list Z
}.

Definition set_ctx (c : Cipher) (v : ctx_state) : Cipher :=
  mkCipher (cls c) v (padding c) (block c) (bpos c) (last c) (chain c)
           (encrypt c) (prev c) (ppos c) (state c) (ctr c).
Definition set_block (c : Cipher) (v : list Z) : Cipher :=
  mkCipher (cls c) (ctx c) (padding c) v (bpos c) (last c) (chain c)
           (encrypt c) (prev c) (ppos c) (state c) (ctr c).
Definition set_bpos (c : Cipher) (v : Z) : Cipher :=
  mkCipher (cls c) (ctx c) (padding c) (block c) v (last c) (chain c)
           (encrypt c) (prev c) (ppos c) (state c) (ctr c).
Definition set_last (c : Cipher) (v : list Z) : Cipher :=
  mkCipher (cls c) (ctx c) (padding c) (block c) (bpos c) v (chain c)
           (encrypt c) (prev c) (ppos c) (state c) (ctr c).
Definition set_prev (c : Cipher) (v : prev_ref) (p : Z) : Cipher :=
  mkCipher (cls c) (ctx c) (padding c) (block c) (bpos c) (last c) (chain c)
           (encrypt c) v p (state c) (ctr c).
Definition set_state (c : Cipher) (v : list Z) : Cipher :=
  mkCipher (cls c) (ctx c) (padding c) (block c) (bpos c) (last c) (chain c)
           (encrypt c) (prev c) (ppos c) v (ctr c).
Definition set_ctr (c : Cipher) (v : list Z) : Cipher :=
  mkCipher (cls c) (ctx c) (padding c) (block c) (bpos c) (last c) (chain c)
           (encrypt c) (prev c) (ppos c) (state c) v.

Section WithCtx.
Context {BC : BlockCtx}.

(** [Buffer.allocUnsafe(n)]. *)
Definition allocUnsafe (n : Z) : list Z := heap_junk <$> seqZ 0 n.

(** [ctx.init(key)], [ctx.destroy()]. *)
Definition ctx_init (key : list Z) : result ctx_state :=
  if key_ok key then Ok (CtxReady key)
  else Throw "Invalid key.".

Definition ctx_destroy (s : ctx_state) : ctx_state := CtxDestroyed.

(** [ctx.encrypt(input, ipos, output, opos)] and [ctx.decrypt(...)]: the
    new content of [output]. *)
Definition ctx_encrypt (s : ctx_state) (input : list Z) (ipos : Z)
    (output : list Z) (opos : Z) : result (list Z) :=
  match s with
  | CtxReady key =>
      Ok (copy (encrypt_block key (read_block input ipos blockSize))
               output opos 0 blockSize)
  | _ => Throw "Cipher context is not initialized."
  end.

Definition ctx_decrypt (s : ctx_state) (input : list Z) (ipos : Z)
    (output : list Z) (opos : Z) : result (list Z) :=
  match s with
  | CtxReady key =>
      Ok (copy (decrypt_block key (read_block input ipos blockSize))
               output opos 0 blockSize)
  | _ => Throw "Cipher context is not initialized."
  end.

(** The constructors: [new K(ctx)]. *)
Definition new (k : klass) : Cipher :=
  {| cls := k;
     ctx := CtxNew;
     padding := match family_of k with BlockDecipher => true | _ => false end;
     block := allocUnsafe blockSize;
     bpos := -1;
     last := EMPTY;
     chain := match k with CBCCipher | CBCDecipher => true | _ => false end;
     encrypt := match k with CFBDecipher => false | _ => true end;
     prev := PrevBuf EMPTY;
     ppos := 0;
     state := EMPTY;
     ctr := EMPTY |}.

Definition blockSize_of (c : Cipher) : Z := blen (block c).

(** Content of the buffer behind [this.prev] and behind [input]. *)
Definition prev_data (c : Cipher) : list Z :=
  match prev c with
  | PrevBuf d => d
  | PrevBlock => block c
  end.

Definition input_data (c : Cipher) (input : input_ref) (output : list Z)
    : list Z :=
  match input with
  | InBuf d => d
  | InBlock => block c
  | InOutput => output
  end.

(** [this.prev = input]. *)
Definition prev_of_input (input : input_ref) (output : list Z) : prev_ref :=
  match input with
  | InBuf d => PrevBuf d
  | InBlock => PrevBlock
  | InOutput => PrevBuf output
  end.

(** [_init(key, iv)] of each family. *)
Definition _init (c : Cipher) (key iv : list Z) : Cipher * result unit :=
  match family_of (cls c) with
  | BlockCipher | BlockDecipher =>
      if bool_decide (blen iv = if chain c then blockSize_of c else 0)
      then (set_prev c (PrevBuf iv) 0, Ok tt)
      else (c, Throw "Assertion failed.")
  | CTR =>
      if bool_decide (blen iv = blockSize_of c)
      then (set_ctr (set_state c (allocUnsafe (blockSize_of c))) iv, Ok tt)
      else (c, Throw "Assertion failed.")
  | CFB =>
      if bool_decide (blen iv = blockSize_of c)
      then (set_prev (set_state c (allocUnsafe (blockSize_of c)))
                     (PrevBuf iv) 0, Ok tt)
      else (c, Throw "Assertion failed.")
  | OFB =>
      if bool_decide (blen iv = blockSize_of c)
      then (set_state c iv, Ok tt)
      else (c, Throw "Assertion failed.")
  end.

(** [init(key, iv)]; an absent [iv] is [None]. *)
Definition init (c : Cipher) (key : list Z) (iv : option (list Z))
    : Cipher * result unit :=
  let iv := default EMPTY iv in
  match ctx_init key with
  | Throw e => (c, Throw e)
  | Ok s =>
      let c := set_ctx c s in
      let c := set_bpos c 0 in
      let c := set_last c EMPTY in
      _init c key iv
  end.

(** [CTR._increment()]: the loop from the last byte down, stopping at the
    first byte that is not 0xff. *)
Fixpoint increment_from (n : nat) (b : list Z) : list Z :=
  match n with
  | O => b
  | Datatypes.S i =>
      if decide (bget b (Z.of_nat i) = 255)
      then increment_from i (bset b (Z.of_nat i) 0)
      else bset b (Z.of_nat i) (bget b (Z.of_nat i) + 1)
  end.

Definition _increment (c : Cipher) : Cipher :=
  set_ctr c (increment_from (length (ctr c)) (ctr c)).

(** [for (i < bs) output[opos + i] = input[ipos + i] ^ other[k + i]], with
    [input] read through its reference. *)
Definition xor_into (c : Cipher) (input : input_ref) (ipos : Z)
    (other : list Z) (k : Z) (output : list Z) (opos : Z) : list Z :=
  for_lt (blockSize_of c)
    (fun i out =>
       bset out (opos + i)
            (Z.lxor (bget (input_data c input out) (ipos + i))
                    (bget other (k + i))))
    output.

(** [_update(input, ipos, output, opos)] of each family: the new [this] and
    the new content of [output]. *)
Definition _update (c : Cipher) (input : input_ref) (ipos : Z)
    (output : list Z) (opos : Z) : result (Cipher * list Z) :=
  match family_of (cls c) with
  | BlockCipher =>
      if chain c then
        let output := xor_into c input ipos (prev_data c) (ppos c)
                               output opos in
        output ← ctx_encrypt (ctx c) output opos output opos;
        Ok (set_prev c (PrevBuf output) opos, output)
      else
        output ← ctx_encrypt (ctx c) (input_data c input output) ipos
                             output opos;
        Ok (c, output)
  | BlockDecipher =>
      if chain c then
        output ← ctx_decrypt (ctx c) (input_data c input output) ipos
                             output opos;
        let output := xor_into c InOutput opos (prev_data c) (ppos c)
                               output opos in
        Ok (set_prev c (prev_of_input input output) ipos, output)
      else
        output ← ctx_decrypt (ctx c) (input_data c input output) ipos
                             output opos;
        Ok (c, output)
  | CTR =>
      st ← ctx_encrypt (ctx c) (ctr c) 0 (state c) 0;
      let c := set_state c st in
      let c := _increment c in
      let output := xor_into c input ipos (state c) 0 output opos in
      Ok (c, output)
  | CFB =>
      st ← ctx_encrypt (ctx c) (prev_data c) (ppos c) (state c) 0;
      let c := set_state c st in
      let output := xor_into c input ipos (state c) 0 output opos in
      if encrypt c
      then Ok (set_prev c (PrevBuf output) opos, output)
      else Ok (set_prev c (prev_of_input input output) ipos, output)
  | OFB =>
      st ← ctx_encrypt (ctx c) (state c) 0 (state c) 0;
      let c := set_state c st in
      let output := xor_into c input ipos (state c) 0 output opos in
      Ok (c, output)
  end.

(** The partial block of the stream modes:
    [for (i < this.bpos) out[i] = this.block[i] ^ this.state[i]]. *)
Definition xor_tail (c : Cipher) : list Z :=
  for_lt (bpos c)
    (fun i out => bset out i (Z.lxor (bget (block c) i) (bget (state c) i)))
    (allocUnsafe (bpos c)).

(** The padding check of [BlockDecipher._final]: [left] times, step [end]
    down and compare. *)
Fixpoint check_padding (n : nat) (blk : list Z) (left end_ : Z)
    : result Z :=
  match n with
  | O => Ok end_
  | Datatypes.S n' =>
      let end_ := end_ - 1 in
      if decide (bget blk end_ = left)
      then check_padding n' blk left end_
      else Throw "Bad decrypt (padding)."
  end.

(** [_final()] of each family: the state when it returns or throws, and
    what it returns or throws. *)
Definition _final (c : Cipher) : Cipher * result (list Z) :=
  match family_of (cls c) with
  | BlockCipher =>
      let bs := blockSize_of c in
      let left := bs - bpos c in
      let blk := block c in
      let blk := fill blk left (bpos c) bs in
      match _update c InOutput 0 blk 0 with
      | Throw e => (c, Throw e)
      | Ok (c, blk) => (set_prev c (PrevBuf EMPTY) (ppos c), Ok blk)
      end
  | BlockDecipher =>
      let bs := blockSize_of c in
      let c := set_prev c (PrevBuf EMPTY) (ppos c) in
      if decide (blen (last c) = 0)
      then (c, Throw "Bad decrypt (no data).")
      else
        let blk := last c in
        let c := set_last c EMPTY in
        if decide (bpos c <> 0)
        then (c, Throw "Bad decrypt (trailing bytes).")
        else
          let start := blen blk - bs in
          let end_ := blen blk in
          let left := bget blk (end_ - 1) in
          if decide (left = 0 \/ left > bs)
          then (c, Throw "Bad decrypt (padding).")
          else
            match check_padding (Z.to_nat left) blk left end_ with
            | Throw e => (c, Throw e)
            | Ok end_ => (c, Ok (slice blk start end_))
            end
  | CTR =>
      match ctx_encrypt (ctx c) (ctr c) 0 (state c) 0 with
      | Throw e => (c, Throw e)
      | Ok st =>
          let c := set_state c st in
          let out := xor_tail c in
          (set_ctr (set_state c EMPTY) EMPTY, Ok out)
      end
  | CFB =>
      match ctx_encrypt (ctx c) (prev_data c) (ppos c) (state c) 0 with
      | Throw e => (c, Throw e)
      | Ok st =>
          let c := set_state c st in
          let out := xor_tail c in
          (set_prev (set_state c EMPTY) (PrevBuf EMPTY) (ppos c), Ok out)
      end
  | OFB =>
      match ctx_encrypt (ctx c) (state c) 0 (state c) 0 with
      | Throw e => (c, Throw e)
      | Ok st =>
          let c := set_state c st in
          let out := xor_tail c in
          (set_state c EMPTY, Ok out)
      end
  end.

(** The loop [while (ilen >= bs)] of [update]; [fuel] bounds the number of
    iterations.  Returns [this], [output], [ipos] and [ilen] at exit. *)
Fixpoint update_loop (fuel : nat) (bs : Z) (c : Cipher) (input : list Z)
    (ipos : Z) (output : list Z) (opos ilen : Z)
    : Cipher * result (list Z * Z * Z) :=
  if decide (ilen >= bs) then
    match fuel with
    | O => (c, Throw "Out of fuel.")
    | Datatypes.S fuel' =>
        match _update c (InBuf input) ipos output opos with
        | Throw e => (c, Throw e)
        | Ok (c, output) =>
            update_loop fuel' bs c input (ipos + bs) output (opos + bs)
                        (ilen - bs)
        end
    end
  else (c, Ok (output, ipos, ilen)).

(** [update(input)]: the state when it returns or throws, and what it
    returns or throws. *)
Definition update (c : Cipher) (input : list Z) : Cipher * result (list Z) :=
  if decide (bpos c = -1)
  then (c, Throw "Cipher not initialized.")
  else
    let bs := blen (block c) in
    let bpos0 := bpos c in
    let ilen := blen input in
    let olen := ilen - Z.rem ilen bs in
    let c := set_bpos c (Z.rem (bpos c + ilen) bs) in
    (* the tail of the function, after the [if (bpos > 0)] block *)
    let rest (c : Cipher) (ilen olen ipos : Z) :=
      let output := allocUnsafe olen in
      let opos := 0 in
      let step1 :=
        if decide (ipos <> 0) then
          match _update c InBlock 0 output opos with
          | Throw e => (c, Throw e)
          | Ok (c, output) => (c, Ok (output, opos + bs))
          end
        else (c, Ok (output, opos)) in
      match step1 with
      | (c, Throw e) => (c, Throw e)
      | (c, Ok (output, opos)) =>
          match update_loop (Z.to_nat ilen) bs c input ipos output opos ilen
          with
          | (c, Throw e) => (c, Throw e)
          | (c, Ok (output, ipos, ilen)) =>
              let c :=
                if decide (ilen > 0)
                then set_block c (copy input (block c) 0 ipos (ipos + ilen))
                else c in
              if negb (padding c) then (c, Ok output)
              else
                let c := set_last c output in
                (c, Ok (slice output 0 (olen - bs)))
          end
      end in
    if decide (bpos0 > 0) then
      let want := bs - bpos0 in
      let want := if decide (want > ilen) then ilen else want in
      let c := set_block c (copy input (block c) bpos0 0 (0 + want)) in
      let bpos1 := bpos0 + want in
      let ilen := ilen - want in
      let ipos := 0 + want in
      if decide (bpos1 < bs) then (c, Ok EMPTY)
      else rest c ilen (olen + bs) ipos
    else rest c ilen olen 0.

(** [final()]: [_final] runs inside [try], the clean-up inside [finally]. *)
Definition final (c : Cipher) : Cipher * result (list Z) :=
  if decide (bpos c = -1)
  then (c, Throw "Cipher not initialized.")
  else
    let '(c, ret) := _final c in
    let c := set_ctx c (ctx_destroy (ctx c)) in
    let c := set_block c (fill_all (block c) 0) in
    let c := set_bpos c (-1) in
    let c := set_last c EMPTY in
    (c, ret).

(** A caller's use of a mode object: [init], the [update] calls and
    [final] in a row.  The results of the calls and the object at the
    end. *)
Definition run (k : klass) (key : list Z) (iv : option (list Z))
    (chunks : list (list Z))
    : list (result (list Z)) * result (list Z) * Cipher :=
  let c := (init (new k) key iv).1 in
  let '(c, outs) :=
    foldl (fun '(c, acc) chunk =>
             let '(c, r) := update c chunk in (c, acc ++ [r]))
          (c, []) chunks in
  let '(c, r) := final c in
  (outs, r, c).

(** All the bytes returned by a run. *)
Definition emitted (rs : list (result (list Z)) * result (list Z))
    : list Z :=
  concat (map (fun r => match r with Ok b => b | Throw _ => [] end)
              (rs.1 ++ [rs.2])).

(** The number of bytes an [update] returns, from [padding], the block size,
    [bpos] before the call and the length of the input: nothing while the
    buffered block stays incomplete; otherwise [olen], less the block that a
    padding decipher holds back. *)
Definition returned_length (pad : bool) (bs bpos ilen : Z) : Z :=
  if decide (bpos > 0 /\ bpos + ilen < bs) then 0
  else
    let olen := ilen - ilen mod bs + (if decide (bpos > 0) then bs else 0) in
    if pad then Z.max (olen - bs) 0 else olen.

(** What the theorems assume of the block cipher: a block size between 1
    and 255, and single-block functions that keep the length of a block and
    are inverse to each other on blocks of bytes. *)
Record block_ctx_ok : Prop := {
  bs_pos : 0 < blockSize;
  bs_byte : blockSize < 256;
  encrypt_block_length : forall key b,
    blen b = blockSize -> blen (encrypt_block key b) = blockSize;
  decrypt_block_length : forall key b,
    blen b = blockSize -> blen (decrypt_block key b) = blockSize;
  decrypt_encrypt : forall key b,
    key_ok key = true -> is_bytes b -> blen b = blockSize ->
    decrypt_block key (encrypt_block key b) = b
}.

(** The IV each class asserts in [_init]: none (or an empty one) for ECB,
    one block for the others. *)
Definition iv_ok (k : klass) (iv : option (list Z)) : Prop :=
  blen (default EMPTY iv) =
  match k with
  | ECBCipher | ECBDecipher => 0
  | _ => blockSize
  end.

(** The output length of the specification for [n] bytes of input: the
    padded length [ceil((n + 1) / bs) * bs] for the CBC and ECB encryptors,
    [n] for the stream-like modes. *)
Definition claimed_length (k : klass) (bs n : Z) : Z :=
  match family_of k with
  | BlockCipher => (n + 1 + bs - 1) / bs * bs
  | _ => n
  end.

(** *** The modes as functions on blocks

    What the code computes, stated on lists of blocks: used to compare an
    encryptor with its decipher. *)

(** Byte-wise xor reduced to a byte, as the loops of [_update] store it. *)
Definition xorm (a b : list Z) : list Z :=
  zip_with (fun x y => Z.land (Z.lxor x y) 255) a b.

(** What an object carries from one block to the next: the previous block
    (CBC, CFB), the counter (CTR), the key stream block (OFB). *)
Definition chain_value (c : Cipher) : list Z :=
  match family_of (cls c) with
  | BlockCipher | BlockDecipher | CFB =>
      read_block (prev_data c) (ppos c) (blockSize_of c)
  | CTR => ctr c
  | OFB => state c
  end.

(** One block [b] through a class of mode, from the carried value [v]: the
    value carried on and the block written. *)
Definition block_step (k : klass) (key v b : list Z) : list Z * list Z :=
  match k with
  | ECBCipher => (v, encrypt_block key b)
  | ECBDecipher => (v, decrypt_block key b)
  | CBCCipher => let o := encrypt_block key (xorm b v) in (o, o)
  | CBCDecipher => (b, xorm (decrypt_block key b) v)
  | CTRCipher | CTRDecipher =>
      (increment_from (length v) v, xorm b (encrypt_block key v))
  | CFBCipher => let o := xorm b (encrypt_block key v) in (o, o)
  | CFBDecipher => (b, xorm b (encrypt_block key v))
  | OFBCipher | OFBDecipher =>
      let s := encrypt_block key v in (s, xorm b s)
  end.

(** A list of blocks through a class of mode. *)
Fixpoint run_chunks (k : klass) (key v : list Z) (chunks : list (list Z))
    : list Z * list (list Z) :=
  match chunks with
  | [] => (v, [])
  | b :: rest =>
      let '(v1, o) := block_step k key v b in
      let '(v2, os) := run_chunks k key v1 rest in
      (v2, o :: os)
  end.

(** The [q] blocks a buffer holds from [ipos] on. *)
Definition chunks_at (input : list Z) (ipos : Z) (q : nat)
    : list (list Z) :=
  (fun j : nat => read_block input (ipos + Z.of_nat j * blockSize) blockSize)
    <$> seq 0 q.

(** The last block of an encryptor with padding: the [rest] bytes left
    over, filled up with the number of bytes that were missing. *)
Definition pad_block (rest : list Z) : list Z :=
  rest ++ replicate (Z.to_nat (blockSize - blen rest))
                    (Z.land (blockSize - blen rest) 255).

(** An object between two blocks: a keyed context, a block buffer of one
    block, [chain] and [encrypt] as the constructor set them, a [prev] that
    is not the block buffer, and the buffers of the stream modes of one
    block each. *)
Definition well_formed (c : Cipher) (key : list Z) : Prop :=
  ctx c = CtxReady key /\ blen (block c) = blockSize /\
  prev c <> PrevBlock /\
  chain c = match cls c with CBCCipher | CBCDecipher => true | _ => false end /\
  encrypt c = match cls c with CFBDecipher => false | _ => true end /\
  match family_of (cls c) with
  | CTR => blen (state c) = blockSize /\ blen (ctr c) = blockSize
  | CFB | OFB => blen (state c) = blockSize
  | _ => True
  end.

(** A list of blocks of bytes. *)
Definition byte_blocks (chunks : list (list Z)) : Prop :=
  Forall (fun b => is_bytes b /\ blen b = blockSize) chunks.

(** The five modes, and the class of each in either direction. *)
Inductive mode := ECB_mode | CBC_mode | CTR_mode | CFB_mode | OFB_mode.

Definition cipher_class (m : mode) : klass :=
  match m with
  | ECB_mode => ECBCipher
  | CBC_mode => CBCCipher
  | CTR_mode => CTRCipher
  | CFB_mode => CFBCipher
  | OFB_mode => OFBCipher
  end.

Definition decipher_class (m : mode) : klass :=
  match m with
  | ECB_mode => ECBDecipher
  | CBC_mode => CBCDecipher
  | CTR_mode => CTRDecipher
  | CFB_mode => CFBDecipher
  | OFB_mode => OFBDecipher
  end.

(** The fields [_update] leaves alone. *)
Definition same_frame (c c' : Cipher) : Prop :=
  cls c' = cls c /\ ctx c' = ctx c /\ padding c' = padding c /\
  block c' = block c /\ bpos c' = bpos c /\ last c' = last c /\
  chain c' = chain c /\ encrypt c' = encrypt c.

(** An initialised object: a block buffer of [bs] bytes, a position inside
    it and a keyed context. *)
Definition ready (c : Cipher) (bs : Z) (key : list Z) : Prop :=
  blen (block c) = bs /\ 0 <= bpos c < bs /\ ctx c = CtxReady key.

(** The [update] calls of a caller in a row: the object after the last one
    and what each call returned or threw. *)
Definition updates (c : Cipher) (chunks : list (list Z))
    : Cipher * list (result (list Z)) :=
  foldl (fun '(c, acc) chunk =>
           let '(c, r) := update c chunk in (c, acc ++ [r]))
        (c, []) chunks.

(** [init], the [update] calls and [final] on an object that exists
    already. *)
Definition run_on (c : Cipher) (key : list Z) (iv : option (list Z))
    (chunks : list (list Z))
    : list (result (list Z)) * result (list Z) * Cipher :=
  let c := (init c key iv).1 in
  let '(c, outs) := updates c chunks in
  let '(c, r) := final c in
  (outs, r, c).

(** What the constructor of class [k] fixes for the life of an object: the
    class, [padding], [chain], [encrypt] and the size of the block buffer;
    an object of CTR or OFB has no [prev], and the field keeps the value
    [new] gives it. *)
Definition made_by (k : klass) (c : Cipher) : Prop :=
  cls c = k /\ padding c = padding (new k) /\ chain c = chain (new k) /\
  encrypt c = encrypt (new k) /\ blen (block c) = blockSize /\
  (family_of k = CTR \/ family_of k = OFB -> prev c = prev (new k)).

End WithCtx.

(** [get(name, encrypt)]. *)
Definition get (name : string) (encrypt : bool) : result klass :=
  if decide (name = "ecb" \/ name = "ECB")
  then Ok (if encrypt then ECBCipher else ECBDecipher)
  else if decide (name = "cbc" \/ name = "CBC")
  then Ok (if encrypt then CBCCipher else CBCDecipher)
  else if decide (name = "ctr" \/ name = "CTR")
  then Ok (if encrypt then CTRCipher else CTRDecipher)
  else if decide (name = "cfb" \/ name = "CFB")
  then Ok (if encrypt then CFBCipher else CFBDecipher)
  else if decide (name = "ofb" \/ name = "OFB")
  then Ok (if encrypt then OFBCipher else OFBDecipher)
  else Throw ("Unknown mode: " ++ name ++ ".").

End Modes.

(** ** The curve, big-integer, hash and random-source interfaces

    [lib/js/curves.js], [lib/bn.js], the hash classes and [lib/random.js] are
    outside the three files.  A [BN] is an integer; its [imul], [iadd], [sub],
    [iumod], [cmp] and [isZero] are the operations of [Z].  Every other
    operation is a field of an interface and may throw. *)

Class Curve := {
  point : Type;
  curve_n : Z;
  curve_p : Z;
  curve_a : Z;
  curve_b : Z;
  curve_size : Z;
  curve_scalarLength : Z;
  curve_hc : Z;
  curve_context : bool;
  curve_prefix : list Z;
  curve_g : point;
  decodePoint : list Z -> result point;
  decodeInt : list Z -> result Z;
  decodeScalar : list Z -> result Z;
  encodeInt : Z -> result (list Z);
  encodeScalar : Z -> result (list Z);
  splitHash : list Z -> result (list Z * list Z);
  isClamped : list Z -> bool;
  curve_point : Z -> Z -> result point;
  point_encode : point -> result (list Z);
  point_mul : point -> Z -> result point;
  point_mulBlind : point -> Z -> result point;
  point_mulAdd : point -> Z -> point -> Z -> result point;
  point_add : point -> point -> result point;
  point_dbl : point -> result point;
  point_eq : point -> point -> result bool;
  point_getX : point -> result Z;
  point_getY : point -> result Z;
  point_isInfinity : point -> result bool;
  BN_decode : list Z -> result Z;
  BN_jacobi : Z -> Z -> result Z;
  BN_redSqrt : Z -> result Z
}.

Class Hash := {
  hash_state : Type;
  hash_size : Z;
  hash_init : result hash_state;
  hash_update : hash_state -> list Z -> result hash_state;
  hash_final : hash_state -> option Z -> result (list Z);
  hash_digest : list Z -> Z -> result (list Z)
}.

(** [BN.random(rng, lo, hi)] draws from the state of the random source. *)
Class Rng := {
  rng_state : Type;
  BN_random : rng_state -> Z -> Z -> result (Z * rng_state)
}.

(** What the code draws is in the range it asked for. *)
Definition rng_in_range {R : Rng} : Prop :=
  forall s lo hi v s', BN_random s lo hi = Ok (v, s') -> lo <= v < hi.

(** Modelled from the spec: [b.finvm(n)] of the big-integer library, the
    inverse of [b] modulo [n] computed by Fermat's little theorem, [b] raised
    to [n - 2]. *)
Definition finvm (b n : Z) : Z := (b ^ (n - 2)) mod n.

(** The store of buffers, for the functions whose callers can observe
    whether a buffer was written to: addresses to contents. *)
Abbreviation store := (gmap nat (list Z)).

(** [curve.clamp(raw)], which receives a buffer by reference: the store
    when it returns or throws, and the reference it returns. *)
Class Clamp := {
  clamp : store -> nat -> store * result nat
}.

(** The contract of [curve.clamp]: it writes to no buffer but the one it is
    given, and what it returns is that buffer. *)
Definition clamp_in_place {K : Clamp} : Prop :=
  (forall (st : store) (a a' : nat),
     a' <> a -> (clamp st a).1 !! a' = st !! a') /\
  (forall (st : store) (a r : nat), (clamp st a).2 = Ok r -> r = a).

(** More of the curve and big-integer interfaces, for the key and scalar
    functions of [eddsa.js]: [point.neg()], [a.invm(n)], and
    [point.mulBlind(k, rng)], which draws its blinding from the random
    source. *)
Class CurveOps {C : Curve} {R : Rng} := {
  point_neg : point -> result point;
  BN_invm : Z -> Z -> result Z;
  point_mulBlindRng : rng_state -> point -> Z -> result (point * rng_state)
}.

(** [hash.multi(one, two, three, size)]. *)
Class HashMulti := {
  hash_multi : list Z -> list Z -> option (list Z) -> Z -> result (list Z)
}.

(** ** lib/js/eddsa.js *)

Module EDDSA.
Section WithCurve.
Context {C : Curve} {H : Hash} {R : Rng} {K : Clamp}.

Definition size : Z := curve_size.

(** [hashKey(secret)]. *)
Definition hashKey (secret : list Z) : result (list Z) :=
  _ ← assert (bool_decide (blen secret = size));
  hash_digest secret (size * 2).

(** [ph & 0xff], for [ph] absent, [false] or [true]. *)
Definition ph_byte (ph : option bool) : Z :=
  match ph with
  | Some true => Z.land 1 255
  | _ => Z.land 0 255
  end.

(** [!ctx || ctx.length <= 255]. *)
Definition ctx_len_ok (ctx : option (list Z)) : bool :=
  match ctx with
  | Some c => bool_decide (blen c <= 255)
  | None => true
  end.

(** [for (const item of items) h.update(item)]. *)
Fixpoint update_all (h : hash_state) (items : list (list Z))
    : result hash_state :=
  match items with
  | [] => Ok h
  | item :: rest => h ← hash_update h item; update_all h rest
  end.

(** [hashInt(ph, ctx, ...items)]; [SLAB] is the one-byte buffer. *)
Definition hashInt (ph : option bool) (ctx : option (list Z))
    (items : list (list Z)) : result Z :=
  _ ← assert (ctx_len_ok ctx);
  h ← hash_init;
  h ← (if curve_context || bool_decide (is_Some ph) then
         h ← hash_update h curve_prefix;
         h ← hash_update h (bset [0] 0 (ph_byte ph));
         match ctx with
         | Some c =>
             h ← hash_update h (bset [0] 0 (blen c));
             hash_update h c
         | None => hash_update h (bset [0] 0 0)
         end
       else
         _ ← assert_msg (bool_decide (ctx = None))
               "Must pass pre-hash flag with context.";
         Ok h);
  h ← update_all h items;
  hash ← hash_final h (Some (size * 2));
  num ← BN_decode hash;
  Ok (num mod curve_n).

(** [privateKeyConvert(secret)]. *)
Definition privateKeyConvert (secret : list Z) : result (list Z) :=
  hash ← hashKey secret;
  '(key, _) ← splitHash hash;
  Ok key.

(** [scalarVerify(scalar)]. *)
Definition scalarVerify (scalar : list Z) : bool := isClamped scalar.

(** [scalarClamp(scalar)]: [scalar] is the address of the argument in the
    store [st]; returns the store when the call returns or throws, and the
    address of the buffer returned. *)
Definition scalarClamp (st : store) (scalar : nat) : store * result nat :=
  match st !! scalar with
  | None => (st, Throw "Assertion failed.")
  | Some bytes =>
      if negb (bool_decide (blen bytes = curve_scalarLength))
      then (st, Throw "Assertion failed.")
      else if negb (scalarVerify bytes) then
        (* scalar = Buffer.from(scalar) *)
        let copy_addr := fresh (dom st) in
        let st := <[copy_addr := bytes]> st in
        clamp st copy_addr
      else (st, Ok scalar)
  end.

(** [publicKeyFromScalar(scalar)]. *)
Definition publicKeyFromScalar (scalar : list Z) : result (list Z) :=
  a ← decodeScalar scalar;
  let a := a mod curve_n in
  A ← point_mulBlind curve_g a;
  point_encode A.

(** [publicKeyCreate(secret)]. *)
Definition publicKeyCreate (secret : list Z) : result (list Z) :=
  key ← privateKeyConvert secret;
  publicKeyFromScalar key.

(** The signature scalar of [signWithScalar], computed on operands blinded
    by [b]:
    [ha = h.imul(b).iumod(N).imul(a).iumod(N)] and
    [S = r.imul(b).iumod(N).iadd(ha).iumod(N).imul(bi).iumod(N)]. *)
Definition blinded_S (N r h a b : Z) : Z :=
  let bi := finvm b N in
  let ha := (((h * b) mod N) * a) mod N in
  (((((r * b) mod N) + ha) mod N) * bi) mod N.

(** [signWithScalar(msg, scalar, nonce, ph, ctx)]. *)
Definition signWithScalar (rng : rng_state) (msg scalar nonce : list Z)
    (ph : option bool) (ctx : option (list Z))
    : result (list Z * rng_state) :=
  _ ← assert (bool_decide (blen nonce = size));
  let G := curve_g in
  let N := curve_n in
  a ← decodeScalar scalar;
  A ← point_mulBlind G a;
  A ← point_encode A;
  r ← hashInt ph ctx [nonce; msg];
  R ← point_mulBlind G r;
  R ← point_encode R;
  h ← hashInt ph ctx [R; A; msg];
  '(b, rng) ← BN_random rng 1 N;
  let S := blinded_S N r h a b in
  Sraw ← encodeInt S;
  Ok (R ++ Sraw, rng).

(** [sign(msg, secret, ph, ctx)]. *)
Definition sign (rng : rng_state) (msg secret : list Z)
    (ph : option bool) (ctx : option (list Z))
    : result (list Z * rng_state) :=
  hash ← hashKey secret;
  '(key, nonce) ← splitHash hash;
  signWithScalar rng msg key nonce ph ctx.

(** The loop [for (i < hc) { lhs = lhs.dbl(); rhs = rhs.dbl(); }]. *)
Fixpoint dbl_loop (i : nat) (lhs rhs : point) : result (point * point) :=
  match i with
  | O => Ok (lhs, rhs)
  | Datatypes.S i' =>
      lhs ← point_dbl lhs;
      rhs ← point_dbl rhs;
      dbl_loop i' lhs rhs
  end.

(** [_verify(msg, sig, key, ph, ctx)]. *)
Definition _verify (msg sig key : list Z) (ph : option bool)
    (ctx : option (list Z)) : result bool :=
  let Rraw := slice sig 0 size in
  let Sraw := slice_from sig size in
  R ← decodePoint Rraw;
  S ← decodeInt Sraw;
  A ← decodePoint key;
  if bool_decide (S >= curve_n) then Ok false
  else
    h ← hashInt ph ctx [Rraw; key; msg];
    lhs ← point_mul curve_g S;
    Ah ← point_mul A h;
    rhs ← point_add R Ah;
    '(lhs, rhs) ← dbl_loop (Z.to_nat curve_hc) lhs rhs;
    point_eq lhs rhs.

(** The assertions on [ph] and [ctx] that open [verify] and
    [batchVerify]. *)
Definition check_args (ph : option bool) (ctx : option (list Z))
    : result unit :=
  _ ← assert (ctx_len_ok ctx);
  if negb curve_context && bool_decide (ctx <> None)
  then assert_msg (bool_decide (ph <> None))
         "Must pass pre-hash flag with context."
  else Ok tt.

(** [verify(msg, sig, key, ph, ctx)]. *)
Definition verify (msg sig key : list Z) (ph : option bool)
    (ctx : option (list Z)) : result bool :=
  _ ← check_args ph ctx;
  if bool_decide (blen sig <> size * 2) then Ok false
  else if bool_decide (blen key <> size) then Ok false
  else try_or_false (_verify msg sig key ph ctx).

(** The loop of [_batchVerify] and the comparison after it.  [acc] is
    [None] while [lhs] and [rhs] are [null]. *)
Fixpoint _batchVerify_loop (rng : rng_state)
    (batch : list (list Z * list Z * list Z))
    (ph : option bool) (ctx : option (list Z))
    (acc : option (Z * point)) : result bool :=
  let N := curve_n in
  let G := curve_g in
  match batch with
  | [] =>
      match acc with
      | None => Ok true
      | Some (lhs, rhs) =>
          L ← point_mul G lhs;
          point_eq L rhs
      end
  | (msg, sig, key) :: rest =>
      let Rraw := slice sig 0 size in
      let Sraw := slice_from sig size in
      R ← decodePoint Rraw;
      S ← decodeInt Sraw;
      A ← decodePoint key;
      if bool_decide (S >= N) then Ok false
      else
        e ← hashInt ph ctx [Rraw; key; msg];
        match acc with
        | None =>
            Ae ← point_mul A e;
            rhs ← point_add R Ae;
            _batchVerify_loop rng rest ph ctx (Some (S, rhs))
        | Some (lhs, rhs) =>
            '(a, rng) ← BN_random rng 1 N;
            let ae := (a * e) mod N in
            let lhs := (lhs + a * S) mod N in
            T ← point_mulAdd R a A ae;
            rhs ← point_add rhs T;
            _batchVerify_loop rng rest ph ctx (Some (lhs, rhs))
        end
  end.

(** [_batchVerify(batch, ph, ctx)]. *)
Definition _batchVerify (rng : rng_state)
    (batch : list (list Z * list Z * list Z))
    (ph : option bool) (ctx : option (list Z)) : result bool :=
  _batchVerify_loop rng batch ph ctx None.

(** The first loop of [batchVerify]: [false] at the first item whose
    signature or key has the wrong length. *)
Fixpoint lengths_ok (batch : list (list Z * list Z * list Z)) : bool :=
  match batch with
  | [] => true
  | (msg, sig, key) :: rest =>
      if bool_decide (blen sig <> curve_size * 2) then false
      else if bool_decide (blen key <> size) then false
      else lengths_ok rest
  end.

(** [batchVerify(batch, ph, ctx)]. *)
Definition batchVerify (rng : rng_state)
    (batch : list (list Z * list Z * list Z))
    (ph : option bool) (ctx : option (list Z)) : result bool :=
  _ ← check_args ph ctx;
  if negb (lengths_ok batch) then Ok false
  else try_or_false (_batchVerify rng batch ph ctx).

(** The signing of the specification, without blinding:
    [S := (r + h * a) mod n]. *)
Definition signWithScalar_unblinded (rng : rng_state)
    (msg scalar nonce : list Z)
    (ph : option bool) (ctx : option (list Z))
    : result (list Z * rng_state) :=
  _ ← assert (bool_decide (blen nonce = size));
  a ← decodeScalar scalar;
  A ← point_mulBlind curve_g a;
  A ← point_encode A;
  r ← hashInt ph ctx [nonce; msg];
  R ← point_mulBlind curve_g r;
  R ← point_encode R;
  h ← hashInt ph ctx [R; A; msg];
  '(_, rng) ← BN_random rng 1 curve_n;
  Sraw ← encodeInt ((r + h * a) mod curve_n);
  Ok (R ++ Sraw, rng).


(** *** Keys, scalars and key agreement *)

Context {O : CurveOps} {M : HashMulti}.

(** [privateKeyVerify(secret)]. *)
Definition privateKeyVerify (secret : list Z) : bool :=
  bool_decide (blen secret = size).

(** [scalarTweakAdd(scalar, tweak)]. *)
Definition scalarTweakAdd (scalar tweak : list Z) : result (list Z) :=
  a ← decodeScalar scalar;
  t ← decodeScalar tweak;
  let s := (a + t) mod curve_n in
  if bool_decide (s = 0) then Throw "Invalid scalar."
  else encodeScalar s.

(** [scalarTweakMul(scalar, tweak)]. *)
Definition scalarTweakMul (scalar tweak : list Z) : result (list Z) :=
  a ← decodeScalar scalar;
  t ← decodeScalar tweak;
  let s := (a * t) mod curve_n in
  if bool_decide (s = 0) then Throw "Invalid scalar."
  else encodeScalar s.

(** [scalarNegate(scalar)]. *)
Definition scalarNegate (scalar : list Z) : result (list Z) :=
  a ← decodeScalar scalar;
  let a := a mod curve_n in
  let s := if bool_decide (a = 0) then a else curve_n - a in
  encodeScalar s.

(** [scalarInverse(scalar)]. *)
Definition scalarInverse (scalar : list Z) : result (list Z) :=
  a ← decodeScalar scalar;
  let a := a mod curve_n in
  if bool_decide (a = 0) then Throw "Invalid scalar."
  else
    s ← BN_invm a curve_n;
    if bool_decide (s = 0) then Throw "Invalid scalar."
    else encodeScalar s.

(** [publicKeyVerify(key)]. *)
Definition publicKeyVerify (key : list Z) : bool :=
  match decodePoint key with
  | Ok _ => true
  | Throw _ => false
  end.

(** [publicKeyExport(key)] and [publicKeyImport(raw)]; [Buffer.from] makes
    a copy. *)
Definition publicKeyExport (key : list Z) : result (list Z) :=
  if negb (publicKeyVerify key) then Throw "Invalid public key."
  else Ok key.

Definition publicKeyImport (raw : list Z) : result (list Z) :=
  if negb (publicKeyVerify raw) then Throw "Invalid public key."
  else Ok raw.

(** [publicKeyTweakAdd(key, tweak)]. *)
Definition publicKeyTweakAdd (key tweak : list Z) : result (list Z) :=
  t ← decodeScalar tweak;
  let t := t mod curve_n in
  A ← decodePoint key;
  T ← point_mul curve_g t;
  P ← point_add T A;
  point_encode P.

(** [publicKeyTweakMul(key, tweak)]. *)
Definition publicKeyTweakMul (key tweak : list Z) : result (list Z) :=
  t ← decodeScalar tweak;
  let t := t mod curve_n in
  A ← decodePoint key;
  P ← point_mul A t;
  point_encode P.

(** [publicKeyAdd(key1, key2)]. *)
Definition publicKeyAdd (key1 key2 : list Z) : result (list Z) :=
  A1 ← decodePoint key1;
  A2 ← decodePoint key2;
  P ← point_add A1 A2;
  point_encode P.

(** [publicKeyNegate(key)]. *)
Definition publicKeyNegate (key : list Z) : result (list Z) :=
  A ← decodePoint key;
  P ← point_neg A;
  point_encode P.

(** [signTweakAdd(msg, secret, tweak, ph, ctx)]. *)
Definition signTweakAdd (rng : rng_state) (msg secret tweak : list Z)
    (ph : option bool) (ctx : option (list Z))
    : result (list Z * rng_state) :=
  hash ← hashKey secret;
  '(key_, nonce_) ← splitHash hash;
  key ← scalarTweakAdd key_ tweak;
  expanded ← hash_multi nonce_ tweak None (size * 2);
  let nonce := slice expanded 0 size in
  signWithScalar rng msg key nonce ph ctx.

(** [signTweakMul(msg, secret, tweak, ph, ctx)]. *)
Definition signTweakMul (rng : rng_state) (msg secret tweak : list Z)
    (ph : option bool) (ctx : option (list Z))
    : result (list Z * rng_state) :=
  hash ← hashKey secret;
  '(key_, nonce_) ← splitHash hash;
  key ← scalarTweakMul key_ tweak;
  expanded ← hash_multi nonce_ tweak None (size * 2);
  let nonce := slice expanded 0 size in
  signWithScalar rng msg key nonce ph ctx.

(** [deriveWithScalar(pub, scalar)]. *)
Definition deriveWithScalar (rng : rng_state) (pub scalar : list Z)
    : result (list Z * rng_state) :=
  s ← decodeScalar scalar;
  let s := s mod curve_n in
  A ← decodePoint pub;
  '(P, rng) ← point_mulBlindRng rng A s;
  b ← point_encode P;
  Ok (b, rng).

(** [derive(pub, secret)]. *)
Definition derive (rng : rng_state) (pub secret : list Z)
    : result (list Z * rng_state) :=
  priv ← privateKeyConvert secret;
  deriveWithScalar rng pub priv.

End WithCurve.
End EDDSA.

(** ** lib/js/schnorr.js *)

Module Schnorr.
Section WithCurve.
Context {C : Curve} {H : Hash} {R : Rng}.

(** [hashInt(...items)]. *)
Definition hashInt (items : list (list Z)) : result Z :=
  h ← hash_init;
  h ← EDDSA.update_all h items;
  hash ← hash_final h None;
  num ← BN_decode hash;
  Ok (num mod curve_n).

(** The signature scalar of [sign], computed on operands blinded by [b]:
    [ea = e.imul(b).iumod(N).imul(a).iumod(N)] and
    [S = k.imul(b).iumod(N).iadd(ea).iumod(N).imul(bi).iumod(N)]. *)
Definition blinded_S (N k e a b : Z) : Z :=
  let bi := finvm b N in
  let ea := (((e * b) mod N) * a) mod N in
  (((((k * b) mod N) + ea) mod N) * bi) mod N.

(** [sign(msg, key)]. *)
Definition sign (rng : rng_state) (msg key : list Z)
    : result (list Z * rng_state) :=
  _ ← assert (bool_decide (blen msg = hash_size));
  _ ← assert (bool_decide (blen key = curve_size));
  let N := curve_n in
  let P := curve_p in
  let G := curve_g in
  k ← hashInt [key; msg];
  if bool_decide (k = 0) then Throw "Signing failed (k' = 0)."
  else
    Rp ← point_mulBlind G k;
    y ← point_getY Rp;
    j ← BN_jacobi y P;
    let k := if bool_decide (j <> 1) then N - k else k in
    a ← decodeScalar key;
    if bool_decide (a = 0) || bool_decide (a >= N)
    then Throw "Invalid private key."
    else
      A ← point_mulBlind G a;
      Araw ← point_encode A;
      x ← point_getX Rp;
      Rraw ← encodeInt x;
      e ← hashInt [Rraw; Araw; msg];
      '(b, rng) ← BN_random rng 1 N;
      let S := blinded_S N k e a b in
      Sraw ← encodeScalar S;
      Ok (Rraw ++ Sraw, rng).

(** [_verify(msg, sig, key)]. *)
Definition _verify (msg sig key : list Z) : result bool :=
  if bool_decide (blen msg <> hash_size) then Ok false
  else if bool_decide (blen sig <> curve_size * 2) then Ok false
  else
    let N := curve_n in
    let P := curve_p in
    let G := curve_g in
    A ← decodePoint key;
    let Rraw := slice sig 0 curve_size in
    let Sraw := slice_from sig curve_size in
    Rx ← decodeInt Rraw;
    S ← decodeScalar Sraw;
    if bool_decide (Rx >= P) || bool_decide (S >= N) then Ok false
    else
      Araw ← point_encode A;
      e ← hashInt [Rraw; Araw; msg];
      L ← point_mul G S;
      T ← point_mul A (N - e);
      Rp ← point_add L T;
      infinite ← point_isInfinity Rp;
      if (infinite : bool) then Ok false
      else
        y ← point_getY Rp;
        j ← BN_jacobi y P;
        if bool_decide (j <> 1) then Ok false
        else
          x ← point_getX Rp;
          if negb (bool_decide (x = Rx)) then Ok false
          else Ok true.

(** [verify(msg, sig, key)]. *)
Definition verify (msg sig key : list Z) : result bool :=
  try_or_false (_verify msg sig key).

(** The loop of [_batchVerify] and the comparison after it.  [acc] is
    [None] while [lhs] and [rhs] are [null].  The reduction context is
    arithmetic modulo [curve_p]. *)
Fixpoint _batchVerify_loop (rng : rng_state)
    (batch : list (list Z * list Z * list Z))
    (acc : option (Z * point)) : result bool :=
  let N := curve_n in
  let P := curve_p in
  let G := curve_g in
  let B := curve_b in
  match batch with
  | [] =>
      match acc with
      | None => Ok true
      | Some (lhs, rhs) =>
          L ← point_mul G lhs;
          point_eq L rhs
      end
  | (msg, sig, key) :: rest =>
      A ← decodePoint key;
      let Rraw := slice sig 0 curve_size in
      let Sraw := slice_from sig curve_size in
      Rx ← decodeInt Rraw;
      S ← decodeScalar Sraw;
      if bool_decide (Rx >= P) || bool_decide (S >= N) then Ok false
      else
        Araw ← point_encode A;
        e ← hashInt [Rraw; Araw; msg];
        let r := Rx mod P in
        let ra := (r * curve_a) mod P in
        let c := (((((r * r) mod P) * r) mod P + ra) mod P + B) mod P in
        y ← BN_redSqrt c;
        if negb (bool_decide (c = (y * y) mod P)) then Ok false
        else
          Rp ← curve_point r y;
          match acc with
          | None =>
              Ae ← point_mul A e;
              rhs ← point_add Rp Ae;
              _batchVerify_loop rng rest (Some (S, rhs))
          | Some (lhs, rhs) =>
              '(a, rng) ← BN_random rng 1 N;
              let ae := (a * e) mod N in
              let lhs := (lhs + a * S) mod N in
              T ← point_mulAdd Rp a A ae;
              rhs ← point_add rhs T;
              _batchVerify_loop rng rest (Some (lhs, rhs))
          end
  end.

(** [_batchVerify(batch)]. *)
Definition _batchVerify (rng : rng_state)
    (batch : list (list Z * list Z * list Z)) : result bool :=
  _batchVerify_loop rng batch None.

(** The first loop of [batchVerify]. *)
Fixpoint lengths_ok (batch : list (list Z * list Z * list Z)) : bool :=
  match batch with
  | [] => true
  | (msg, sig, key) :: rest =>
      if bool_decide (blen msg <> hash_size) then false
      else if bool_decide (blen sig <> curve_size * 2) then false
      else lengths_ok rest
  end.

(** [batchVerify(batch)]. *)
Definition batchVerify (rng : rng_state)
    (batch : list (list Z * list Z * list Z)) : result bool :=
  if negb (lengths_ok batch) then Ok false
  else try_or_false (_batchVerify rng batch).

(** The signing of the specification, without blinding:
    [S := (k + e * a) mod n]. *)
Definition sign_unblinded (rng : rng_state) (msg key : list Z)
    : result (list Z * rng_state) :=
  _ ← assert (bool_decide (blen msg = hash_size));
  _ ← assert (bool_decide (blen key = curve_size));
  k ← hashInt [key; msg];
  if bool_decide (k = 0) then Throw "Signing failed (k' = 0)."
  else
    Rp ← point_mulBlind curve_g k;
    y ← point_getY Rp;
    j ← BN_jacobi y curve_p;
    let k := if bool_decide (j <> 1) then curve_n - k else k in
    a ← decodeScalar key;
    if bool_decide (a = 0) || bool_decide (a >= curve_n)
    then Throw "Invalid private key."
    else
      A ← point_mulBlind curve_g a;
      Araw ← point_encode A;
      x ← point_getX Rp;
      Rraw ← encodeInt x;
      e ← hashInt [Rraw; Araw; msg];
      '(_, rng) ← BN_random rng 1 curve_n;
      Sraw ← encodeScalar ((k + e * a) mod curve_n);
      Ok (Rraw ++ Sraw, rng).

End WithCurve.
End Schnorr.

(** ** The BLAKE2s front end

    The class that picks between the hash of the Node.js [crypto] module and
    the JavaScript back end.  Both back ends are outside the file: their
    objects are opaque states, and every operation returns the state it
    leaves behind besides its result. *)

Module Blake2s.

Class Backends := {
  node_hash : Type;
  js_hash : Type;
  (** [hashes.indexOf('blake2s' + bits) !== -1], by size in bytes *)
  node_provides : Z -> bool;
  (** [crypto.createHash(names[size])] *)
  createHash : Z -> result node_hash;
  node_update : node_hash -> list Z -> node_hash * result unit;
  node_digest : node_hash -> node_hash * result (list Z);
  (** [new Backend()] and its methods *)
  Backend_new : js_hash;
  Backend_init : js_hash -> Z -> option (list Z) -> js_hash * result unit;
  Backend_update : js_hash -> list Z -> js_hash * result unit;
  Backend_final : js_hash -> js_hash * result (list Z)
}.

Section WithBackends.
Context {B : Backends}.

(** [typeof names[size] === 'string']: the table has the sizes 16, 20, 28
    and 32, each with a name when the [crypto] module lists the hash. *)
Definition names (size : Z) : bool :=
  if decide (size = 16 \/ size = 20 \/ size = 28 \/ size = 32)
  then node_provides size
  else false.

(** Fields of a [Blake2s] object. *)
Record Blake2s := mkBlake2s {
  node : option node_hash;
  js : option js_hash
}.

(** [new Blake2s()]. *)
Definition new : Blake2s := {| node := None; js := None |}.

(** [init(size = 32, key = null)]; an argument left out is [None]. *)
Definition init (s : Blake2s) (size : option Z) (key : option (list Z))
    : Blake2s * result unit :=
  let size := default 32 size in
  if negb (bool_decide (0 <= size < 2 ^ 32))
  then (s, Throw "Assertion failed.")
  else
    let key :=
      match key with
      | Some k => if bool_decide (blen k = 0) then None else Some k
      | None => None
      end in
    if bool_decide (key = None) && names size then
      match createHash size with
      | Throw e => (s, Throw e)
      | Ok h => ({| node := Some h; js := None |}, Ok tt)
      end
    else
      let '(b, r) := Backend_init Backend_new size key in
      ({| node := None; js := Some b |}, r).

(** [update(data)]. *)
Definition update (s : Blake2s) (data : list Z) : Blake2s * result unit :=
  match node s with
  | Some h =>
      let '(h, r) := node_update h data in
      ({| node := Some h; js := js s |}, r)
  | None =>
      match js s with
      | None => (s, Throw "Assertion failed.")
      | Some b =>
          let '(b, r) := Backend_update b data in
          ({| node := None; js := Some b |}, r)
      end
  end.

(** [final()]. *)
Definition final (s : Blake2s) : Blake2s * result (list Z) :=
  match node s with
  | Some h =>
      match node_digest h with
      | (h, Throw e) => ({| node := Some h; js := js s |}, Throw e)
      | (_, Ok ret) => ({| node := None; js := js s |}, Ok ret)
      end
  | None =>
      match js s with
      | None => (s, Throw "Assertion failed.")
      | Some b =>
          match Backend_final b with
          | (b, Throw e) => ({| node := None; js := Some b |}, Throw e)
          | (_, Ok ret) => ({| node := None; js := None |}, Ok ret)
          end
      end
  end.

(** [update] on the shared context, then [k]. *)
Definition then_update {A : Type} (ctx : Blake2s) (data : list Z)
    (k : Blake2s -> Blake2s * result A) : Blake2s * result A :=
  match update ctx data with
  | (ctx, Throw e) => (ctx, Throw e)
  | (ctx, Ok _) => k ctx
  end.

(** [Blake2s.digest(data, size = 32, key = null)], on the shared context
    [Blake2s.ctx]. *)
Definition digest (ctx : Blake2s) (data : list Z) (size : option Z)
    (key : option (list Z)) : Blake2s * result (list Z) :=
  let size := default 32 size in
  match init ctx (Some size) key with
  | (ctx, Throw e) => (ctx, Throw e)
  | (ctx, Ok _) => then_update ctx data final
  end.

(** [Blake2s.root(left, right, size = 32)]. *)
Definition root (ctx : Blake2s) (left right : list Z) (size : option Z)
    : Blake2s * result (list Z) :=
  let size := default 32 size in
  if negb (bool_decide (blen left = size))
  then (ctx, Throw "Assertion failed.")
  else if negb (bool_decide (blen right = size))
  then (ctx, Throw "Assertion failed.")
  else
    match init ctx (Some size) None with
    | (ctx, Throw e) => (ctx, Throw e)
    | (ctx, Ok _) =>
        then_update ctx left (fun ctx => then_update ctx right final)
    end.

(** [Blake2s.multi(one, two, three, size = 32)]; [three] may be
    [null]. *)
Definition multi (ctx : Blake2s) (one two : list Z)
    (three : option (list Z)) (size : option Z)
    : Blake2s * result (list Z) :=
  let size := default 32 size in
  match init ctx (Some size) None with
  | (ctx, Throw e) => (ctx, Throw e)
  | (ctx, Ok _) =>
      then_update ctx one (fun ctx =>
        then_update ctx two (fun ctx =>
          match three with
          | Some t => then_update ctx t final
          | None => final ctx
          end))
  end.

End WithBackends.
End Blake2s.

(** ** What signing and verifying assume of the interfaces

    The hash, the decoding of its output and the random source return; the
    hash of a seed splits into a scalar that decodes and a nonce of [size]
    bytes; multiples of the base point exist, encode to [size] bytes and
    decode back; the base point has order [n], a prime; multiplication and
    addition agree on its multiples; integers below [n] encode to [size]
    bytes and decode back. *)
Record eddsa_facade_ok {C : Curve} {H : Hash} {R : Rng} : Prop := {
  ok_n_prime : Z.prime curve_n;
  ok_digest : forall data len, exists d, hash_digest data len = Ok d;
  ok_splitHash : forall data d,
    hash_digest data (curve_size * 2) = Ok d ->
    exists key nonce a,
      splitHash d = Ok (key, nonce) /\ blen nonce = curve_size /\
      decodeScalar key = Ok a;
  ok_hash_init : exists h, hash_init = Ok h;
  ok_hash_update : forall h b, exists h', hash_update h b = Ok h';
  ok_hash_final : forall h len, exists d, hash_final h len = Ok d;
  ok_BN_decode : forall d, exists v, BN_decode d = Ok v;
  ok_random : forall s lo hi,
    lo < hi -> exists v s', BN_random s lo hi = Ok (v, s') /\ lo <= v < hi;
  ok_mul_g : forall k,
    exists P b,
      point_mul curve_g k = Ok P /\ point_encode P = Ok b /\
      blen b = curve_size /\ decodePoint b = Ok P;
  ok_mulBlind : forall k, point_mulBlind curve_g k = point_mul curve_g k;
  ok_mul_mod : forall k,
    point_mul curve_g (k mod curve_n) = point_mul curve_g k;
  ok_mul_mul : forall a A h,
    point_mul curve_g a = Ok A ->
    point_mul A h = point_mul curve_g (a * h);
  ok_add : forall x y X Y,
    point_mul curve_g x = Ok X -> point_mul curve_g y = Ok Y ->
    point_add X Y = point_mul curve_g (x + y);
  ok_dbl : forall P, exists Q, point_dbl P = Ok Q;
  ok_eq_refl : forall P, point_eq P P = Ok true;
  ok_encodeInt : forall S,
    0 <= S < curve_n ->
    exists b, encodeInt S = Ok b /\ blen b = curve_size /\
              decodeInt b = Ok S
}.

(** A signature of [msg] under the scalar [a] and the key [key], as
    [signWithScalar] builds it: the encoding of [r·G] for some [r], then the
    encoding of [(r + h·a) mod n] for the [h] that [hashInt] gives for that
    encoding, the key and the message; [key] is the encoding of [a·G]. *)
Definition honest {C : Curve} {H : Hash} (a : Z) (msg sig key : list Z)
    (ph : option bool) (ctx : option (list Z)) : Prop :=
  exists r h PA PR Rb Sb,
    sig = Rb ++ Sb /\ blen Rb = curve_size /\ blen Sb = curve_size /\
    point_mul curve_g a = Ok PA /\ decodePoint key = Ok PA /\
    blen key = curve_size /\
    point_mul curve_g r = Ok PR /\ decodePoint Rb = Ok PR /\
    EDDSA.hashInt ph ctx [Rb; key; msg] = Ok h /\
    decodeInt Sb = Ok ((r + h * a) mod curve_n).

(** ** Small instances of the interfaces

    Used to run the code on concrete inputs. *)

Module Toy.

(** A block cipher with four-byte blocks that adds one to every byte. *)
Definition ctx4 : Modes.BlockCtx :=
  {| Modes.blockSize := 4;
     Modes.key_ok := fun _ => true;
     Modes.encrypt_block := fun _ b => map (fun x => (x + 1) mod 256) b;
     Modes.decrypt_block := fun _ b => map (fun x => (x + 255) mod 256) b;
     Modes.heap_junk := fun _ => 170 |}.

(** One-byte decoding of integers, scalars and points. *)
Definition decode1 (b : list Z) : result Z :=
  match b with
  | [x] => Ok x
  | _ => Throw "Invalid length."
  end.

Definition encode1 (x : Z) : result (list Z) :=
  if bool_decide (0 <= x < 256) then Ok [x] else Throw "Out of range.".

(** The additive group of the integers modulo 7, generated by 1. *)
Definition curve7 : Curve :=
  {| point := Z;
     curve_n := 7;
     curve_p := 11;
     curve_a := 0;
     curve_b := 7;
     curve_size := 1;
     curve_scalarLength := 1;
     curve_hc := 2;
     curve_context := false;
     curve_prefix := [83];
     curve_g := 1;
     decodePoint := fun b =>
       x ← decode1 b;
       if bool_decide (0 <= x < 7) then Ok x else Throw "Invalid point.";
     decodeInt := decode1;
     decodeScalar := decode1;
     encodeInt := encode1;
     encodeScalar := encode1;
     splitHash := fun h =>
       match h with
       | [x; y] => Ok ([Z.land x 248], [y])
       | _ => Throw "Invalid hash."
       end;
     isClamped := fun b =>
       match b with
       | [x] => bool_decide (Z.land x 7 = 0)
       | _ => false
       end;
     curve_point := fun x y => Ok ((x + y) mod 7);
     point_encode := fun P => Ok [P];
     point_mul := fun P k => Ok ((P * k) mod 7);
     point_mulBlind := fun P k => Ok ((P * k) mod 7);
     point_mulAdd := fun P k Q l => Ok ((P * k + Q * l) mod 7);
     point_add := fun P Q => Ok ((P + Q) mod 7);
     point_dbl := fun P => Ok ((P + P) mod 7);
     point_eq := fun P Q => Ok (bool_decide (P = Q));
     point_getX := fun P => Ok P;
     point_getY := fun P => Ok P;
     point_isInfinity := fun P => Ok (bool_decide (P = 0));
     BN_decode := fun b => Ok (foldr (fun x acc => x + 256 * acc) 0 b);
     BN_jacobi := fun x m => Ok 1;
     BN_redSqrt := fun x => Ok x |}.

(** The integers modulo 7 again, with coordinates that tell a point from
    its opposite: [x] is the same for both, [y] is a square modulo 7 for
    exactly one of the two. *)
Definition curve7s : Curve :=
  {| point := Z;
     curve_n := 7;
     curve_p := 7;
     curve_a := 0;
     curve_b := 7;
     curve_size := 1;
     curve_scalarLength := 1;
     curve_hc := 0;
     curve_context := false;
     curve_prefix := [83];
     curve_g := 1;
     decodePoint := fun b =>
       x ← decode1 b;
       if bool_decide (0 <= x < 7) then Ok x else Throw "Invalid point.";
     decodeInt := decode1;
     decodeScalar := decode1;
     encodeInt := encode1;
     encodeScalar := encode1;
     splitHash := fun h =>
       match h with
       | [x; y] => Ok ([Z.land x 248], [y])
       | _ => Throw "Invalid hash."
       end;
     isClamped := fun b =>
       match b with
       | [x] => bool_decide (Z.land x 7 = 0)
       | _ => false
       end;
     curve_point := fun x y => Ok y;
     point_encode := fun P => Ok [P];
     point_mul := fun P k => Ok ((P * k) mod 7);
     point_mulBlind := fun P k => Ok ((P * k) mod 7);
     point_mulAdd := fun P k Q l => Ok ((P * k + Q * l) mod 7);
     point_add := fun P Q => Ok ((P + Q) mod 7);
     point_dbl := fun P => Ok ((P + P) mod 7);
     point_eq := fun P Q => Ok (bool_decide (P = Q));
     point_getX := fun P => Ok (Z.min P (7 - P));
     point_getY := fun P => Ok P;
     point_isInfinity := fun P => Ok (bool_decide (P = 0));
     BN_decode := fun b => Ok (foldr (fun x acc => x + 256 * acc) 0 b);
     BN_jacobi := fun y m =>
       Ok (if bool_decide (y mod 7 = 1 \/ y mod 7 = 2 \/ y mod 7 = 4)
           then 1 else -1);
     BN_redSqrt := fun x => Ok x |}.

(** A hash that adds up the bytes it is fed. *)
Definition digest_sum (data : list Z) (len : Z) : list Z :=
  map (fun i => (foldr Z.add 0 data + i) mod 256) (seqZ 0 len).

Definition hash_sum : Hash :=
  {| hash_state := list Z;
     hash_size := 1;
     hash_init := Ok [];
     hash_update := fun h b => Ok (h ++ b);
     hash_final := fun h len => Ok (digest_sum h (default 1 len));
     hash_digest := fun data len => Ok (digest_sum data len) |}.

(** A random source that counts. *)
Definition rng_counter : Rng :=
  {| rng_state := Z;
     BN_random := fun s lo hi =>
       if bool_decide (lo < hi) then Ok (lo + s mod (hi - lo), s + 1)
       else Throw "Empty range." |}.

(** Clamping in place: clears the three low bits of the first byte and
    returns the buffer it was given. *)
Definition clamp_low3 : Clamp :=
  {| clamp := fun st a =>
       match st !! a with
       | Some (x :: r) => (<[a := Z.land x 248 :: r]> st, Ok a)
       | _ => (st, Throw "Assertion failed.")
       end |}.

(** The rest of the curve and big-integer interfaces on the integers
    modulo 7, and a [multi] for the hash that adds up. *)
Definition ops7 : @CurveOps curve7 rng_counter :=
  @Build_CurveOps curve7 rng_counter
    (fun P : Z => Ok ((7 - P) mod 7))
    (fun a n =>
       if bool_decide (a mod n = 0) then Throw "Not invertible."
       else Ok ((a ^ (n - 2)) mod n))
    (fun (s : Z) (P : Z) k => Ok ((P * k) mod 7, s + 1)).

Definition multi_sum : HashMulti :=
  {| hash_multi := fun a b c len =>
       Ok (digest_sum (a ++ b ++ default [] c) len) |}.


End Toy.

(** Lower-casing of the ASCII letters, for comparing names without regard to
    case. *)
Definition lower_ascii (a : ascii) : ascii :=
  let n := N_of_ascii a in
  if ((65 <=? n) && (n <=? 90))%N then ascii_of_N (n + 32) else a.

Fixpoint to_lower (s : string) : string :=
  match s with
  | EmptyString => EmptyString
  | String a r => String (lower_ascii a) (to_lower r)
  end.

(** The class a lower-case mode name stands for. *)
Definition class_named (lower : string) (encrypt : bool)
    : option Modes.klass :=
  if decide (lower = "ecb")
  then Some (if encrypt then Modes.ECBCipher else Modes.ECBDecipher)
  else if decide (lower = "cbc")
  then Some (if encrypt then Modes.CBCCipher else Modes.CBCDecipher)
  else if decide (lower = "ctr")
  then Some (if encrypt then Modes.CTRCipher else Modes.CTRDecipher)
  else if decide (lower = "cfb")
  then Some (if encrypt then Modes.CFBCipher else Modes.CFBDecipher)
  else if decide (lower = "ofb")
  then Some (if encrypt then Modes.OFBCipher else Modes.OFBDecipher)
  else None.

(** The spellings [get] has a [case] label for. *)
Definition labelled_names : list string :=
  ["ecb"; "ECB"; "cbc"; "CBC"; "ctr"; "CTR"; "cfb"; "CFB"; "ofb"; "OFB"].

(** * Properties *)

Ltac unfold_bind := unfold mbind, result_bind in *.

(** Rewrites with the equation of a call that returns and moves on to what
    follows it. *)
Ltac step H := rewrite H; cbv beta iota zeta.

(** ** Mode lookup *)

Section GetFacts.
Import Modes.

Lemma get_labelled (name : string) (enc : bool) :
  name ∈ labelled_names ->
  get name enc = from_option Ok (Throw "") (class_named (to_lower name) enc).
Proof.
  unfold labelled_names. rewrite !elem_of_cons, elem_of_nil.
  intros Hn. destruct enc;
    repeat (destruct Hn as [-> | Hn]; [reflexivity |]); destruct Hn.
Qed.

Lemma get_unlabelled (name : string) (enc : bool) :
  name ∉ labelled_names -> get name enc = Throw ("Unknown mode: " ++ name ++ ".").
Proof.
  unfold labelled_names. rewrite !not_elem_of_cons. intros Hn.
  unfold get. repeat (case_decide; [exfalso; tauto |]). reflexivity.
Qed.

(** C9, as amended: [get] returns the cipher class ([encrypt] true) or the
    decipher class ([encrypt] false) of the mode for exactly the ten
    spellings that are all lower case or all upper case, and throws for
    every other string. *)
Theorem get_resolves_labelled_names (name : string) (enc : bool) :
  (name ∈ labelled_names ->
     exists k, class_named (to_lower name) enc = Some k /\
               get name enc = Ok k) /\
  (name ∉ labelled_names ->
     get name enc = Throw ("Unknown mode: " ++ name ++ ".")).
Proof.
  split.
  - intros Hn. rewrite (get_labelled _ _ Hn).
    unfold labelled_names in Hn.
    rewrite !elem_of_cons, elem_of_nil in Hn.
    destruct enc;
      repeat (destruct Hn as [-> | Hn]; [eexists; split; reflexivity |]);
      destruct Hn.
  - apply get_unlabelled.
Qed.

(** C9, as stated, fails: "Ecb" equals "ecb" when case is ignored, and
    [get] throws on it. *)
Lemma get_mixed_case_throws :
  to_lower "Ecb" = "ecb" /\
  class_named (to_lower "Ecb") true = Some ECBCipher /\
  get "Ecb" true = Throw "Unknown mode: Ecb.".
Proof. repeat split. Qed.

End GetFacts.

(** [get_resolves_labelled_names] on a spelling with a label and on one
    without. *)
Lemma get_resolves_labelled_names_witness :
  (exists k, class_named (to_lower "CBC") false = Some k /\
             Modes.get "CBC" false = Ok k) /\
  Modes.get "Cbc" false = Throw "Unknown mode: Cbc.".
Proof.
  split.
  - apply (proj1 (get_resolves_labelled_names "CBC" false)).
    unfold labelled_names. set_solver.
  - apply (proj2 (get_resolves_labelled_names "Cbc" false)).
    unfold labelled_names. rewrite !not_elem_of_cons.
    repeat split; try discriminate. apply not_elem_of_nil.
Defined.

(** ** Lifecycle of a mode object *)

Section Lifecycle.
Import Modes.
Context {BC : BlockCtx}.

Lemma _update_block (c c' : Cipher) input ipos output opos out' :
  _update c input ipos output opos = Ok (c', out') -> block c' = block c.
Proof.
  unfold _update, mbind, result_bind. intros Heq.
  repeat match type of Heq with
  | context [match ?x with _ => _ end] => destruct x eqn:?; simpl in Heq
  end; inversion Heq; reflexivity.
Qed.

Lemma _final_block (c : Cipher) : block (_final c).1 = block c.
Proof.
  unfold _final. destruct (family_of (cls c)).
  - destruct (_update _ _ _ _ _) as [[c' b]|] eqn:Hu; [|reflexivity].
    simpl. eapply _update_block; eassumption.
  - repeat case_decide; try reflexivity.
    destruct (check_padding _ _ _ _); reflexivity.
  - destruct (ctx_encrypt _ _ _ _ _); reflexivity.
  - destruct (ctx_encrypt _ _ _ _ _); reflexivity.
  - destruct (ctx_encrypt _ _ _ _ _); reflexivity.
Qed.

Lemma fill_all_zero (b : list Z) : fill_all b 0 = replicate (length b) 0.
Proof.
  unfold fill_all, fill, blen.
  apply list_eq. intros i. rewrite list_lookup_imap.
  destruct (decide (i < length b)%nat) as [Hi | Hi].
  - rewrite lookup_replicate_2 by assumption.
    destruct (lookup_lt_is_Some_2 b i Hi) as [x Hx]. rewrite Hx. simpl.
    rewrite decide_True by lia. reflexivity.
  - assert (replicate (length b) 0 !! i = None) as ->
      by (apply lookup_replicate_None; lia).
    rewrite (lookup_ge_None_2 b i) by lia. reflexivity.
Qed.

(** C7, as amended: while [bpos] is -1 every [update] and [final] throws
    and leaves the object as it is; and after every [final] on an object
    whose [bpos] is not -1, whatever it returns or throws, the cipher context
    is destroyed, the block buffer is all zero and [bpos] is -1. *)
Theorem lifecycle (c : Cipher) (input : list Z) :
  (bpos c = -1 ->
     update c input = (c, Throw "Cipher not initialized.") /\
     final c = (c, Throw "Cipher not initialized.")) /\
  (bpos c <> -1 ->
     ctx (final c).1 = CtxDestroyed /\
     block (final c).1 = replicate (length (block c)) 0 /\
     bpos (final c).1 = -1).
Proof.
  split.
  - intros Hb. unfold update, final. rewrite !decide_True by assumption.
    split; reflexivity.
  - intros Hb. unfold final. rewrite decide_False by assumption.
    pose proof (_final_block c) as Hblk.
    destruct (_final c) as [c' r]. simpl in *.
    rewrite fill_all_zero, Hblk. repeat split.
Qed.

End Lifecycle.

(** [lifecycle] on a new ECB cipher and on the same cipher once
    initialised. *)
Lemma lifecycle_witness :
  let c := @Modes.new Toy.ctx4 Modes.ECBCipher in
  let c' := (@Modes.init Toy.ctx4 c [1] None).1 in
  (@Modes.update Toy.ctx4 c [1; 2] = (c, Throw "Cipher not initialized.") /\
   @Modes.final Toy.ctx4 c = (c, Throw "Cipher not initialized.")) /\
  (Modes.ctx (@Modes.final Toy.ctx4 c').1 = Modes.CtxDestroyed /\
   Modes.block (@Modes.final Toy.ctx4 c').1
     = replicate (length (Modes.block c')) 0 /\
   Modes.bpos (@Modes.final Toy.ctx4 c').1 = -1).
Proof.
  intros c c'. split.
  - apply (proj1 (@lifecycle Toy.ctx4 c [1; 2])). reflexivity.
  - apply (proj2 (@lifecycle Toy.ctx4 c' [])). vm_compute. discriminate.
Defined.

(** C7, as stated, fails on a new object: [final] throws at its guard, the
    block buffer keeps what [allocUnsafe] left in it and the context is not
    destroyed. *)
Lemma final_on_new_object :
  let c := @Modes.new Toy.ctx4 Modes.ECBCipher in
  Modes.bpos c = -1 /\
  (@Modes.final Toy.ctx4 c).2 = Throw "Cipher not initialized." /\
  Modes.block (@Modes.final Toy.ctx4 c).1 = [170; 170; 170; 170] /\
  Modes.ctx (@Modes.final Toy.ctx4 c).1 = Modes.CtxNew.
Proof. repeat split. Qed.

(** A [final] whose padding check fails still cleans up. *)
Lemma final_bad_padding_cleans_up :
  let r := @Modes.run Toy.ctx4 Modes.ECBDecipher [1] None [[2; 3; 4; 5]] in
  r.1.2 = Throw "Bad decrypt (padding)." /\
  Modes.ctx r.2 = Modes.CtxDestroyed /\
  Modes.block r.2 = [0; 0; 0; 0] /\
  Modes.bpos r.2 = -1.
Proof. vm_compute. repeat split. Qed.

(** ** Output of the mode objects on concrete runs *)

(** C6 at a failing input: a CTR cipher with four-byte blocks fed two bytes
    and then four returns ten bytes for six; four of them are what
    [allocUnsafe] left in the output. *)
Lemma ctr_two_updates_emits_ten_bytes :
  let r := @Modes.run Toy.ctx4 Modes.CTRCipher [1] (Some [0; 0; 0; 255])
                    [[1; 2]; [3; 4; 5; 6]] in
  r.1 = ([Ok []; Ok [0; 3; 2; 4; 170; 170; 170; 170]], Ok [4; 7]) /\
  blen (Modes.emitted r.1) = 10 /\
  blen ([1; 2] ++ [3; 4; 5; 6]) = 6.
Proof. vm_compute. repeat split. Qed.

(** The same slip in an ECB cipher: twelve bytes for six, where the padded
    length is eight. *)
Lemma ecb_two_updates_emits_twelve_bytes :
  let r := @Modes.run Toy.ctx4 Modes.ECBCipher [1] None
                    [[1; 2]; [3; 4; 5; 6]] in
  blen (Modes.emitted r.1) = 12.
Proof. vm_compute. reflexivity. Qed.

(** C2 at a failing input: the eight bytes an ECB cipher produces for
    [1; 2; 3; 4], fed to the decipher one block per [update], come back as
    no bytes at all: the second [update] overwrites the block the first one
    held back. *)
Lemma ecb_decipher_two_updates_loses_block :
  let enc := @Modes.run Toy.ctx4 Modes.ECBCipher [1] None [[1; 2; 3; 4]] in
  let dec := @Modes.run Toy.ctx4 Modes.ECBDecipher [1] None
                      [[2; 3; 4; 5]; [5; 5; 5; 5]] in
  Modes.emitted enc.1 = [2; 3; 4; 5] ++ [5; 5; 5; 5] /\
  dec.1 = ([Ok []; Ok []], Ok []) /\
  Modes.emitted dec.1 = [] /\
  Modes.emitted dec.1 <> [1; 2; 3; 4].
Proof. vm_compute. repeat split. discriminate. Qed.

(** ** Lengths of what the mode objects return *)

Lemma blen_nonneg (b : list Z) : 0 <= blen b.
Proof. unfold blen. lia. Qed.

Lemma blen_bset (b : list Z) (i v : Z) : blen (bset b i v) = blen b.
Proof.
  unfold bset, blen. case_decide; [|reflexivity].
  rewrite length_insert. reflexivity.
Qed.

Lemma for_lt_invariant {S : Type} (P : S -> Prop) (n : Z)
    (body : Z -> S -> S) (init : S) :
  (forall i s, 0 <= i < n -> P s -> P (body i s)) ->
  P init -> P (for_lt n body init).
Proof.
  unfold for_lt. intros Hbody.
  assert (forall l, (forall i, i ∈ l -> 0 <= i < n) ->
            forall s, P s -> P (foldl (fun s i => body i s) s l)) as Hgen.
  { induction l as [|i l IH]; intros Hl s Hs; simpl; [assumption|].
    apply IH.
    - intros j Hj. apply Hl. right. assumption.
    - apply Hbody; [|assumption]. apply Hl. left. }
  apply Hgen. intros i Hi. apply elem_of_seqZ in Hi. lia.
Qed.

Lemma blen_blit (src dst : list Z) (p : nat) : blen (blit src dst p) = blen dst.
Proof.
  revert dst p. induction src as [|x r IH]; intros dst p; simpl;
    [reflexivity|].
  rewrite IH. unfold blen. rewrite length_insert. reflexivity.
Qed.

Lemma blen_copy (src target : list Z) (t s e : Z) :
  blen (copy src target t s e) = blen target.
Proof. apply blen_blit. Qed.

Section Lengths.
Import Modes.
Context {BC : BlockCtx}.

Lemma blen_allocUnsafe (n : Z) : blen (allocUnsafe n) = Z.max n 0.
Proof.
  unfold allocUnsafe, blen. rewrite length_fmap, length_seqZ. lia.
Qed.

Lemma blen_xor_into c input ipos other k output opos :
  blen (xor_into c input ipos other k output opos) = blen output.
Proof.
  unfold xor_into.
  apply (for_lt_invariant (fun out => blen out = blen output));
    [|reflexivity].
  intros i s _ Hs. rewrite blen_bset. assumption.
Qed.

Lemma ctx_encrypt_ready key input ipos output opos :
  exists out, ctx_encrypt (CtxReady key) input ipos output opos = Ok out /\
              blen out = blen output.
Proof. eexists. split; [reflexivity|]. apply blen_copy. Qed.

Lemma ctx_decrypt_ready key input ipos output opos :
  exists out, ctx_decrypt (CtxReady key) input ipos output opos = Ok out /\
              blen out = blen output.
Proof. eexists. split; [reflexivity|]. apply blen_copy. Qed.

Lemma same_frame_refl c : same_frame c c.
Proof. unfold same_frame. tauto. Qed.

Lemma same_frame_trans c1 c2 c3 :
  same_frame c1 c2 -> same_frame c2 c3 -> same_frame c1 c3.
Proof. unfold same_frame. intuition congruence. Qed.

(** With a keyed context [_update] returns, and the output keeps its
    length. *)
Lemma _update_ready c input ipos output opos key :
  ctx c = CtxReady key ->
  exists c' out,
    _update c input ipos output opos = Ok (c', out) /\
    blen out = blen output /\ same_frame c c'.
Proof.
  intros Hctx. unfold _update. rewrite Hctx.
  destruct (family_of (cls c)), (chain c) eqn:Hchain,
    (encrypt c) eqn:Henc; simpl; rewrite ?Henc;
    do 2 eexists; (split; [reflexivity|]);
    (split;
      [ rewrite ?blen_xor_into, ?blen_copy, ?blen_xor_into; reflexivity
      | unfold same_frame; simpl; rewrite ?Henc; tauto ]).
Qed.

(** The loop of [update] runs to the end: it consumes the whole blocks of
    what is left of the input. *)
Lemma update_loop_ready fuel bs c input ipos output opos ilen key :
  0 < bs -> 0 <= ilen -> (Z.to_nat ilen <= fuel)%nat ->
  ctx c = CtxReady key ->
  exists c' out,
    update_loop fuel bs c input ipos output opos ilen =
      (c', Ok (out, ipos + ilen / bs * bs, ilen mod bs)) /\
    blen out = blen output /\ same_frame c c'.
Proof.
  intros Hbs. revert c ipos output opos ilen.
  induction fuel as [|fuel IH]; intros c ipos output opos ilen Hi Hf Hctx.
  - assert (ilen = 0) as -> by lia. simpl.
    rewrite decide_False by lia.
    rewrite Z.div_0_l, Z.mod_0_l by lia.
    exists c, output. rewrite Z.add_0_r.
    split; [reflexivity|]. split; [reflexivity|]. apply same_frame_refl.
  - simpl. case_decide as Hge.
    + destruct (_update_ready c (InBuf input) ipos output opos key Hctx)
        as (c1 & out1 & -> & Hlen1 & Hfr1).
      destruct (IH c1 (ipos + bs) out1 (opos + bs) (ilen - bs))
        as (c2 & out2 & -> & Hlen2 & Hfr2); [lia | lia | |].
      { destruct Hfr1 as (_ & -> & _). assumption. }
      exists c2, out2.
      assert (ilen / bs = (ilen - bs) / bs + 1) as Hq.
      { replace ilen with ((ilen - bs) + 1 * bs) at 1 by ring.
        rewrite Z.div_add by lia. reflexivity. }
      assert (ilen mod bs = (ilen - bs) mod bs) as Hm.
      { replace ilen with ((ilen - bs) + 1 * bs) at 1 by ring.
        rewrite Z.mod_add by lia. reflexivity. }
      rewrite Hq, Hm. split; [f_equal; f_equal; f_equal; f_equal; ring|].
      split; [congruence|]. eapply same_frame_trans; eassumption.
    + exists c, output.
      rewrite Z.div_small, Z.mod_small by lia.
      rewrite Z.add_0_r.
      split; [reflexivity|]. split; [reflexivity|]. apply same_frame_refl.
Qed.

Lemma blen_slice_prefix (b : list Z) (e : Z) :
  blen (slice b 0 e) = if decide (e < 0) then Z.max (blen b + e) 0
                       else Z.min e (blen b).
Proof.
  unfold slice, rel_index, blen.
  repeat case_decide; try lia; rewrite length_take, length_drop; lia.
Qed.

(** [update] on an initialised object returns, the number of bytes it
    returns is [returned_length], and the object stays initialised with
    [bpos] advanced modulo the block size. *)
Theorem update_returns c input bs key :
  ready c bs key ->
  exists c' out,
    update c input = (c', Ok out) /\
    blen out = returned_length (padding c) bs (bpos c) (blen input) /\
    ready c' bs key /\
    bpos c' = (bpos c + blen input) mod bs /\
    cls c' = cls c /\ padding c' = padding c.
Proof.
  intros (Hblk & Hbpos & Hctx).
  pose proof (blen_nonneg input) as Hin.
  unfold update, returned_length. rewrite decide_False by lia.
  rewrite Hblk. rewrite !Z.rem_mod_nonneg by lia.
  set (c0 := set_bpos c ((bpos c + blen input) mod bs)).
  assert (0 <= (bpos c + blen input) mod bs < bs) as Hnew
    by (apply Z.mod_pos_bound; lia).
  assert (0 <= blen input mod bs < bs) as Hrem
    by (apply Z.mod_pos_bound; lia).
  (* the tail of the function, from the allocation on *)
  assert (forall c1 ilen olen ipos,
    ctx c1 = CtxReady key -> blen (block c1) = bs ->
    bpos c1 = (bpos c + blen input) mod bs ->
    cls c1 = cls c -> padding c1 = padding c ->
    0 <= ilen -> 0 <= olen -> olen mod bs = 0 ->
    exists c' out,
      (let output := allocUnsafe olen in
       let opos := 0 in
       let step1 :=
         if decide (ipos <> 0) then
           match _update c1 InBlock 0 output opos with
           | Throw e => (c1, Throw e)
           | Ok (c, output) => (c, Ok (output, opos + bs))
           end
         else (c1, Ok (output, opos)) in
       match step1 with
       | (c, Throw e) => (c, Throw e)
       | (c, Ok (output, opos)) =>
           match update_loop (Z.to_nat ilen) bs c input ipos output opos ilen
           with
           | (c, Throw e) => (c, Throw e)
           | (c, Ok (output, ipos, ilen)) =>
               let c :=
                 if decide (ilen > 0)
                 then set_block c (copy input (block c) 0 ipos (ipos + ilen))
                 else c in
               if negb (padding c) then (c, Ok output)
               else
                 let c := set_last c output in
                 (c, Ok (slice output 0 (olen - bs)))
           end
       end) = (c', Ok out) /\
      blen out = (if padding c then Z.max (olen - bs) 0 else olen) /\
      ready c' bs key /\
      bpos c' = (bpos c + blen input) mod bs /\
      cls c' = cls c /\ padding c' = padding c) as Hrest.
  { intros c1 ilen olen ipos Hc1 Hb1 Hp1 Hcls1 Hpad1 Hil Hol Holm.
    cbv zeta.
    assert (exists c2 out2 opos2,
      (if decide (ipos <> 0) then
         match _update c1 InBlock 0 (allocUnsafe olen) 0 with
         | Throw e => (c1, Throw e)
         | Ok (c, output) => (c, Ok (output, 0 + bs))
         end
       else (c1, Ok (allocUnsafe olen, 0))) = (c2, Ok (out2, opos2)) /\
      blen out2 = olen /\ same_frame c1 c2) as (c2 & out2 & opos2 & -> & Hl2 & Hf2).
    { case_decide.
      - destruct (_update_ready c1 InBlock 0 (allocUnsafe olen) 0 key Hc1)
          as (c2 & out2 & -> & Hl2 & Hf2).
        exists c2, out2, (0 + bs). split; [reflexivity|].
        rewrite Hl2, blen_allocUnsafe. split; [lia | assumption].
      - exists c1, (allocUnsafe olen), 0. split; [reflexivity|].
        rewrite blen_allocUnsafe. split; [lia | apply same_frame_refl]. }
    destruct (update_loop_ready (Z.to_nat ilen) bs c2 input ipos out2 opos2
                ilen key) as (c3 & out3 & -> & Hl3 & Hf3);
      [lia | lia | lia | |].
    { destruct Hf2 as (_ & -> & _). assumption. }
    pose proof (same_frame_trans _ _ _ Hf2 Hf3)
      as (Hcls & Hctx3 & Hpad & Hblk3 & Hbp3 & _).
    set (c4 := if decide (ilen mod bs > 0)
               then set_block c3 (copy input (block c3) 0
                                   (ipos + ilen / bs * bs)
                                   (ipos + ilen / bs * bs + ilen mod bs))
               else c3).
    assert (same_frame c3 c4 \/
            (cls c4 = cls c3 /\ ctx c4 = ctx c3 /\ padding c4 = padding c3 /\
             blen (block c4) = blen (block c3) /\ bpos c4 = bpos c3))
      as Hc4.
    { right. unfold c4. case_decide; simpl; rewrite ?blen_copy; tauto. }
    assert (cls c4 = cls c3 /\ ctx c4 = ctx c3 /\ padding c4 = padding c3 /\
            blen (block c4) = blen (block c3) /\ bpos c4 = bpos c3)
      as (Hcls4 & Hctx4 & Hpad4 & Hblk4 & Hbp4).
    { destruct Hc4 as [Hs | Hs]; [|assumption].
      destruct Hs as (? & ? & ? & Hb & ? & _). rewrite Hb. tauto. }
    assert (blen (block c4) = bs) as Hb by congruence.
    assert (bpos c4 = (bpos c + blen input) mod bs) as Hp by congruence.
    assert (ctx c4 = CtxReady key) as Hk by congruence.
    assert (cls c4 = cls c) as Hc by congruence.
    assert (padding c4 = padding c) as Hpd by congruence.
    rewrite Hpd.
    destruct (padding c) eqn:Hpc; simpl.
    - exists (set_last c4 out3), (slice out3 0 (olen - bs)).
      split; [reflexivity|]. split.
      + rewrite blen_slice_prefix, Hl3, Hl2.
        assert (olen = 0 \/ bs <= olen) as [-> | Hge].
        { apply Z.mod_divide in Holm; [|lia].
          destruct Holm as [q ->].
          assert (q <= 0 \/ 1 <= q) as [Hq | Hq] by lia; [left | right];
            nia. }
        * repeat case_decide; lia.
        * repeat case_decide; lia.
      + unfold ready. simpl. rewrite Hp.
        repeat split; try assumption; lia.
    - exists c4, out3. split; [reflexivity|]. split; [congruence|].
      unfold ready. rewrite Hp. repeat split; try assumption; lia. }
  assert (blen input mod bs <= blen input) as Hle
    by (apply Z.mod_le; lia).
  assert ((blen input - blen input mod bs) mod bs = 0) as Holen.
  { rewrite Zminus_mod_idemp_r, Z.sub_diag. apply Z.mod_0_l. lia. }
  case_decide as Hb0.
  - (* a partly filled block buffer *)
    set (want := if decide (bs - bpos c > blen input)
                 then blen input else bs - bpos c).
    case_decide as Hfull.
    + (* still incomplete *)
      rewrite (decide_True (P := bpos c > 0 /\ bpos c + blen input < bs))
        by (unfold want in Hfull; case_decide; lia).
      eexists _, EMPTY. split; [reflexivity|]. split; [reflexivity|].
      unfold ready. simpl. rewrite blen_copy.
      repeat split; try assumption; lia.
    + rewrite (decide_False (P := bpos c > 0 /\ bpos c + blen input < bs))
        by (unfold want in Hfull; case_decide; lia).
      apply (Hrest _ (blen input - want)
               (blen input - blen input mod bs + bs) (0 + want)); simpl;
        try rewrite blen_copy; try tauto; try lia.
      * unfold want. case_decide; lia.
      * rewrite Z.add_mod, Holen, Z_mod_same_full by lia.
        simpl. apply Z.mod_0_l. lia.
  - (* an empty block buffer *)
    rewrite (decide_False (P := bpos c > 0 /\ bpos c + blen input < bs))
      by lia.
    rewrite Z.add_0_r.
    apply (Hrest c0 (blen input) (blen input - blen input mod bs) 0);
      simpl; try tauto; lia.
Qed.

Lemma blen_fill (b : list Z) (v s e : Z) : blen (fill b v s e) = blen b.
Proof. unfold fill, blen. rewrite length_imap. reflexivity. Qed.

(** [final] of an encryptor or of a stream decipher on an initialised
    object returns one block (ECB, CBC) or [bpos] bytes (CTR, CFB, OFB). *)
Lemma final_returns c bs key :
  ready c bs key -> family_of (cls c) <> BlockDecipher ->
  exists out,
    (final c).2 = Ok out /\
    blen out = match family_of (cls c) with
               | BlockCipher => bs
               | _ => bpos c
               end.
Proof.
  intros (Hblk & Hbpos & Hctx) Hfam.
  unfold final. rewrite decide_False by lia.
  assert (forall c', bpos c' = bpos c -> blen (xor_tail c') = bpos c)
    as Htail.
  { intros c' Hc'. unfold xor_tail.
    apply (for_lt_invariant (fun out => blen out = bpos c)).
    - intros i s _ Hs. rewrite blen_bset. assumption.
    - rewrite blen_allocUnsafe. lia. }
  unfold _final.
  destruct (family_of (cls c)) eqn:Hf; try congruence.
  - destruct (_update_ready c InOutput 0
                (fill (block c) (blockSize_of c - bpos c) (bpos c)
                      (blockSize_of c)) 0 key Hctx)
      as (c' & out & -> & Hlen & _).
    exists out. split; [reflexivity|]. rewrite Hlen, blen_fill. assumption.
  - rewrite Hctx. simpl. eexists. split; [reflexivity|]. apply Htail.
    reflexivity.
  - rewrite Hctx. simpl. eexists. split; [reflexivity|]. apply Htail.
    reflexivity.
  - rewrite Hctx. simpl. eexists. split; [reflexivity|]. apply Htail.
    reflexivity.
Qed.

(** [init] of a new object with a key the context accepts and the IV the
    class asks for. *)
Lemma init_ready (k : klass) (key : list Z) (iv : option (list Z)) :
  0 < blockSize -> key_ok key = true -> iv_ok k iv ->
  exists c,
    init (new k) key iv = (c, Ok tt) /\
    ready c blockSize key /\ bpos c = 0 /\ cls c = k /\
    padding c = match family_of k with BlockDecipher => true | _ => false end.
Proof.
  intros Hbs Hkey Hiv. unfold init, ctx_init. rewrite Hkey.
  unfold iv_ok in Hiv. unfold _init, blockSize_of, ready.
  destruct k; simpl in *; rewrite ?blen_allocUnsafe;
    (rewrite bool_decide_true by lia); simpl;
    eexists; (split; [reflexivity|]); simpl; rewrite ?blen_allocUnsafe;
    repeat split; lia.
Qed.

Lemma blen_app (a b : list Z) : blen (a ++ b) = blen a + blen b.
Proof. unfold blen. rewrite length_app. lia. Qed.

(** With a single [update], an encryptor or a stream decipher returns, over
    [update] and [final], the number of bytes the specification gives. *)
Theorem single_update_length (k : klass) (key : list Z)
    (iv : option (list Z)) (input : list Z) :
  0 < blockSize -> key_ok key = true -> iv_ok k iv ->
  family_of k <> BlockDecipher ->
  blen (emitted (run k key iv [input]).1) =
  claimed_length k blockSize (blen input).
Proof.
  intros Hbs Hkey Hiv Hfam.
  destruct (init_ready k key iv Hbs Hkey Hiv)
    as (c0 & Hinit & Hr0 & Hb0 & Hc0 & Hp0).
  destruct (update_returns c0 input blockSize key Hr0)
    as (c1 & o1 & Hupd & Hl1 & Hr1 & Hb1 & Hc1 & _).
  destruct (final_returns c1 blockSize key Hr1) as (o2 & Hfin & Hl2);
    [congruence|].
  unfold run, emitted. rewrite Hinit. simpl. rewrite Hupd.
  destruct (final c1) as [c2 r2] eqn:Hf. simpl in *. subst r2. simpl.
  rewrite app_nil_r, blen_app, Hl1, Hl2, Hb1, Hb0, Hp0, Hc1, Hc0.
  pose proof (blen_nonneg input) as Hn.
  unfold returned_length, claimed_length.
  rewrite decide_False by lia. rewrite decide_False by lia.
  assert (0 <= blen input mod blockSize < blockSize) as Hm
    by (apply Z.mod_pos_bound; lia).
  rewrite Z.add_0_l.
  destruct (family_of k); try congruence; try lia.
  replace (blen input + 1 + blockSize - 1)
    with (blen input + 1 * blockSize) by ring.
  assert (blockSize <> 0) as Hnz by lia.
  rewrite (Z.div_add (blen input) 1 blockSize Hnz).
  pose proof (Z.div_mod (blen input) blockSize Hnz). nia.
Qed.

(** Whatever the block cipher, when its blocks have two bytes or more, an
    encryptor or a stream decipher fed one byte and then one block returns
    one block more than the specification gives. *)
Theorem two_updates_length (k : klass) (key : list Z)
    (iv : option (list Z)) (a b : list Z) :
  2 <= blockSize -> key_ok key = true -> iv_ok k iv ->
  family_of k <> BlockDecipher ->
  blen a = 1 -> blen b = blockSize ->
  blen (emitted (run k key iv [a; b]).1) =
  claimed_length k blockSize (blen (a ++ b)) + blockSize.
Proof.
  intros Hbs Hkey Hiv Hfam Ha Hb.
  destruct (init_ready k key iv ltac:(lia) Hkey Hiv)
    as (c0 & Hinit & Hr0 & Hb0 & Hc0 & Hp0).
  destruct (update_returns c0 a blockSize key Hr0)
    as (c1 & o1 & Hupd1 & Hl1 & Hr1 & Hb1 & Hc1 & Hp1).
  destruct (update_returns c1 b blockSize key Hr1)
    as (c2 & o2 & Hupd2 & Hl2 & Hr2 & Hb2 & Hc2 & Hp2).
  destruct (final_returns c2 blockSize key Hr2) as (o3 & Hfin & Hl3);
    [congruence|].
  unfold run, emitted. rewrite Hinit. simpl. rewrite Hupd1. simpl.
  rewrite Hupd2.
  destruct (final c2) as [c3 r3] eqn:Hf. simpl in *. subst r3. simpl.
  rewrite app_nil_r, !blen_app, Hl1, Hl2, Hl3, Hb2, Hb1, Hb0, Hp1, Hp0,
    Hc2, Hc1, Hc0, Ha, Hb.
  assert (1 mod blockSize = 1) as H1 by (apply Z.mod_small; lia).
  assert ((0 + 1) mod blockSize = 1) as H01 by (apply Z.mod_small; lia).
  assert ((1 + blockSize) mod blockSize = 1) as H1b.
  { replace (1 + blockSize) with (1 + 1 * blockSize) by ring.
    rewrite Z.mod_add by lia. assumption. }
  rewrite H01, H1b.
  unfold returned_length, claimed_length.
  rewrite H1, Z_mod_same_full.
  rewrite (decide_False (P := 0 > 0 /\ 0 + 1 < blockSize)) by lia.
  rewrite (decide_False (P := 0 > 0)) by lia.
  rewrite (decide_False (P := 1 > 0 /\ 1 + blockSize < blockSize)) by lia.
  rewrite (decide_True (P := 1 > 0)) by lia.
  destruct (family_of k); try congruence; try lia.
  replace (1 + blockSize + 1 + blockSize - 1)
    with (1 + 2 * blockSize) by ring.
  assert (blockSize <> 0) as Hnz by lia.
  rewrite (Z.div_add 1 2 blockSize Hnz).
  rewrite Z.div_small by lia. lia.
Qed.

End Lengths.

Lemma ctx4_key_ok (key : list Z) : @Modes.key_ok Toy.ctx4 key = true.
Proof. reflexivity. Qed.

(** [single_update_length] on four-byte blocks: six bytes through CBC come
    out as eight. *)
Lemma single_update_length_witness :
  blen (Modes.emitted (@Modes.run Toy.ctx4 Modes.CBCCipher [1]
                         (Some [9; 9; 9; 9]) [[1; 2; 3; 4; 5; 6]]).1) = 8.
Proof.
  apply (@single_update_length Toy.ctx4 Modes.CBCCipher [1]
           (Some [9; 9; 9; 9]) [1; 2; 3; 4; 5; 6]).
  - simpl. lia.
  - reflexivity.
  - reflexivity.
  - discriminate.
Defined.

(** [two_updates_length] on four-byte blocks: five bytes through CTR come
    out as nine. *)
Lemma two_updates_length_witness :
  blen (Modes.emitted (@Modes.run Toy.ctx4 Modes.CTRCipher [1]
                         (Some [0; 0; 0; 255]) [[1]; [2; 3; 4; 5]]).1) = 9.
Proof.
  apply (@two_updates_length Toy.ctx4 Modes.CTRCipher [1]
           (Some [0; 0; 0; 255]) [1] [2; 3; 4; 5]).
  - simpl. lia.
  - reflexivity.
  - reflexivity.
  - discriminate.
  - reflexivity.
  - reflexivity.
Defined.

(** ** Buffers as lists *)

Lemma bget_nat (b : list Z) (i : nat) :
  bget b (Z.of_nat i) = default 0 (b !! i).
Proof.
  unfold bget. rewrite decide_True by lia. rewrite Nat2Z.id. reflexivity.
Qed.

Lemma bset_nat (b : list Z) (i : nat) (v : Z) :
  bset b (Z.of_nat i) v = <[i := Z.land v 255]> b.
Proof.
  unfold bset. rewrite decide_True by lia. rewrite Nat2Z.id. reflexivity.
Qed.

Lemma length_read_block (b : list Z) (pos : Z) (n : nat) :
  length (read_block b pos (Z.of_nat n)) = n.
Proof.
  unfold read_block. rewrite length_fmap, length_seqZ. lia.
Qed.

Lemma lookup_read_block (b : list Z) (i n j : nat) :
  (j < n)%nat ->
  read_block b (Z.of_nat i) (Z.of_nat n) !! j = Some (default 0 (b !! (i + j)%nat)).
Proof.
  intros Hj. unfold read_block.
  rewrite list_lookup_fmap, lookup_seqZ_lt by lia. simpl.
  replace (Z.of_nat i + Z.of_nat j) with (Z.of_nat (i + j)) by lia.
  rewrite bget_nat. reflexivity.
Qed.

(** Inside the buffer a block read is a slice of the list. *)
Lemma read_block_inside (b : list Z) (i n : nat) :
  (i + n <= length b)%nat ->
  read_block b (Z.of_nat i) (Z.of_nat n) = take n (drop i b).
Proof.
  intros Hin. apply list_eq. intros j.
  destruct (decide (j < n)%nat) as [Hj | Hj].
  - rewrite lookup_read_block by assumption.
    rewrite lookup_take_lt, lookup_drop by assumption.
    destruct (lookup_lt_is_Some_2 b (i + j)) as [x Hx]; [lia|].
    rewrite Hx. reflexivity.
  - rewrite lookup_take_ge by lia.
    apply lookup_ge_None_2. rewrite length_read_block. lia.
Qed.

Lemma read_block_whole (b : list Z) :
  read_block b 0 (blen b) = b.
Proof.
  unfold blen. change 0 with (Z.of_nat 0).
  rewrite read_block_inside by (simpl; lia).
  rewrite drop_0. apply take_ge. lia.
Qed.

(** [blit] inside the buffer replaces a segment. *)
Lemma blit_inside (src dst : list Z) (p : nat) :
  (p + length src <= length dst)%nat ->
  blit src dst p = take p dst ++ src ++ drop (p + length src) dst.
Proof.
  revert dst p. induction src as [|x r IH]; intros dst p Hin; simpl in *.
  - rewrite Nat.add_0_r, take_drop. reflexivity.
  - rewrite IH by (rewrite length_insert; lia).
    rewrite insert_take_drop by lia.
    rewrite take_app_ge by (rewrite length_take; lia).
    rewrite length_take_le by lia.
    replace (Datatypes.S p - p)%nat with 1%nat by lia.
    rewrite drop_app_ge by (rewrite length_take; lia).
    rewrite length_take_le by lia.
    replace (Datatypes.S p + length r - p)%nat
      with (Datatypes.S (length r)) by lia.
    simpl. rewrite take_0, drop_drop.
    replace (Datatypes.S p + length r)%nat
      with (p + Datatypes.S (length r))%nat by lia.
    rewrite <- app_assoc. reflexivity.
Qed.

Lemma copy_inside (src target : list Z) (t n : nat) :
  length src = n -> (t + n <= length target)%nat ->
  copy src target (Z.of_nat t) 0 (Z.of_nat n) =
  take t target ++ src ++ drop (t + n) target.
Proof.
  intros Hn Hin. unfold copy. rewrite Z.sub_0_r, !Nat2Z.id. simpl.
  rewrite drop_0, take_ge by lia.
  rewrite blit_inside by lia. rewrite Hn. reflexivity.
Qed.

Lemma for_lt_ext {S : Type} (n : Z) (f g : Z -> S -> S) (init : S) :
  (forall i s, 0 <= i < n -> f i s = g i s) ->
  for_lt n f init = for_lt n g init.
Proof.
  intros Hfg. unfold for_lt.
  assert (forall l, (forall i, i ∈ l -> 0 <= i < n) ->
            forall s, foldl (fun s i => f i s) s l =
                      foldl (fun s i => g i s) s l) as Hgen.
  { induction l as [|i l IH]; intros Hl s; simpl; [reflexivity|].
    rewrite Hfg by (apply Hl; left).
    apply IH. intros j Hj. apply Hl. right. assumption. }
  apply Hgen. intros i Hi. apply elem_of_seqZ in Hi. lia.
Qed.

(** A loop that rewrites [n] bytes from [opos] on, each from its index and
    its old value, replaces a segment. *)
Lemma for_lt_bset (n opos : nat) (out : list Z) (g : Z -> Z -> Z) :
  (opos + n <= length out)%nat ->
  for_lt (Z.of_nat n)
    (fun i o => bset o (Z.of_nat opos + i) (g i (bget o (Z.of_nat opos + i))))
    out =
  take opos out ++
  ((fun j : nat =>
      Z.land (g (Z.of_nat j) (default 0 (out !! (opos + j)%nat))) 255)
     <$> seq 0 n) ++
  drop (opos + n) out.
Proof.
  induction n as [|n IH]; intros Hin.
  - unfold for_lt. simpl. rewrite Nat.add_0_r, take_drop. reflexivity.
  - rewrite seq_S, fmap_app.
    unfold for_lt in *. rewrite seqZ_S, foldl_app. simpl.
    rewrite IH by lia. clear IH.
    set (xs := (fun j : nat =>
                  Z.land (g (Z.of_nat j) (default 0 (out !! (opos + j)%nat)))
                         255) <$> seq 0 n).
    assert (length xs = n) as Hxs
      by (unfold xs; rewrite length_fmap, length_seq; reflexivity).
    rewrite Z.add_0_l.
    replace (Z.of_nat opos + Z.of_nat n) with (Z.of_nat (opos + n)) by lia.
    rewrite bget_nat, bset_nat.
    destruct (lookup_lt_is_Some_2 out (opos + n)) as [y Hy]; [lia|].
    assert ((take opos out ++ xs ++ drop (opos + n) out) !! (opos + n)%nat
            = Some y) as Hget.
    { rewrite lookup_app_r by (rewrite length_take; lia).
      rewrite length_take_le by lia.
      rewrite lookup_app_r by lia.
      rewrite lookup_drop, Hxs.
      replace (opos + n + (opos + n - opos - n))%nat with (opos + n)%nat
        by lia.
      assumption. }
    rewrite Hget, Hy. simpl.
    rewrite insert_app_r_alt by (rewrite length_take; lia).
    rewrite length_take_le by lia.
    rewrite insert_app_r_alt by lia.
    rewrite Hxs. replace (opos + n - opos - n)%nat with 0%nat by lia.
    rewrite (drop_S out y (opos + n)) by assumption. simpl.
    replace (opos + Datatypes.S n)%nat with (Datatypes.S (opos + n)) by lia.
    rewrite <- !app_assoc. reflexivity.
Qed.

(** ** One block through [_update] *)

Lemma xorm_read_block (a b : list Z) (i k : Z) (n : nat) :
  (fun j : nat =>
     Z.land (Z.lxor (bget a (i + Z.of_nat j)) (bget b (k + Z.of_nat j))) 255)
    <$> seq 0 n =
  Modes.xorm (read_block a i (Z.of_nat n)) (read_block b k (Z.of_nat n)).
Proof.
  apply list_eq. intros j. unfold Modes.xorm, read_block.
  rewrite lookup_zip_with, !list_lookup_fmap.
  destruct (decide (j < n)%nat) as [Hj | Hj].
  - rewrite lookup_seq_lt, !lookup_seqZ_lt by lia. reflexivity.
  - rewrite lookup_seq_ge, !lookup_seqZ_ge by lia. reflexivity.
Qed.

Lemma length_xorm (a b : list Z) (n : nat) :
  length a = n -> length b = n -> length (Modes.xorm a b) = n.
Proof.
  intros Ha Hb. unfold Modes.xorm. rewrite length_zip_with. lia.
Qed.

Section Steps.
Import Modes.
Context {BC : BlockCtx}.
Hypothesis ctx_ok : block_ctx_ok.
Variable bs : nat.
Hypothesis bs_eq : blockSize = Z.of_nat bs.

Lemma blen_length (b : list Z) : blen b = blockSize <-> length b = bs.
Proof. unfold blen. rewrite bs_eq. lia. Qed.

Lemma length_encrypt_block key b :
  length b = bs -> length (encrypt_block key b) = bs.
Proof.
  intros Hb. apply blen_length, (encrypt_block_length ctx_ok).
  apply blen_length. assumption.
Qed.

Lemma length_decrypt_block key b :
  length b = bs -> length (decrypt_block key b) = bs.
Proof.
  intros Hb. apply blen_length, (decrypt_block_length ctx_ok).
  apply blen_length. assumption.
Qed.

(** The loop of [_update] on an input that is not the output. *)
Lemma xor_into_buf c d (ipos : Z) other (k : Z) output (opos : nat) :
  blockSize_of c = blockSize ->
  (opos + bs <= length output)%nat ->
  xor_into c (InBuf d) ipos other k output (Z.of_nat opos) =
  take opos output ++
  xorm (read_block d ipos blockSize) (read_block other k blockSize) ++
  drop (opos + bs) output.
Proof.
  intros Hbs Hin. unfold xor_into. rewrite Hbs, bs_eq. simpl.
  rewrite (for_lt_bset bs opos output
             (fun i _ => Z.lxor (bget d (ipos + i)) (bget other (k + i))))
    by assumption.
  rewrite xorm_read_block. reflexivity.
Qed.

(** The loop of [_update] in place. *)
Lemma xor_into_output c other (k : Z) output (opos : nat) :
  blockSize_of c = blockSize ->
  (opos + bs <= length output)%nat ->
  xor_into c InOutput (Z.of_nat opos) other k output (Z.of_nat opos) =
  take opos output ++
  xorm (read_block output (Z.of_nat opos) blockSize)
       (read_block other k blockSize) ++
  drop (opos + bs) output.
Proof.
  intros Hbs Hin. unfold xor_into. rewrite Hbs, bs_eq. simpl.
  rewrite (for_lt_bset bs opos output
             (fun i old => Z.lxor old (bget other (k + i))))
    by assumption.
  rewrite <- xorm_read_block. f_equal. f_equal.
  apply list_fmap_ext. intros _ j _.
  replace (Z.of_nat opos + Z.of_nat j) with (Z.of_nat (opos + j)) by lia.
  rewrite bget_nat. reflexivity.
Qed.

(** [ctx.encrypt] and [ctx.decrypt] replace one block of the output. *)
Lemma ctx_encrypt_spec key input (ipos : Z) output (opos : nat) :
  (opos + bs <= length output)%nat ->
  ctx_encrypt (CtxReady key) input ipos output (Z.of_nat opos) =
  Ok (take opos output ++
      encrypt_block key (read_block input ipos blockSize) ++
      drop (opos + bs) output).
Proof.
  intros Hin. unfold ctx_encrypt. rewrite bs_eq. f_equal.
  apply copy_inside; [|assumption].
  apply length_encrypt_block, length_read_block.
Qed.

Lemma ctx_decrypt_spec key input (ipos : Z) output (opos : nat) :
  (opos + bs <= length output)%nat ->
  ctx_decrypt (CtxReady key) input ipos output (Z.of_nat opos) =
  Ok (take opos output ++
      decrypt_block key (read_block input ipos blockSize) ++
      drop (opos + bs) output).
Proof.
  intros Hin. unfold ctx_decrypt. rewrite bs_eq. f_equal.
  apply copy_inside; [|assumption].
  apply length_decrypt_block, length_read_block.
Qed.

(** Reading back a block that was just put in place. *)
Lemma read_block_replaced (output o : list Z) (opos : nat) :
  length o = bs -> (opos + bs <= length output)%nat ->
  read_block (take opos output ++ o ++ drop (opos + bs) output)
             (Z.of_nat opos) blockSize = o.
Proof.
  intros Ho Hin. rewrite bs_eq, read_block_inside.
  - rewrite drop_app_length' by (rewrite length_take; lia).
    rewrite take_app_length' by lia. reflexivity.
  - rewrite !length_app, length_take, length_drop. lia.
Qed.

Lemma replace_replaced (output o o' : list Z) (opos : nat) :
  length o = bs -> (opos + bs <= length output)%nat ->
  let output1 := take opos output ++ o ++ drop (opos + bs) output in
  take opos output1 ++ o' ++ drop (opos + bs) output1 =
  take opos output ++ o' ++ drop (opos + bs) output.
Proof.
  intros Ho Hin. simpl.
  rewrite take_app_length' by (rewrite length_take; lia).
  rewrite drop_app_ge by (rewrite length_take; lia).
  rewrite length_take_le by lia.
  rewrite drop_app_ge by lia.
  rewrite Ho, drop_drop.
  replace (opos + bs + (opos + bs - opos - bs))%nat with (opos + bs)%nat
    by lia.
  reflexivity.
Qed.

Lemma length_replaced (output o : list Z) (opos : nat) :
  length o = bs -> (opos + bs <= length output)%nat ->
  length (take opos output ++ o ++ drop (opos + bs) output) = length output.
Proof.
  intros Ho Hin. rewrite !length_app, length_take, length_drop. lia.
Qed.

Lemma length_bset (b : list Z) (i v : Z) : length (bset b i v) = length b.
Proof. pose proof (blen_bset b i v) as Hb. unfold blen in Hb. lia. Qed.

Lemma length_increment_from (n : nat) (b : list Z) :
  length (increment_from n b) = length b.
Proof.
  revert b. induction n as [|n IH]; intros b; simpl; [reflexivity|].
  case_decide.
  - rewrite IH. apply length_bset.
  - apply length_bset.
Qed.

Lemma read_block_full (v : list Z) :
  length v = bs -> read_block v 0 blockSize = v.
Proof.
  intros Hv. rewrite bs_eq, <- Hv. apply read_block_whole.
Qed.

(** [ctx.encrypt] into a buffer of one block replaces it. *)
Lemma ctx_encrypt_full key v (k : Z) st :
  length st = bs ->
  ctx_encrypt (CtxReady key) v k st 0 =
  Ok (encrypt_block key (read_block v k blockSize)).
Proof.
  intros Hst. change 0 with (Z.of_nat 0).
  rewrite ctx_encrypt_spec by (simpl; lia).
  simpl. rewrite drop_ge by lia. rewrite app_nil_r. reflexivity.
Qed.

(** [_update] on a caller's buffer is [block_step] on the block read from
    it: the block is put in place in the output and the carried value moves
    on. *)
Lemma _update_spec c key d (ipos : Z) output (opos : nat) :
  well_formed c key ->
  (opos + bs <= length output)%nat ->
  exists c',
    _update c (InBuf d) ipos output (Z.of_nat opos) =
      Ok (c', take opos output ++
              (block_step (cls c) key (chain_value c)
                 (read_block d ipos blockSize)).2 ++
              drop (opos + bs) output) /\
    chain_value c' =
      (block_step (cls c) key (chain_value c)
         (read_block d ipos blockSize)).1 /\
    well_formed c' key /\ same_frame c c'.
Proof.
  intros (Hctx & Hblk & Hprev & Hchain & Henc & Hbufs) Hin.
  assert (blockSize_of c = blockSize) as Hbsc by exact Hblk.
  assert (length (read_block d ipos blockSize) = bs) as Hb
    by (rewrite bs_eq; apply length_read_block).
  unfold _update, chain_value. rewrite Hctx, Hchain.
  destruct (cls c) eqn:Hcls; cbn [family_of input_data] in *; unfold_bind.
  - (* ECBCipher *)
    rewrite ctx_encrypt_spec by assumption.
    exists c. rewrite Hcls. cbn [family_of block_step fst snd].
    split; [reflexivity|]. split; [reflexivity|].
    split; [|apply same_frame_refl].
    unfold well_formed. rewrite Hcls. tauto.
  - (* ECBDecipher *)
    rewrite ctx_decrypt_spec by assumption.
    exists c. rewrite Hcls. cbn [family_of block_step fst snd].
    split; [reflexivity|]. split; [reflexivity|].
    split; [|apply same_frame_refl].
    unfold well_formed. rewrite Hcls. tauto.
  - (* CBCCipher *)
    rewrite Hbsc, xor_into_buf by assumption.
    set (x := xorm (read_block d ipos blockSize)
                   (read_block (prev_data c) (ppos c) blockSize)).
    assert (length x = bs) as Hx.
    { apply length_xorm; [assumption|].
      rewrite bs_eq. apply length_read_block. }
    rewrite ctx_encrypt_spec by (rewrite length_replaced; assumption).
    rewrite replace_replaced, read_block_replaced by assumption.
    eexists. split; [reflexivity|].
    unfold well_formed, same_frame, prev_data, blockSize_of.
    cbn [cls ctx padding block bpos last chain encrypt prev ppos state ctr
         set_prev block_step fst snd].
    rewrite Hcls. cbn [family_of]. rewrite Hblk.
    rewrite read_block_replaced
      by (try apply length_encrypt_block; assumption).
    repeat split; try assumption; discriminate.
  - (* CBCDecipher *)
    rewrite Hbsc, ctx_decrypt_spec by assumption. cbv beta iota.
    set (y := decrypt_block key (read_block d ipos blockSize)).
    assert (length y = bs) as Hy by (apply length_decrypt_block; assumption).
    rewrite xor_into_output by (rewrite ?length_replaced; assumption).
    rewrite replace_replaced, read_block_replaced by assumption.
    eexists. split; [reflexivity|].
    unfold well_formed, same_frame, prev_data, blockSize_of.
    cbn [cls ctx padding block bpos last chain encrypt prev ppos state ctr
         set_prev block_step fst snd prev_of_input].
    rewrite Hcls. cbn [family_of]. rewrite Hblk.
    repeat split; try assumption; discriminate.
  - (* CTRCipher *)
    destruct Hbufs as [Hst Hctr]. apply blen_length in Hst, Hctr.
    rewrite ctx_encrypt_full by assumption. cbv beta iota.
    rewrite read_block_full by assumption.
    assert (length (encrypt_block key (ctr c)) = bs) as He
      by (apply length_encrypt_block; assumption).
    rewrite xor_into_buf by assumption.
    unfold _increment. cbn [state set_state set_ctr].
    rewrite read_block_full by assumption.
    eexists. split; [reflexivity|].
    unfold well_formed, same_frame.
    cbn [cls ctx padding block bpos last chain encrypt prev ppos state ctr
         set_state set_ctr block_step fst snd].
    rewrite Hcls. cbn [family_of]. rewrite Hctr.
    repeat split; try assumption; try (apply blen_length;
      rewrite ?length_increment_from; assumption).
  - (* CTRDecipher *)
    destruct Hbufs as [Hst Hctr]. apply blen_length in Hst, Hctr.
    rewrite ctx_encrypt_full by assumption. cbv beta iota.
    rewrite read_block_full by assumption.
    assert (length (encrypt_block key (ctr c)) = bs) as He
      by (apply length_encrypt_block; assumption).
    rewrite xor_into_buf by assumption.
    unfold _increment. cbn [state set_state set_ctr].
    rewrite read_block_full by assumption.
    eexists. split; [reflexivity|].
    unfold well_formed, same_frame.
    cbn [cls ctx padding block bpos last chain encrypt prev ppos state ctr
         set_state set_ctr block_step fst snd].
    rewrite Hcls. cbn [family_of]. rewrite Hctr.
    repeat split; try assumption; try (apply blen_length;
      rewrite ?length_increment_from; assumption).
  - (* CFBCipher *)
    apply blen_length in Hbufs.
    rewrite Hbsc, ctx_encrypt_full by assumption. cbv beta iota.
    cbn [encrypt state set_state]. rewrite Henc.
    set (s := encrypt_block key
                (read_block (prev_data c) (ppos c) blockSize)).
    assert (length s = bs) as Hs
      by (apply length_encrypt_block; rewrite bs_eq;
          apply length_read_block).
    rewrite xor_into_buf by assumption.
    rewrite (read_block_full s) by assumption.
    assert (length (xorm (read_block d ipos blockSize) s) = bs) as Hx
      by (apply length_xorm; assumption).
    eexists. split; [reflexivity|].
    unfold well_formed, same_frame, prev_data, blockSize_of.
    cbn [cls ctx padding block bpos last chain encrypt prev ppos state ctr
         set_prev set_state block_step fst snd prev_of_input].
    rewrite Hcls. cbn [family_of]. rewrite Hblk.
    rewrite ?read_block_replaced by assumption.
    repeat split; try assumption; try discriminate;
      apply blen_length; assumption.
  - (* CFBDecipher *)
    apply blen_length in Hbufs.
    rewrite Hbsc, ctx_encrypt_full by assumption. cbv beta iota.
    cbn [encrypt state set_state]. rewrite Henc.
    set (s := encrypt_block key
                (read_block (prev_data c) (ppos c) blockSize)).
    assert (length s = bs) as Hs
      by (apply length_encrypt_block; rewrite bs_eq;
          apply length_read_block).
    rewrite xor_into_buf by assumption.
    rewrite (read_block_full s) by assumption.
    assert (length (xorm (read_block d ipos blockSize) s) = bs) as Hx
      by (apply length_xorm; assumption).
    eexists. split; [reflexivity|].
    unfold well_formed, same_frame, prev_data, blockSize_of.
    cbn [cls ctx padding block bpos last chain encrypt prev ppos state ctr
         set_prev set_state block_step fst snd prev_of_input].
    rewrite Hcls. cbn [family_of]. rewrite Hblk.
    rewrite ?read_block_replaced by assumption.
    repeat split; try assumption; try discriminate;
      apply blen_length; assumption.
  - (* OFBCipher *)
    apply blen_length in Hbufs.
    rewrite ctx_encrypt_full by assumption. cbv beta iota.
    rewrite read_block_full by assumption.
    assert (length (encrypt_block key (state c)) = bs) as Hs
      by (apply length_encrypt_block; assumption).
    rewrite xor_into_buf by assumption.
    cbn [state set_state].
    rewrite read_block_full by assumption.
    eexists. split; [reflexivity|].
    unfold well_formed, same_frame.
    cbn [cls ctx padding block bpos last chain encrypt prev ppos state ctr
         set_state block_step fst snd].
    rewrite Hcls. cbn [family_of].
    repeat split; try assumption; apply blen_length; assumption.
  - (* OFBDecipher *)
    apply blen_length in Hbufs.
    rewrite ctx_encrypt_full by assumption. cbv beta iota.
    rewrite read_block_full by assumption.
    assert (length (encrypt_block key (state c)) = bs) as Hs
      by (apply length_encrypt_block; assumption).
    rewrite xor_into_buf by assumption.
    cbn [state set_state].
    rewrite read_block_full by assumption.
    eexists. split; [reflexivity|].
    unfold well_formed, same_frame.
    cbn [cls ctx padding block bpos last chain encrypt prev ppos state ctr
         set_state block_step fst snd].
    rewrite Hcls. cbn [family_of].
    repeat split; try assumption; apply blen_length; assumption.
Qed.

Lemma chunks_at_S (d : list Z) (ipos : Z) (q : nat) :
  chunks_at d ipos (Datatypes.S q) =
  read_block d ipos blockSize :: chunks_at d (ipos + blockSize) q.
Proof.
  unfold chunks_at. simpl. f_equal.
  - f_equal. lia.
  - rewrite <- fmap_S_seq, <- list_fmap_compose.
    apply list_fmap_ext. intros _ j _. simpl. f_equal. lia.
Qed.

Lemma run_chunks_cons k key v b rest :
  run_chunks k key v (b :: rest) =
  ((run_chunks k key (block_step k key v b).1 rest).1,
   (block_step k key v b).2 ::
   (run_chunks k key (block_step k key v b).1 rest).2).
Proof.
  simpl. destruct (block_step k key v b) as [v1 o]. simpl.
  destruct (run_chunks k key v1 rest) as [v2 os]. reflexivity.
Qed.

Lemma length_block_step_out k key v b :
  length v = bs -> length b = bs ->
  length (block_step k key v b).2 = bs.
Proof.
  intros Hv Hb.
  destruct k; simpl;
    repeat first [ apply length_encrypt_block
                 | apply length_decrypt_block
                 | apply length_xorm
                 | assumption ].
Qed.

Lemma length_chain_value c key :
  well_formed c key -> length (chain_value c) = bs.
Proof.
  intros (_ & Hblk & _ & _ & _ & Hbufs). unfold chain_value, blockSize_of.
  rewrite Hblk.
  destruct (family_of (cls c));
    try (rewrite bs_eq; apply length_read_block);
    apply blen_length; tauto.
Qed.

(** The loop of [update] is [run_chunks] on the whole blocks left in the
    input: their images replace a segment of the output. *)
Lemma update_loop_spec key d (q : nat) :
  (0 < bs)%nat ->
  forall fuel c (ipos : Z) output (opos : nat) (ilen : Z),
    well_formed c key ->
    (opos + q * bs <= length output)%nat ->
    0 <= ilen -> ilen / blockSize = Z.of_nat q ->
    (Z.to_nat ilen <= fuel)%nat ->
    exists c',
      update_loop fuel blockSize c d ipos output (Z.of_nat opos) ilen =
        (c', Ok (take opos output ++
                 concat (run_chunks (cls c) key (chain_value c)
                           (chunks_at d ipos q)).2 ++
                 drop (opos + q * bs) output,
                 ipos + Z.of_nat q * blockSize, ilen mod blockSize)) /\
      chain_value c' =
        (run_chunks (cls c) key (chain_value c) (chunks_at d ipos q)).1 /\
      well_formed c' key /\ same_frame c c'.
Proof.
  intros Hbs.
  induction q as [|q IH];
    intros fuel c ipos output opos ilen Hwf Hin Hil Hq Hfuel.
  - assert (ilen < blockSize) as Hlt.
    { apply Z.div_small_iff in Hq; lia. }
    exists c. destruct fuel; simpl; rewrite decide_False by lia;
      rewrite Nat.add_0_r, take_drop, Z.add_0_r, Z.mod_small by lia;
      (split; [reflexivity|]); (split; [reflexivity|]);
      (split; [assumption | apply same_frame_refl]).
  - assert (blockSize <= ilen) as Hge.
    { destruct (decide (blockSize <= ilen)) as [|Hn]; [assumption|].
      rewrite Z.div_small in Hq by lia. lia. }
    destruct fuel as [|fuel]; [lia|].
    cbn [update_loop]. rewrite decide_True by lia.
    destruct (_update_spec c key d ipos output opos Hwf)
      as (c1 & Hupd & Hv1 & Hwf1 & Hfr1); [lia|].
    rewrite Hupd.
    set (o := (block_step (cls c) key (chain_value c)
                 (read_block d ipos blockSize)).2) in *.
    assert (length o = bs) as Ho.
    { apply length_block_step_out.
      - eapply length_chain_value. eassumption.
      - rewrite bs_eq. apply length_read_block. }
    replace (Z.of_nat opos + blockSize) with (Z.of_nat (opos + bs))
      by lia.
    destruct (IH fuel c1 (ipos + blockSize)
                (take opos output ++ o ++ drop (opos + bs) output)
                (opos + bs)%nat (ilen - blockSize) Hwf1)
      as (c2 & Hloop & Hv2 & Hwf2 & Hfr2).
    { rewrite length_replaced by (assumption || lia). lia. }
    { lia. }
    { replace ilen with ((ilen - blockSize) + 1 * blockSize) in Hq by ring.
      rewrite Z.div_add in Hq by lia. lia. }
    { rewrite bs_eq. lia. }
    rewrite Hloop. exists c2.
    assert (cls c1 = cls c) as Hcls by (destruct Hfr1; assumption).
    rewrite chunks_at_S, run_chunks_cons. fold o. rewrite <- Hv1, <- Hcls.
    cbn [fst snd concat].
    split; [|split; [assumption|split;
             [assumption | eapply same_frame_trans; eassumption]]].
    f_equal. f_equal. f_equal; [f_equal|].
    + rewrite take_app_ge by (rewrite length_take; lia).
      rewrite length_take_le by lia.
      rewrite take_app_ge by lia.
      rewrite Ho. replace (opos + bs - opos - bs)%nat with 0%nat by lia.
      rewrite take_0, app_nil_r.
      rewrite drop_app_ge by (rewrite length_take; lia).
      rewrite length_take_le by lia.
      rewrite drop_app_ge by lia.
      rewrite Ho, drop_drop.
      rewrite <- !app_assoc. f_equal. f_equal. f_equal. f_equal. lia.
    + lia.
    + replace ilen with ((ilen - blockSize) + 1 * blockSize) at 2 by ring.
      rewrite Z.mod_add by lia. reflexivity.
Qed.

Lemma bs_positive : (0 < bs)%nat.
Proof. pose proof (bs_pos ctx_ok). lia. Qed.

(** The object [init] leaves: between two blocks, at position 0, carrying
    the IV. *)
Lemma init_spec (k : klass) (key : list Z) (iv : option (list Z)) :
  key_ok key = true -> iv_ok k iv ->
  exists c,
    init (new k) key iv = (c, Ok tt) /\
    well_formed c key /\ bpos c = 0 /\ cls c = k /\
    padding c = match family_of k with BlockDecipher => true | _ => false end /\
    chain_value c = read_block (default EMPTY iv) 0 blockSize /\
    last c = EMPTY.
Proof.
  intros Hkey Hiv. pose proof (bs_pos ctx_ok) as Hpos.
  unfold init, ctx_init. rewrite Hkey.
  unfold iv_ok in Hiv. unfold _init, blockSize_of.
  assert (blen (allocUnsafe blockSize) = blockSize) as Halloc
    by (rewrite blen_allocUnsafe; lia).
  destruct k; cbn [new cls family_of set_ctx set_bpos set_last chain block]
    in *; rewrite ?Halloc;
    (rewrite bool_decide_true by lia);
    eexists; (split; [reflexivity|]);
    unfold well_formed, chain_value, blockSize_of, prev_data;
    cbn [cls ctx padding block bpos last chain encrypt prev ppos state ctr
         set_prev set_state set_ctr set_last set_bpos set_ctx new
         family_of];
    rewrite ?Halloc;
    repeat split; try assumption; try discriminate;
    try (symmetry; apply read_block_full, blen_length; assumption).
Qed.

(** [update] on an object at position 0: the whole blocks of the input go
    through [run_chunks], the bytes left over go to the head of the block
    buffer; a padding decipher returns all but the last block and keeps the
    whole output in [last]. *)
Lemma update_fresh_spec c key input (q rem : nat) :
  well_formed c key -> bpos c = 0 ->
  length input = (q * bs + rem)%nat -> (rem < bs)%nat ->
  let full := concat (run_chunks (cls c) key (chain_value c)
                        (chunks_at input 0 q)).2 in
  exists c',
    update c input =
      (c', Ok (if padding c
               then slice full 0 (Z.of_nat (q * bs) - blockSize)
               else full)) /\
    chain_value c' =
      (run_chunks (cls c) key (chain_value c) (chunks_at input 0 q)).1 /\
    well_formed c' key /\ bpos c' = Z.of_nat rem /\ cls c' = cls c /\
    padding c' = padding c /\
    take rem (block c') = drop (q * bs) input /\
    (padding c = true -> last c' = full).
Proof.
  intros Hwf Hb0 Hlen Hrem full. pose proof bs_positive as Hbs.
  assert (blen input = Z.of_nat (q * bs + rem)) as Hilen
    by (unfold blen; lia).
  assert (blen input mod blockSize = Z.of_nat rem) as Hmod.
  { rewrite Hilen, bs_eq, Nat2Z.inj_add, Nat2Z.inj_mul.
    rewrite Z.add_comm, Z.mod_add by lia. apply Z.mod_small. lia. }
  assert (blen input / blockSize = Z.of_nat q) as Hdiv.
  { rewrite Hilen, bs_eq, Nat2Z.inj_add, Nat2Z.inj_mul.
    rewrite Z.add_comm, Z.div_add by lia.
    rewrite Z.div_small by lia. lia. }
  destruct Hwf as (Hctx & Hblk & Hprev & Hchain & Henc & Hbufs).
  unfold update. rewrite decide_False by lia.
  rewrite Hblk, Hb0. rewrite decide_False by lia.
  rewrite !Z.rem_mod_nonneg by (pose proof (blen_nonneg input); lia).
  rewrite Z.add_0_l, Hmod.
  set (c0 := set_bpos c (Z.of_nat rem)).
  assert (well_formed c0 key) as Hwf0.
  { unfold well_formed, c0. simpl. tauto. }
  assert (chain_value c0 = chain_value c) as Hcv0 by reflexivity.
  rewrite (decide_False (P := 0 <> 0)) by lia.
  replace (blen input - Z.of_nat rem) with (Z.of_nat (q * bs)) by lia.
  assert (length (allocUnsafe (Z.of_nat (q * bs))) = (q * bs)%nat) as Hal.
  { pose proof (blen_allocUnsafe (Z.of_nat (q * bs))) as Ha.
    unfold blen in Ha. lia. }
  destruct (update_loop_spec key input q Hbs (Z.to_nat (blen input)) c0 0
              (allocUnsafe (Z.of_nat (q * bs))) 0%nat (blen input) Hwf0)
    as (c1 & Hloop & Hv1 & Hwf1 & Hfr1); try lia.
  change (Z.of_nat 0) with 0 in Hloop. rewrite Hloop. clear Hloop.
  rewrite Hmod. simpl take. rewrite drop_ge by (simpl; lia).
  rewrite app_nil_r, app_nil_l.
  change (cls c0) with (cls c) in *. rewrite Hcv0 in *. fold full.
  destruct Hfr1 as (Hcls1 & Hctx1 & Hpad1 & Hblk1 & Hbp1 & Hlast1 & _).
  unfold c0 in Hcls1, Hctx1, Hpad1, Hblk1, Hbp1, Hlast1.
  cbn [cls ctx padding block bpos last set_bpos]
    in Hcls1, Hctx1, Hpad1, Hblk1, Hbp1, Hlast1.
  set (c2 := if decide (Z.of_nat rem > 0)
             then set_block c1
                    (copy input (block c1) 0 (0 + Z.of_nat q * blockSize)
                       (0 + Z.of_nat q * blockSize + Z.of_nat rem))
             else c1).
  assert (length (block c1) = bs) as Hlb1.
  { apply blen_length. rewrite Hblk1. exact Hblk. }
  assert (take rem (block c2) = drop (q * bs) input) as Htake.
  { unfold c2. case_decide as Hr.
    - simpl. unfold copy.
      replace (Z.to_nat (0 + Z.of_nat q * blockSize + Z.of_nat rem -
                         (0 + Z.of_nat q * blockSize))) with rem by lia.
      replace (Z.to_nat (0 + Z.of_nat q * blockSize)) with (q * bs)%nat
        by lia.
      rewrite (take_ge (drop (q * bs) input) rem)
        by (rewrite length_drop; lia).
      rewrite blit_inside by (rewrite length_drop; simpl; lia).
      rewrite take_0, app_nil_l.
      rewrite take_app_length' by (rewrite length_drop; lia).
      reflexivity.
    - assert (rem = 0%nat) as -> by lia.
      rewrite take_0, drop_ge by lia. reflexivity. }
  assert (cls c2 = cls c /\ ctx c2 = ctx c1 /\ padding c2 = padding c /\
          blen (block c2) = blockSize /\ bpos c2 = Z.of_nat rem /\
          prev c2 = prev c1 /\ ppos c2 = ppos c1 /\ state c2 = state c1 /\
          ctr c2 = ctr c1 /\ chain c2 = chain c1 /\ encrypt c2 = encrypt c1 /\
          last c2 = last c1)
    as (Hc2 & Hx2 & Hp2 & Hb2 & Hbp2 & Hpr2 & Hpp2 & Hst2 & Hct2 & Hch2 &
        Hen2 & Hl2).
  { unfold c2. case_decide; simpl; rewrite ?blen_copy, ?Hblk1;
      repeat split; try assumption; try congruence. }
  assert (chain_value c2 = chain_value c1) as Hcv2.
  { destruct Hwf1 as (_ & Hb1 & Hprev1 & _).
    unfold chain_value, prev_data, blockSize_of.
    rewrite Hc2, Hpr2, Hpp2, Hst2, Hct2, Hb2, <- Hcls1, Hb1.
    destruct (prev c1); [reflexivity | congruence]. }
  assert (well_formed c2 key) as Hwf2.
  { destruct Hwf1 as (Hk1 & Hb1 & Hprev1 & Hch1 & Hen1 & Hbuf1).
    unfold well_formed.
    rewrite Hx2, Hb2, Hpr2, Hch2, Hen2, Hc2, Hst2, Hct2.
    rewrite <- Hcls1. tauto. }
  rewrite Hp2.
  destruct (padding c) eqn:Hpad; cbn [negb].
  - exists (set_last c2 full). split; [reflexivity|].
    split; [change (chain_value c2 = (run_chunks (cls c) key (chain_value c)
                                        (chunks_at input 0 q)).1);
            congruence|].
    split; [exact Hwf2|]. split; [exact Hbp2|]. split; [exact Hc2|].
    split; [exact Hp2|]. split; [exact Htake|]. reflexivity.
  - exists c2. split; [reflexivity|].
    split; [congruence|].
    split; [exact Hwf2|]. split; [exact Hbp2|]. split; [exact Hc2|].
    split; [exact Hp2|]. split; [exact Htake|]. discriminate.
Qed.

(** *** Decryption undoes encryption, block by block *)

Lemma lxor_twice_byte (x y : Z) :
  0 <= x < 256 ->
  Z.land (Z.lxor (Z.land (Z.lxor x y) 255) y) 255 = x.
Proof.
  intros Hx. apply Z.bits_inj'. intros n Hn.
  repeat (rewrite Z.land_spec || rewrite Z.lxor_spec).
  change 255 with (Z.ones 8).
  destruct (Z.ltb_spec n 8).
  - rewrite Z.ones_spec_low by lia.
    destruct (Z.testbit x n), (Z.testbit y n); reflexivity.
  - rewrite Z.ones_spec_high by lia. rewrite andb_false_r. symmetry.
    replace x with (x mod 2 ^ 8) by (apply Z.mod_small; lia).
    apply Z.mod_pow2_bits_high. lia.
Qed.

Lemma xorm_twice (b s : list Z) :
  is_bytes b -> (length b <= length s)%nat -> xorm (xorm b s) s = b.
Proof.
  intros Hb Hlen. apply list_eq. intros i. unfold xorm.
  rewrite !lookup_zip_with.
  destruct (b !! i) as [x|] eqn:Hx; simpl; [|reflexivity].
  destruct (lookup_lt_is_Some_2 s i) as [y Hy].
  { apply lookup_lt_Some in Hx. lia. }
  rewrite Hy. simpl. f_equal. apply lxor_twice_byte.
  unfold is_bytes in Hb. rewrite Forall_lookup in Hb. eauto.
Qed.

Lemma is_bytes_xorm (a b : list Z) : is_bytes (xorm a b).
Proof.
  unfold is_bytes, xorm. apply Forall_lookup. intros i z Hz.
  apply lookup_zip_with_Some in Hz as (x & y & -> & _ & _).
  change 255 with (Z.ones 8). rewrite Z.land_ones by lia.
  apply Z.mod_pos_bound. lia.
Qed.

(** One block: the decipher maps the block the encryptor wrote back to the
    block it read, and carries the same value on. *)
Lemma block_step_inverse (m : mode) key v b :
  key_ok key = true -> is_bytes b -> length b = bs -> length v = bs ->
  block_step (decipher_class m) key v
    (block_step (cipher_class m) key v b).2 =
  ((block_step (cipher_class m) key v b).1, b) /\
  length (block_step (cipher_class m) key v b).1 = bs /\
  length (block_step (cipher_class m) key v b).2 = bs.
Proof.
  intros Hkey Hb Hlb Hlv.
  assert (forall x, is_bytes x -> length x = bs ->
            decrypt_block key (encrypt_block key x) = x) as Hde.
  { intros x Hx Hlx. apply (decrypt_encrypt ctx_ok); try assumption.
    apply blen_length. assumption. }
  assert (length (encrypt_block key v) = bs) as Hev
    by (apply length_encrypt_block; assumption).
  destruct m; cbn [cipher_class decipher_class block_step fst snd].
  - rewrite Hde by assumption.
    repeat split; try assumption. apply length_encrypt_block. assumption.
  - rewrite Hde by (try apply is_bytes_xorm; apply length_xorm; assumption).
    rewrite xorm_twice by (try assumption; lia).
    repeat split; apply length_encrypt_block, length_xorm; assumption.
  - rewrite xorm_twice by (try assumption; lia).
    repeat split;
      [rewrite length_increment_from | apply length_xorm]; assumption.
  - rewrite xorm_twice by (try assumption; lia).
    repeat split; apply length_xorm; assumption.
  - rewrite xorm_twice by (try assumption; lia).
    repeat split; try assumption. apply length_xorm; assumption.
Qed.

Lemma run_chunks_inverse (m : mode) key chunks :
  key_ok key = true -> byte_blocks chunks ->
  forall v, length v = bs ->
    run_chunks (decipher_class m) key v
      (run_chunks (cipher_class m) key v chunks).2 =
    ((run_chunks (cipher_class m) key v chunks).1, chunks) /\
    length (run_chunks (cipher_class m) key v chunks).1 = bs /\
    Forall (fun o => length o = bs)
           (run_chunks (cipher_class m) key v chunks).2.
Proof.
  intros Hkey Hchunks.
  induction Hchunks as [|b rest [Hb Hlb] Hrest IH]; intros v Hv.
  - simpl. repeat split; [assumption | constructor].
  - apply blen_length in Hlb. rewrite run_chunks_cons. cbn [fst snd].
    destruct (block_step_inverse m key v b Hkey Hb Hlb Hv)
      as (Hinv & Hl1 & Hl2).
    destruct (IH _ Hl1) as (IHinv & IHl & IHall).
    rewrite run_chunks_cons, Hinv. cbn [fst snd]. rewrite IHinv.
    cbn [fst snd]. repeat split; [assumption|].
    constructor; assumption.
Qed.

Lemma run_chunks_app k key v chunks1 chunks2 :
  run_chunks k key v (chunks1 ++ chunks2) =
  ((run_chunks k key (run_chunks k key v chunks1).1 chunks2).1,
   (run_chunks k key v chunks1).2 ++
   (run_chunks k key (run_chunks k key v chunks1).1 chunks2).2).
Proof.
  revert v. induction chunks1 as [|b rest IH]; intros v.
  - simpl. destruct (run_chunks k key v chunks2). reflexivity.
  - rewrite <- app_comm_cons, !run_chunks_cons, IH. reflexivity.
Qed.

(** *** Buffers as lists of blocks *)

Lemma concat_chunks_at (d : list Z) (i q : nat) :
  (i + q * bs <= length d)%nat ->
  concat (chunks_at d (Z.of_nat i) q) = take (q * bs) (drop i d).
Proof.
  revert i. induction q as [|q IH]; intros i Hin.
  - reflexivity.
  - rewrite chunks_at_S. cbn [concat].
    rewrite bs_eq, read_block_inside by lia.
    replace (Z.of_nat i + Z.of_nat bs) with (Z.of_nat (i + bs)) by lia.
    rewrite IH by lia.
    rewrite <- (drop_drop d bs i), take_take_drop. f_equal.
Qed.

Lemma byte_blocks_chunks_at (d : list Z) (i q : nat) :
  is_bytes d -> (i + q * bs <= length d)%nat ->
  byte_blocks (chunks_at d (Z.of_nat i) q).
Proof.
  intros Hd. revert i. induction q as [|q IH]; intros i Hin.
  - constructor.
  - rewrite chunks_at_S. constructor.
    + rewrite bs_eq, read_block_inside by lia. split.
      * apply Forall_take, Forall_drop. assumption.
      * unfold blen. rewrite length_take, length_drop. lia.
    + replace (Z.of_nat i + blockSize) with (Z.of_nat (i + bs)) by lia.
      apply IH. lia.
Qed.

Lemma chunks_at_concat (pre t : list Z) (bl : list (list Z)) :
  Forall (fun b => length b = bs) bl ->
  chunks_at (pre ++ concat bl ++ t) (Z.of_nat (length pre)) (length bl) = bl.
Proof.
  intros Hbl. revert pre. induction Hbl as [|b rest Hb Hrest IH]; intros pre.
  - reflexivity.
  - cbn [length concat]. rewrite chunks_at_S. f_equal.
    + rewrite bs_eq, read_block_inside
        by (rewrite !length_app; lia).
      rewrite drop_app_length, <- app_assoc.
      rewrite take_app_length' by lia. reflexivity.
    + replace (Z.of_nat (length pre) + blockSize)
        with (Z.of_nat (length (pre ++ b)))
        by (rewrite length_app; lia).
      replace (pre ++ (b ++ concat rest) ++ t)
        with ((pre ++ b) ++ concat rest ++ t)
        by (rewrite <- !app_assoc; reflexivity).
      apply IH.
Qed.

Lemma length_concat_blocks (bl : list (list Z)) :
  Forall (fun b => length b = bs) bl ->
  length (concat bl) = (length bl * bs)%nat.
Proof.
  induction 1 as [|b rest Hb Hrest IH]; [reflexivity|].
  cbn [concat length]. rewrite length_app, IH, Hb. lia.
Qed.

(** *** [final] *)

Lemma fill_tail (b : list Z) (v : Z) (rem : nat) :
  length b = bs -> (rem <= bs)%nat ->
  fill b v (Z.of_nat rem) (Z.of_nat bs) =
  take rem b ++ replicate (bs - rem) (Z.land v 255).
Proof.
  intros Hb Hrem. apply list_eq. intros i. unfold fill.
  rewrite list_lookup_imap.
  destruct (decide (i < rem)%nat) as [Hi | Hi].
  - rewrite lookup_app_l by (rewrite length_take; lia).
    rewrite lookup_take_lt by assumption.
    destruct (b !! i); simpl; [|reflexivity].
    rewrite decide_False by lia. reflexivity.
  - rewrite lookup_app_r by (rewrite length_take; lia).
    rewrite length_take_le by lia.
    destruct (decide (i < bs)%nat) as [Hi' | Hi'].
    + destruct (lookup_lt_is_Some_2 b i) as [y Hy]; [lia|].
      rewrite Hy. simpl. rewrite decide_True by lia.
      rewrite lookup_replicate_2 by lia. reflexivity.
    + rewrite (lookup_ge_None_2 b i) by lia. simpl. symmetry.
      apply lookup_replicate_None. lia.
Qed.

Lemma length_pad_block (tail : list Z) :
  (length tail <= bs)%nat -> length (pad_block tail) = bs.
Proof.
  intros Ht. unfold pad_block, blen.
  rewrite length_app, length_replicate. lia.
Qed.

Lemma xor_into_whole c other (k : Z) blk :
  blockSize_of c = blockSize -> length blk = bs ->
  xor_into c InOutput 0 other k blk 0 =
  xorm blk (read_block other k blockSize).
Proof.
  intros Hbsc Hlen.
  pose proof (xor_into_output c other k blk 0%nat Hbsc) as Hx.
  change (Z.of_nat 0) with 0 in Hx. rewrite Hx by (simpl; lia).
  rewrite take_0, drop_ge by (simpl; lia).
  rewrite app_nil_r, app_nil_l, read_block_full by assumption.
  reflexivity.
Qed.

(** [_update] in place on one block, as [BlockCipher._final] calls it. *)
Lemma _update_inplace_spec c key blk :
  well_formed c key -> family_of (cls c) = BlockCipher ->
  length blk = bs ->
  exists c',
    _update c InOutput 0 blk 0 =
    Ok (c', (block_step (cls c) key (chain_value c) blk).2).
Proof.
  intros (Hctx & Hblk & Hprev & Hchain & Henc & Hbufs) Hfam Hlen.
  assert (blockSize_of c = blockSize) as Hbsc by exact Hblk.
  unfold _update, chain_value. rewrite Hfam, Hctx, Hchain, Hbsc.
  destruct (cls c) eqn:Hcls; try discriminate;
    cbn [input_data block_step snd]; unfold_bind.
  - rewrite ctx_encrypt_full by assumption.
    rewrite (read_block_full blk) by assumption.
    eexists. reflexivity.
  - rewrite !xor_into_whole by assumption.
    assert (length (xorm blk (read_block (prev_data c) (ppos c) blockSize))
            = bs) as Hx.
    { apply length_xorm; [assumption|].
      rewrite bs_eq. apply length_read_block. }
    rewrite ctx_encrypt_full by assumption.
    rewrite read_block_full by assumption.
    eexists. reflexivity.
Qed.

(** [final] of an ECB or CBC encryptor pads what is left in the block
    buffer and sends it through the mode. *)
Lemma final_block_cipher_spec c key (rem : nat) :
  well_formed c key -> family_of (cls c) = BlockCipher ->
  bpos c = Z.of_nat rem -> (rem < bs)%nat ->
  (final c).2 =
  Ok (block_step (cls c) key (chain_value c)
        (pad_block (take rem (block c)))).2.
Proof.
  intros Hwf Hfam Hbpos Hrem.
  assert (length (block c) = bs) as Hlb
    by (apply blen_length; destruct Hwf as (_ & Hb & _); exact Hb).
  assert (blockSize_of c = blockSize) as Hbsc
    by (destruct Hwf as (_ & Hb & _); exact Hb).
  unfold final. rewrite decide_False by lia.
  unfold _final. rewrite Hfam, Hbsc, Hbpos.
  rewrite bs_eq, fill_tail by (assumption || lia).
  assert (take rem (block c) ++
          replicate (bs - rem) (Z.land (Z.of_nat bs - Z.of_nat rem) 255) =
          pad_block (take rem (block c))) as Hpad.
  { unfold pad_block, blen. rewrite length_take_le by lia.
    rewrite bs_eq. f_equal. f_equal. lia. }
  rewrite Hpad.
  destruct (_update_inplace_spec c key (pad_block (take rem (block c)))
              Hwf Hfam) as (c' & ->).
  { apply length_pad_block. rewrite length_take. lia. }
  reflexivity.
Qed.

(** The loop of the stream modes over the partial block. *)
Lemma xor_tail_spec c (rem : nat) :
  bpos c = Z.of_nat rem ->
  (rem <= length (block c))%nat -> (rem <= length (state c))%nat ->
  xor_tail c = xorm (take rem (block c)) (take rem (state c)).
Proof.
  intros Hbpos Hb Hs. unfold xor_tail. rewrite Hbpos.
  assert (length (allocUnsafe (Z.of_nat rem)) = rem) as Hal.
  { pose proof (blen_allocUnsafe (Z.of_nat rem)) as Ha.
    unfold blen in Ha. lia. }
  pose proof (for_lt_bset rem 0 (allocUnsafe (Z.of_nat rem))
                (fun i _ => Z.lxor (bget (block c) (0 + i))
                                   (bget (state c) (0 + i)))) as Hloop.
  cbv beta in Hloop.
  rewrite (for_lt_ext _ _
             (fun i o => bset o (Z.of_nat 0 + i)
                           (Z.lxor (bget (block c) (0 + i))
                                   (bget (state c) (0 + i)))))
    by reflexivity.
  rewrite Hloop by (simpl; lia).
  rewrite take_0, drop_ge by (simpl; lia).
  rewrite app_nil_r, app_nil_l, xorm_read_block.
  change 0 with (Z.of_nat 0).
  rewrite !read_block_inside by (simpl; lia).
  rewrite !drop_0. reflexivity.
Qed.

(** [final] of a stream mode xors what is left in the block buffer with
    the next block of key stream. *)
Lemma final_stream_spec c key (rem : nat) :
  well_formed c key ->
  family_of (cls c) <> BlockCipher -> family_of (cls c) <> BlockDecipher ->
  bpos c = Z.of_nat rem -> (rem <= bs)%nat ->
  (final c).2 =
  Ok (xorm (take rem (block c))
           (take rem (encrypt_block key (chain_value c)))).
Proof.
  intros Hwf Hf1 Hf2 Hbpos Hrem.
  pose proof (length_chain_value c key Hwf) as Hcv.
  destruct Hwf as (Hctx & Hblk & Hprev & Hchain & Henc & Hbufs).
  assert (length (block c) = bs) as Hlb by (apply blen_length; exact Hblk).
  assert (blockSize_of c = blockSize) as Hbsc by exact Hblk.
  assert (length (encrypt_block key (chain_value c)) = bs) as Hle
    by (apply length_encrypt_block; assumption).
  unfold final. rewrite decide_False by lia.
  unfold _final, chain_value in *. rewrite Hctx.
  destruct (family_of (cls c)) eqn:Hfam; try congruence.
  - destruct Hbufs as [Hst Hctr]. apply blen_length in Hst, Hctr.
    rewrite ctx_encrypt_full, read_block_full by assumption. simpl.
    rewrite (xor_tail_spec _ rem) by (simpl; lia). reflexivity.
  - apply blen_length in Hbufs.
    rewrite ctx_encrypt_full by assumption. rewrite Hbsc in *. simpl.
    rewrite (xor_tail_spec _ rem) by (simpl; lia). reflexivity.
  - apply blen_length in Hbufs.
    rewrite ctx_encrypt_full, read_block_full by assumption. simpl.
    rewrite (xor_tail_spec _ rem) by (simpl; lia). reflexivity.
Qed.

Lemma check_padding_ok (n : nat) (blk : list Z) (left : Z) (e : nat) :
  (n <= e)%nat ->
  (forall j, (e - n <= j < e)%nat -> blk !! j = Some left) ->
  check_padding n blk left (Z.of_nat e) = Ok (Z.of_nat (e - n)).
Proof.
  revert e. induction n as [|n IH]; intros e Hn Hall.
  - simpl. rewrite Nat.sub_0_r. reflexivity.
  - cbn [check_padding].
    replace (Z.of_nat e - 1) with (Z.of_nat (e - 1)) by lia.
    rewrite bget_nat, (Hall (e - 1)%nat) by lia. simpl.
    rewrite decide_True by reflexivity.
    rewrite IH by (try lia; intros j Hj; apply Hall; lia).
    f_equal. lia.
Qed.

(** [final] of an ECB or CBC decipher that holds a padded last block strips
    the padding. *)
Lemma final_block_decipher_spec c key (pre tail : list Z) :
  well_formed c key -> family_of (cls c) = BlockDecipher ->
  bpos c = 0 -> last c = pre ++ pad_block tail ->
  (length tail < bs)%nat ->
  (final c).2 = Ok tail.
Proof.
  intros Hwf Hfam Hbpos Hlast Htail.
  destruct Hwf as (Hctx & Hblk & _).
  assert (blockSize_of c = blockSize) as Hbsc by exact Hblk.
  pose proof (bs_byte ctx_ok) as Hbyte.
  remember (length tail) as rem eqn:Hrem.
  remember (bs - rem)%nat as p eqn:Hp.
  assert (Z.land (blockSize - blen tail) 255 = Z.of_nat p) as Hleft.
  { unfold blen. rewrite <- Hrem. change 255 with (Z.ones 8).
    rewrite Z.land_ones by lia. rewrite Z.mod_small by lia. lia. }
  assert (pad_block tail = tail ++ replicate p (Z.of_nat p)) as Hpad.
  { unfold pad_block. rewrite Hleft. f_equal. f_equal.
    unfold blen. rewrite <- Hrem. lia. }
  assert (length (last c) = (length pre + bs)%nat) as Hll.
  { rewrite Hlast, length_app, length_pad_block by lia.
    reflexivity. }
  assert (forall j, (length pre + bs - p <= j < length pre + bs)%nat ->
            last c !! j = Some (Z.of_nat p)) as Hall.
  { intros j Hj. rewrite Hlast, Hpad.
    rewrite lookup_app_r by lia.
    rewrite lookup_app_r by lia.
    apply lookup_replicate_2. lia. }
  unfold final. rewrite decide_False by lia.
  unfold _final. rewrite Hfam, Hbsc.
  cbn [last set_prev set_last bpos].
  rewrite decide_False by (unfold blen; lia).
  rewrite (decide_False (P := bpos c <> 0)) by lia.
  assert (blen (last c) - 1 = Z.of_nat (length pre + bs - 1)) as Hend
    by (unfold blen; lia).
  rewrite Hend, bget_nat, (Hall (length pre + bs - 1)%nat) by lia.
  cbn [default from_option id].
  rewrite decide_False by lia.
  rewrite Nat2Z.id.
  unfold blen at 1. rewrite Hll.
  rewrite check_padding_ok by (assumption || lia).
  cbn [fst snd]. f_equal.
  unfold slice, rel_index, blen. rewrite Hll.
  rewrite !decide_False by lia.
  replace (Z.to_nat (Z.min (Z.of_nat (length pre + bs) - blockSize)
                           (Z.of_nat (length pre + bs))))
    with (length pre) by lia.
  replace (Z.to_nat (Z.min (Z.of_nat (length pre + bs - p))
                           (Z.of_nat (length pre + bs)) -
                     Z.min (Z.of_nat (length pre + bs) - blockSize)
                           (Z.of_nat (length pre + bs))))
    with rem by lia.
  rewrite Hlast, drop_app_length, Hpad, Hrem, take_app_length.
  reflexivity.
Qed.

(** *** One [update] each way *)

Lemma length_run_chunks k key v chunks :
  length (run_chunks k key v chunks).2 = length chunks.
Proof.
  revert v. induction chunks as [|b rest IH]; intros v; [reflexivity|].
  rewrite run_chunks_cons. cbn [snd length]. rewrite IH. reflexivity.
Qed.

Lemma length_chunks_at d (i : Z) (q : nat) : length (chunks_at d i q) = q.
Proof. unfold chunks_at. rewrite length_fmap, length_seq. reflexivity. Qed.

Lemma is_bytes_pad_block (tail : list Z) :
  is_bytes tail -> is_bytes (pad_block tail).
Proof.
  intros Ht. unfold pad_block, is_bytes. apply Forall_app. split; [exact Ht|].
  apply Forall_replicate. change 255 with (Z.ones 8).
  rewrite Z.land_ones by lia. apply Z.mod_pos_bound. lia.
Qed.

Lemma run_single k key iv input c0 c1 o1 o2 :
  init (new k) key iv = (c0, Ok tt) ->
  update c0 input = (c1, Ok o1) ->
  (final c1).2 = Ok o2 ->
  emitted (run k key iv [input]).1 = o1 ++ o2.
Proof.
  intros Hinit Hupd Hfin. unfold run, emitted. rewrite Hinit. simpl.
  rewrite Hupd. destruct (final c1) as [c2 r2]. simpl in *. subst r2.
  simpl. rewrite app_nil_r. reflexivity.
Qed.

Lemma run_single_results k key iv input c0 c1 o1 o2 :
  init (new k) key iv = (c0, Ok tt) ->
  update c0 input = (c1, Ok o1) ->
  (final c1).2 = Ok o2 ->
  (run k key iv [input]).1 = ([Ok o1], Ok o2).
Proof.
  intros Hinit Hupd Hfin. unfold run. rewrite Hinit. simpl.
  rewrite Hupd. destruct (final c1) as [c2 r2]. simpl in *. subst r2.
  reflexivity.
Qed.

Lemma iv_ok_decipher (m : mode) iv :
  iv_ok (cipher_class m) iv -> iv_ok (decipher_class m) iv.
Proof. destruct m; exact id. Qed.

Lemma round_trip (m : mode) (key : list Z) (iv : option (list Z))
    (pt : list Z) :
  key_ok key = true -> iv_ok (cipher_class m) iv -> is_bytes pt ->
  exists c1 c2 d1 d2,
    (run (cipher_class m) key iv [pt]).1 = ([Ok c1], Ok c2) /\
    (run (decipher_class m) key iv [c1 ++ c2]).1 = ([Ok d1], Ok d2) /\
    d1 ++ d2 = pt.
Proof.
  intros Hkey Hiv Hpt. pose proof bs_positive as Hbs.
  set (q := (length pt / bs)%nat).
  set (rem := (length pt mod bs)%nat).
  assert (length pt = (q * bs + rem)%nat) as Hlen.
  { unfold q, rem. pose proof (Nat.div_mod_eq (length pt) bs). lia. }
  assert (rem < bs)%nat as Hrem
    by (unfold rem; apply Nat.mod_upper_bound; lia).
  clearbody q rem.
  set (v0 := read_block (default EMPTY iv) 0 blockSize).
  assert (length v0 = bs) as Hv0
    by (unfold v0; rewrite bs_eq; apply length_read_block).
  set (tail := drop (q * bs) pt).
  assert (length tail = rem) as Htl
    by (unfold tail; rewrite length_drop; lia).
  assert (is_bytes tail) as Htb by (apply Forall_drop; assumption).
  assert (take (q * bs) pt ++ tail = pt) as Hsplit by apply take_drop.
  assert (byte_blocks (chunks_at pt 0 q)) as Hbb.
  { change 0 with (Z.of_nat 0). apply byte_blocks_chunks_at; [assumption|].
    simpl. lia. }
  assert (concat (chunks_at pt 0 q) = take (q * bs) pt) as Hcc.
  { change 0 with (Z.of_nat 0). rewrite concat_chunks_at by (simpl; lia).
    rewrite drop_0. reflexivity. }
  set (encK := cipher_class m). set (decK := decipher_class m).
  set (EO := (run_chunks encK key v0 (chunks_at pt 0 q)).2).
  set (v1 := (run_chunks encK key v0 (chunks_at pt 0 q)).1).
  destruct (run_chunks_inverse m key (chunks_at pt 0 q) Hkey Hbb v0 Hv0)
    as (Hinv & Hlv1 & HEO).
  fold encK decK EO v1 in Hinv, Hlv1, HEO.
  assert (length EO = q) as HlEO
    by (unfold EO; rewrite length_run_chunks, length_chunks_at; reflexivity).
  (* the encryptor *)
  destruct (init_spec encK key iv Hkey Hiv)
    as (c0 & Hinit & Hwf0 & Hb0 & Hc0 & Hp0 & Hcv0 & _).
  fold v0 in Hcv0.
  destruct (update_fresh_spec c0 key pt q rem Hwf0 Hb0 Hlen Hrem)
    as (c1 & Hupd & Hcv1 & Hwf1 & Hb1 & Hc1 & Hp1 & Htk1 & _).
  rewrite Hc0, Hcv0 in Hupd, Hcv1. fold EO in Hupd. fold v1 in Hcv1.
  rewrite Hc0 in Hc1. fold tail in Htk1.
  (* the decipher *)
  destruct (init_spec decK key iv Hkey (iv_ok_decipher m iv Hiv))
    as (d0 & Hdinit & Hdwf0 & Hdb0 & Hdc0 & Hdp0 & Hdcv0 & _).
  fold v0 in Hdcv0.
  assert (family_of encK = BlockCipher /\ family_of decK = BlockDecipher \/
          family_of encK <> BlockCipher /\ family_of encK <> BlockDecipher /\
          family_of decK <> BlockCipher /\ family_of decK <> BlockDecipher)
    as [[Hfe Hfd] | (Hfe1 & Hfe2 & Hfd1 & Hfd2)].
  { unfold encK, decK. destruct m; simpl; (left; split; reflexivity) ||
      (right; repeat split; discriminate). }
  - (* ECB, CBC *)
    rewrite Hfe in Hp0. rewrite Hfd in Hdp0. rewrite Hp0 in Hupd.
    pose proof (final_block_cipher_spec c1 key rem Hwf1
                  ltac:(rewrite Hc1; exact Hfe) Hb1 Hrem) as Hfin.
    rewrite Htk1, Hc1, Hcv1 in Hfin.
    set (P := pad_block tail) in *.
    set (fo := (block_step encK key v1 P).2) in *.
    assert (length P = bs) as HlP by (apply length_pad_block; lia).
    assert (byte_blocks (chunks_at pt 0 q ++ [P])) as Hbb2.
    { apply Forall_app. split; [exact Hbb|].
      constructor; [|constructor].
      split; [apply is_bytes_pad_block; assumption
             | apply blen_length; assumption]. }
    assert (run_chunks encK key v0 (chunks_at pt 0 q ++ [P]) =
              ((block_step encK key v1 P).1, EO ++ [fo])) as Henc2.
    { rewrite run_chunks_app. fold v1 EO. rewrite run_chunks_cons.
      reflexivity. }
    pose proof (run_single_results encK key iv pt c0 c1 _ _ Hinit Hupd Hfin)
      as Henc.
    destruct (run_chunks_inverse m key _ Hkey Hbb2 v0 Hv0)
      as (Hinv2 & _ & Hall2).
    fold encK decK in Hinv2, Hall2.
    rewrite Henc2 in Hinv2, Hall2. cbn [fst snd] in Hinv2, Hall2.
    assert (length fo = bs) as Hlfo.
    { apply Forall_app in Hall2 as [_ Hfo]. apply Forall_inv in Hfo.
      exact Hfo. }
    assert (length (concat EO ++ fo) = (Datatypes.S q * bs + 0)%nat)
      as Hlct.
    { rewrite length_app, (length_concat_blocks EO) by assumption. lia. }
    destruct (update_fresh_spec d0 key (concat EO ++ fo) (Datatypes.S q) 0
                Hdwf0 Hdb0 Hlct ltac:(lia))
      as (d1 & Hdupd & Hdcv1 & Hdwf1 & Hdb1 & Hdc1 & Hdp1 & _ & Hdlast).
    rewrite Hdc0, Hdcv0, Hdp0 in Hdupd. rewrite Hdc0, Hdcv0, Hdp0 in Hdlast.
    assert (chunks_at (concat EO ++ fo) 0 (Datatypes.S q) = EO ++ [fo])
      as Hch.
    { pose proof (chunks_at_concat [] [] (EO ++ [fo]) Hall2) as Hx.
      rewrite length_app, HlEO in Hx. simpl in Hx.
      rewrite concat_app, app_nil_r in Hx. simpl in Hx.
      rewrite app_nil_r in Hx.
      replace (q + 1)%nat with (Datatypes.S q) in Hx by lia.
      exact Hx. }
    rewrite Hch, Hinv2 in Hdupd. rewrite Hch, Hinv2 in Hdlast.
    cbn [fst snd] in Hdupd, Hdlast.
    rewrite concat_app, Hcc in Hdupd. rewrite concat_app, Hcc in Hdlast.
    simpl concat in Hdupd, Hdlast. rewrite app_nil_r in Hdupd, Hdlast.
    specialize (Hdlast eq_refl).
    pose proof (final_block_decipher_spec d1 key (take (q * bs) pt) tail
                  Hdwf1 ltac:(rewrite Hdc1, Hdc0; exact Hfd) Hdb1 Hdlast
                  ltac:(lia)) as Hdfin.
    pose proof (run_single_results decK key iv _ d0 d1 _ _ Hdinit Hdupd
                  Hdfin) as Hdec.
    eexists _, _, _, _. split; [exact Henc|]. split; [exact Hdec|].
    rewrite <- Hsplit at 2. f_equal.
    unfold slice, rel_index, blen.
    rewrite length_app, length_take_le, HlP by lia.
    rewrite !decide_False by lia.
    replace (Z.to_nat (Z.min 0 (Z.of_nat (q * bs + bs)))) with 0%nat by lia.
    replace (Z.to_nat (Z.min (Z.of_nat (Datatypes.S q * bs) - blockSize)
                             (Z.of_nat (q * bs + bs)) -
                       Z.min 0 (Z.of_nat (q * bs + bs))))
      with (q * bs)%nat by lia.
    rewrite drop_0, take_app_length' by (rewrite length_take; lia).
    reflexivity.
  - (* CTR, CFB, OFB *)
    assert (padding c0 = false) as Hp0'
      by (rewrite Hp0; destruct (family_of encK); congruence).
    assert (padding d0 = false) as Hdp0'
      by (rewrite Hdp0; destruct (family_of decK); congruence).
    rewrite Hp0' in Hupd.
    pose proof (final_stream_spec c1 key rem Hwf1
                  ltac:(rewrite Hc1; exact Hfe1)
                  ltac:(rewrite Hc1; exact Hfe2) Hb1 ltac:(lia)) as Hfin.
    rewrite Htk1, Hcv1 in Hfin.
    set (ks := take rem (encrypt_block key v1)) in *.
    assert (length ks = rem) as Hlks.
    { unfold ks. rewrite length_take, length_encrypt_block by assumption.
      lia. }
    set (fo := xorm tail ks) in *.
    assert (length fo = rem) as Hlfo by (apply length_xorm; assumption).
    pose proof (run_single_results encK key iv pt c0 c1 _ _ Hinit Hupd Hfin)
      as Henc.
    assert (length (concat EO ++ fo) = (q * bs + rem)%nat) as Hlct.
    { rewrite length_app, (length_concat_blocks EO) by assumption. lia. }
    destruct (update_fresh_spec d0 key (concat EO ++ fo) q rem
                Hdwf0 Hdb0 Hlct Hrem)
      as (d1 & Hdupd & Hdcv1 & Hdwf1 & Hdb1 & Hdc1 & Hdp1 & Hdtk & _).
    rewrite Hdc0, Hdcv0, Hdp0' in Hdupd.
    rewrite Hdc0, Hdcv0 in Hdcv1.
    assert (chunks_at (concat EO ++ fo) 0 q = EO) as Hch.
    { pose proof (chunks_at_concat [] fo EO HEO) as Hx.
      rewrite HlEO in Hx. exact Hx. }
    rewrite Hch, Hinv in Hdupd. rewrite Hch, Hinv in Hdcv1.
    cbn [fst snd] in Hdupd, Hdcv1.
    rewrite Hcc in Hdupd.
    pose proof (final_stream_spec d1 key rem Hdwf1
                  ltac:(rewrite Hdc1, Hdc0; exact Hfd1)
                  ltac:(rewrite Hdc1, Hdc0; exact Hfd2) Hdb1 ltac:(lia))
      as Hdfin.
    replace (q * bs)%nat with (length (concat EO)) in Hdtk
      by (rewrite length_concat_blocks by assumption; lia).
    rewrite drop_app_length in Hdtk.
    rewrite Hdtk, Hdcv1 in Hdfin. fold ks in Hdfin.
    unfold fo in Hdfin. rewrite xorm_twice in Hdfin by (assumption || lia).
    pose proof (run_single_results decK key iv _ d0 d1 _ _ Hdinit Hdupd
                  Hdfin) as Hdec.
    eexists _, _, _, _. split; [exact Henc|]. split; [exact Hdec|].
    exact Hsplit.
Qed.

End Steps.

(** With a single [update] each way: for a block cipher whose single-block
    functions are inverse to each other and whose blocks have fewer than 256
    bytes, in each of the five modes, [update] and [final] of an encryptor
    return for a buffer of bytes, and [update] and [final] of the decipher
    with the same key and IV, fed in one [update] what the encryptor
    returned, return as well, neither throwing, and return that buffer
    between them. *)
Theorem single_update_round_trip {BC : Modes.BlockCtx} (m : Modes.mode)
    (key : list Z) (iv : option (list Z)) (pt : list Z) :
  Modes.block_ctx_ok -> Modes.key_ok key = true ->
  Modes.iv_ok (Modes.cipher_class m) iv -> is_bytes pt ->
  exists c1 c2 d1 d2,
    (Modes.run (Modes.cipher_class m) key iv [pt]).1 = ([Ok c1], Ok c2) /\
    (Modes.run (Modes.decipher_class m) key iv [c1 ++ c2]).1
      = ([Ok d1], Ok d2) /\
    d1 ++ d2 = pt.
Proof.
  intros Hok. apply (round_trip Hok (Z.to_nat Modes.blockSize)).
  pose proof (Modes.bs_pos Hok). lia.
Qed.

Lemma ctx4_ok : @Modes.block_ctx_ok Toy.ctx4.
Proof.
  split; simpl.
  - lia.
  - lia.
  - intros key b Hb. unfold blen in *. rewrite length_map. exact Hb.
  - intros key b Hb. unfold blen in *. rewrite length_map. exact Hb.
  - intros key b _ Hb _. rewrite map_map. rewrite <- (map_id b) at 2.
    apply map_ext_Forall. unfold is_bytes in Hb.
    eapply Forall_impl; [exact Hb|]. intros x Hx. simpl.
    rewrite Zplus_mod_idemp_l.
    replace (x + 1 + 255) with (x + 1 * 256) by ring.
    rewrite Z.mod_add by lia. apply Z.mod_small. exact Hx.
Qed.

(** [single_update_round_trip] on four-byte blocks: one whole block
    through CBC and back, where [final] of the decipher returns no byte. *)
Lemma single_update_round_trip_witness :
  exists c1 c2 d1 d2,
    (@Modes.run Toy.ctx4 Modes.CBCCipher [1] (Some [9; 9; 9; 9])
       [[1; 2; 3; 4]]).1 = ([Ok c1], Ok c2) /\
    (@Modes.run Toy.ctx4 Modes.CBCDecipher [1] (Some [9; 9; 9; 9])
       [c1 ++ c2]).1 = ([Ok d1], Ok d2) /\
    d1 ++ d2 = [1; 2; 3; 4].
Proof.
  apply (@single_update_round_trip Toy.ctx4 Modes.CBC_mode [1]
           (Some [9; 9; 9; 9]) [1; 2; 3; 4] ctx4_ok).
  - reflexivity.
  - reflexivity.
  - repeat constructor; lia.
Defined.

(** ** Verification never throws *)

Section VerifyFacts.
Context {C : Curve} {H : Hash} {R : Rng}.


Lemma try_or_false_throw (body : result bool) (e : string) :
  body = Throw e -> try_or_false body = Ok false.
Proof. intros ->. reflexivity. Qed.

(** C8: an empty batch verifies, in EdDSA (for [ph] and [ctx] that pass the
    assertions of [batchVerify], in particular when both are absent) and in
    Schnorr. *)
Theorem empty_batch_verifies (rng : rng_state) :
  EDDSA.batchVerify rng [] None None = Ok true /\
  (forall ph ctx, EDDSA.check_args ph ctx = Ok tt ->
     EDDSA.batchVerify rng [] ph ctx = Ok true) /\
  EDDSA._batchVerify rng [] None None = Ok true /\
  Schnorr.batchVerify rng [] = Ok true /\
  Schnorr._batchVerify rng [] = Ok true.
Proof.
  assert (forall ph ctx, EDDSA.check_args ph ctx = Ok tt ->
            EDDSA.batchVerify rng [] ph ctx = Ok true) as Hall.
  { intros ph ctx Hargs. unfold EDDSA.batchVerify. rewrite Hargs.
    reflexivity. }
  repeat split; try reflexivity; try assumption.
  apply Hall. unfold EDDSA.check_args. simpl.
  rewrite andb_false_r. reflexivity.
Qed.


Lemma slice_from_length_eq (b : list Z) (n : Z) :
  blen b = n * 2 -> slice_from b n = slice b (blen b - n) (blen b).
Proof.
  unfold slice_from, slice, rel_index, blen. intros Hn.
  repeat case_decide; try lia.
  replace (Z.min (Z.of_nat (length b) - n) (Z.of_nat (length b)))
    with (Z.min n (Z.of_nat (length b))) by lia.
  reflexivity.
Qed.

Lemma slice_from_app (a b : list Z) (n : Z) :
  blen a = n -> slice_from (a ++ b) n = b.
Proof.
  unfold slice_from, slice, rel_index, blen. intros Hn.
  rewrite length_app in *. repeat case_decide; try lia.
  replace (Z.to_nat (Z.min n (Z.of_nat (length a + length b))))
    with (length a) by lia.
  rewrite drop_app_length. apply take_ge. lia.
Qed.

(** C5: with [ph] and [ctx] that pass the argument assertions, [verify]
    returns [false] for every signature whose trailing [size] bytes decode to
    an integer [S >= n]; in particular for [Rraw ++ Sraw'] when [Sraw']
    decodes to [S + n] for the [S >= 0] of a signature [Rraw ++ Sraw]. *)
Theorem verify_rejects_large_S (msg key : list Z) (ph : option bool)
    (ctx : option (list Z)) :
  EDDSA.check_args ph ctx = Ok tt ->
  (forall sig S,
     decodeInt (slice sig (blen sig - EDDSA.size) (blen sig)) = Ok S ->
     S >= curve_n ->
     EDDSA.verify msg sig key ph ctx = Ok false) /\
  (forall Rraw Sraw Sraw' S,
     blen Rraw = EDDSA.size ->
     decodeInt Sraw = Ok S -> 0 <= S ->
     blen Sraw' = blen Sraw ->
     decodeInt Sraw' = Ok (S + curve_n) ->
     EDDSA.verify msg (Rraw ++ Sraw') key ph ctx = Ok false).
Proof.
  intros Hargs.
  assert (forall sig S, decodeInt (slice_from sig EDDSA.size) = Ok S ->
            S >= curve_n -> EDDSA.verify msg sig key ph ctx = Ok false)
    as Hmain.
  { intros sig S HS Hge. unfold EDDSA.verify. rewrite Hargs. simpl.
    repeat case_bool_decide; try reflexivity.
    unfold EDDSA._verify. unfold_bind.
    destruct (decodePoint (slice sig 0 EDDSA.size)); [|reflexivity].
    rewrite HS. destruct (decodePoint key); [|reflexivity].
    rewrite bool_decide_true by assumption. reflexivity. }
  split.
  - intros sig S HS Hge.
    destruct (decide (blen sig = EDDSA.size * 2)) as [Hlen | Hlen].
    + apply (Hmain sig S); [|assumption].
      rewrite slice_from_length_eq; assumption.
    + unfold EDDSA.verify. rewrite Hargs. simpl.
      rewrite bool_decide_true by assumption. reflexivity.
  - intros Rraw Sraw Sraw' S HR HS HS0 Hlen HS'.
    apply (Hmain _ (S + curve_n)); [|lia].
    rewrite slice_from_app; assumption.
Qed.

End VerifyFacts.



(** [verify_rejects_large_S] on the integers modulo 7: the signature
    [3; 5] of the scalar 5 becomes [3; 12]. *)
Lemma verify_rejects_large_S_witness :
  @EDDSA.verify Toy.curve7 Toy.hash_sum [1; 2; 3] [3; 12] [1] None None
  = Ok false /\
  @EDDSA.verify Toy.curve7 Toy.hash_sum [1; 2; 3] ([3] ++ [12]) [1] None None
  = Ok false.
Proof.
  pose proof (@verify_rejects_large_S Toy.curve7 Toy.hash_sum
                [1; 2; 3] [1] None None eq_refl) as [H1 H2].
  split.
  - apply (H1 [3; 12] 12); [reflexivity | vm_compute; discriminate].
  - apply (H2 [3] [5] [12] 5); try reflexivity. lia.
Defined.

(** ** Scalar blinding *)

Section Blinding.

Lemma prime_7 : Z.prime 7.
Proof.
  split; [lia|]. intros m Hm [k Hk].
  assert (m = 2 \/ m = 3 \/ m = 4 \/ m = 5 \/ m = 6) as Hcases by lia.
  destruct Hcases as [-> | [-> | [-> | [-> | ->]]]]; lia.
Qed.

(** [finvm] is an inverse modulo a prime. *)
Lemma finvm_inverse (N b : Z) :
  Z.prime N -> 1 <= b < N -> (b * finvm b N) mod N = 1.
Proof.
  intros HN Hb. unfold finvm.
  assert (2 <= N) as HN2 by (destruct HN; lia).
  rewrite Zmult_mod_idemp_r.
  replace (b * b ^ (N - 2)) with (b ^ (N - 1)).
  - apply Z.fermat_nz; [assumption|].
    rewrite Z.mod_small by lia. lia.
  - replace (N - 1) with (Z.succ (N - 2)) by lia.
    rewrite Z.pow_succ_r by lia. reflexivity.
Qed.

(** Undoing the blinding: the arithmetic shared by EdDSA and Schnorr. *)
Lemma unblind (N r h a b : Z) :
  Z.prime N -> 1 <= b < N ->
  (((((r * b) mod N) + ((((h * b) mod N) * a) mod N)) mod N) * finvm b N)
    mod N = (r + h * a) mod N.
Proof.
  intros HN Hb. pose proof (finvm_inverse N b HN Hb) as Hinv.
  rewrite <- Zplus_mod, Zmult_mod_idemp_l.
  replace ((r * b + (h * b) mod N * a) * finvm b N)
    with ((h * b) mod N * (a * finvm b N) + r * b * finvm b N) by ring.
  rewrite <- Zplus_mod_idemp_l, Zmult_mod_idemp_l, Zplus_mod_idemp_l.
  replace (h * b * (a * finvm b N) + r * b * finvm b N)
    with ((r + h * a) * (b * finvm b N)) by ring.
  rewrite <- Zmult_mod_idemp_r, Hinv, Z.mul_1_r. reflexivity.
Qed.

Context {C : Curve} {H : Hash} {R : Rng}.

(** C4: for a group order [n] that is prime and a blinding factor
    [1 <= b < n], the blinded computation gives [(r + h * a) mod n] in
    EdDSA and [(k + e * a) mod n] in Schnorr; so with a random source that
    draws within the range it is asked for, [signWithScalar] and Schnorr
    [sign] return what the unblinded signing of the specification
    returns. *)
Theorem blinding_is_transparent :
  Z.prime curve_n -> rng_in_range ->
  (forall r h a b, 1 <= b < curve_n ->
     EDDSA.blinded_S curve_n r h a b = (r + h * a) mod curve_n) /\
  (forall k e a b, 1 <= b < curve_n ->
     Schnorr.blinded_S curve_n k e a b = (k + e * a) mod curve_n) /\
  (forall rng msg scalar nonce ph ctx,
     EDDSA.signWithScalar rng msg scalar nonce ph ctx =
     EDDSA.signWithScalar_unblinded rng msg scalar nonce ph ctx) /\
  (forall rng msg key,
     Schnorr.sign rng msg key = Schnorr.sign_unblinded rng msg key).
Proof.
  intros HN Hrng.
  assert (forall r h a b, 1 <= b < curve_n ->
            EDDSA.blinded_S curve_n r h a b = (r + h * a) mod curve_n) as HE
    by (intros; apply unblind; assumption).
  assert (forall k e a b, 1 <= b < curve_n ->
            Schnorr.blinded_S curve_n k e a b = (k + e * a) mod curve_n) as HS
    by (intros; apply unblind; assumption).
  repeat split; try assumption.
  - intros rng msg scalar nonce ph ctx.
    unfold EDDSA.signWithScalar, EDDSA.signWithScalar_unblinded.
    unfold_bind.
    repeat match goal with
    | |- match ?x with _ => _ end = match ?x with _ => _ end =>
        destruct x eqn:?; try reflexivity
    end.
    match goal with p : (Z * rng_state)%type |- _ => destruct p as [b rng'] end.
    rewrite HE by eauto. reflexivity.
  - intros rng msg key.
    unfold Schnorr.sign, Schnorr.sign_unblinded.
    unfold_bind.
    repeat match goal with
    | |- match ?x with _ => _ end = match ?x with _ => _ end =>
        destruct x eqn:?; try reflexivity
    | |- (if ?x then _ else _) = (if ?x then _ else _) =>
        destruct x eqn:?; try reflexivity
    end;
    match goal with p : (Z * rng_state)%type |- _ => destruct p as [b rng'] end;
    rewrite HS by eauto; reflexivity.
Qed.

End Blinding.

Lemma rng_counter_in_range : @rng_in_range Toy.rng_counter.
Proof.
  intros s lo hi v s'. simpl. case_bool_decide; [|discriminate].
  intros Heq. inversion Heq; subst.
  pose proof (Z.mod_pos_bound s (hi - lo)). lia.
Qed.

(** [blinding_is_transparent] on the integers modulo 7. *)
Lemma blinding_is_transparent_witness :
  @EDDSA.blinded_S 7 3 4 5 2 = (3 + 4 * 5) mod 7 /\
  @Schnorr.blinded_S 7 3 4 5 6 = (3 + 4 * 5) mod 7 /\
  @EDDSA.signWithScalar Toy.curve7 Toy.hash_sum Toy.rng_counter
     3 [1; 2; 3] [8] [10] None None =
  @EDDSA.signWithScalar_unblinded Toy.curve7 Toy.hash_sum Toy.rng_counter
     3 [1; 2; 3] [8] [10] None None /\
  @Schnorr.sign Toy.curve7 Toy.hash_sum Toy.rng_counter 3 [2] [6] =
  @Schnorr.sign_unblinded Toy.curve7 Toy.hash_sum Toy.rng_counter 3 [2] [6].
Proof.
  pose proof (@blinding_is_transparent Toy.curve7 Toy.hash_sum
                Toy.rng_counter prime_7 rng_counter_in_range)
    as (H1 & H2 & H3 & H4).
  split; [|split; [|split]].
  - apply (H1 3 4 5 2). simpl. lia.
  - apply (H2 3 4 5 6). simpl. lia.
  - apply H3.
  - apply H4.
Defined.

(** ** Clamping does not write to its argument *)

Section ClampFacts.
Context {C : Curve} {K : Clamp}.

(** C10: when [curve.clamp] writes to no buffer but the one it is given
    and returns that buffer, [scalarClamp] leaves every buffer of the store,
    the argument among them, as it was, whether it returns or throws; on a
    clamped argument it returns the argument and changes nothing; on an
    argument that is not clamped it copies the bytes to a new buffer, has
    [curve.clamp] work on the copy, and returns the copy. *)
Theorem scalarClamp_preserves_argument (st : store) (scalar : nat)
    (bytes : list Z) :
  clamp_in_place ->
  st !! scalar = Some bytes ->
  blen bytes = curve_scalarLength ->
  (EDDSA.scalarClamp st scalar).1 !! scalar = Some bytes /\
  (forall a, a ∈ dom st ->
     (EDDSA.scalarClamp st scalar).1 !! a = st !! a) /\
  (EDDSA.scalarVerify bytes = true ->
     EDDSA.scalarClamp st scalar = (st, Ok scalar)) /\
  (EDDSA.scalarVerify bytes = false ->
     exists fresh_addr,
       st !! fresh_addr = None /\
       fresh_addr <> scalar /\
       EDDSA.scalarClamp st scalar =
         clamp (<[fresh_addr := bytes]> st) fresh_addr /\
       forall r, (EDDSA.scalarClamp st scalar).2 = Ok r -> r = fresh_addr).
Proof.
  intros [Hframe Hret] Hst Hlen.
  assert (st !! fresh (dom st) = None) as Hfresh
    by (apply not_elem_of_dom, is_fresh).
  assert (forall a, a ∈ dom st ->
            (EDDSA.scalarClamp st scalar).1 !! a = st !! a) as Hall.
  { intros a Ha. unfold EDDSA.scalarClamp. rewrite Hst.
    rewrite bool_decide_true by assumption. simpl.
    destruct (EDDSA.scalarVerify bytes); simpl; [reflexivity|].
    assert (a <> fresh (dom st)) as Hne
      by (intros ->; apply (is_fresh (dom st)); assumption).
    rewrite Hframe by assumption.
    apply lookup_insert_ne. congruence. }
  split; [|split; [|split]].
  - rewrite Hall, Hst; [reflexivity|]. apply elem_of_dom. eauto.
  - exact Hall.
  - intros Hv. unfold EDDSA.scalarClamp. rewrite Hst.
    rewrite bool_decide_true by assumption. simpl. rewrite Hv. reflexivity.
  - intros Hv. exists (fresh (dom st)).
    assert (EDDSA.scalarClamp st scalar =
              clamp (<[fresh (dom st) := bytes]> st) (fresh (dom st))) as Heq.
    { unfold EDDSA.scalarClamp. rewrite Hst.
      rewrite bool_decide_true by assumption. simpl. rewrite Hv.
      reflexivity. }
    split; [assumption|]. split; [congruence|]. split; [assumption|].
    intros r Hr. rewrite Heq in Hr. eapply Hret. eassumption.
Qed.

End ClampFacts.

Lemma clamp_low3_in_place : @clamp_in_place Toy.clamp_low3.
Proof.
  split.
  - intros st a a' Hne. simpl.
    destruct (st !! a) as [[|x r]|]; simpl; try reflexivity.
    apply lookup_insert_ne. congruence.
  - intros st a r. simpl.
    destruct (st !! a) as [[|x r']|]; simpl; congruence.
Qed.

(** [scalarClamp_preserves_argument] on a store with one buffer, [13], that
    is not clamped: the buffer stays [13]. *)
Lemma scalarClamp_preserves_argument_witness :
  (@EDDSA.scalarClamp Toy.curve7 Toy.clamp_low3 {[ 0%nat := [13] ]} 0%nat).1
    !! 0%nat = Some [13].
Proof.
  apply (@scalarClamp_preserves_argument Toy.curve7 Toy.clamp_low3
           {[ 0%nat := [13] ]} 0%nat [13] clamp_low3_in_place).
  - reflexivity.
  - reflexivity.
Defined.

(** ** A signature verifies under the public key of its seed *)

Section SignVerify.
Context {C : Curve} {H : Hash} {R : Rng}.
Hypothesis facade : eddsa_facade_ok.

Lemma curve_n_gt_1 : 1 < curve_n.
Proof. destruct (ok_n_prime facade). assumption. Qed.

Lemma update_all_total (h : hash_state) (items : list (list Z)) :
  exists h', EDDSA.update_all h items = Ok h'.
Proof.
  revert h. induction items as [|item rest IH]; intros h; simpl; [eauto|].
  destruct (ok_hash_update facade h item) as [h' ->]. simpl. apply IH.
Qed.

Lemma hashInt_total (ph : option bool) (ctx : option (list Z))
    (items : list (list Z)) :
  EDDSA.check_args ph ctx = Ok tt ->
  exists v, EDDSA.hashInt ph ctx items = Ok v /\ 0 <= v < curve_n.
Proof.
  pose proof curve_n_gt_1 as Hn.
  unfold EDDSA.check_args, EDDSA.hashInt. unfold_bind.
  destruct (EDDSA.ctx_len_ok ctx); simpl; [|discriminate].
  intros Hargs.
  destruct (ok_hash_init facade) as [h0 ->].
  assert (exists h1,
    (if curve_context || bool_decide (is_Some ph)
     then match hash_update h0 curve_prefix with
          | Ok a =>
              match hash_update a (bset [0] 0 (EDDSA.ph_byte ph)) with
              | Ok a0 =>
                  match ctx with
                  | Some c =>
                      match hash_update a0 (bset [0] 0 (blen c)) with
                      | Ok a1 => hash_update a1 c
                      | Throw e => Throw e
                      end
                  | None => hash_update a0 (bset [0] 0 0)
                  end
              | Throw e => Throw e
              end
          | Throw e => Throw e
          end
     else match assert_msg (bool_decide (ctx = None))
                  "Must pass pre-hash flag with context." with
          | Ok _ => Ok h0
          | Throw e => Throw e
          end) = Ok h1) as [h1 ->].
  { destruct (curve_context || bool_decide (is_Some ph)) eqn:Hc.
    - destruct (ok_hash_update facade h0 curve_prefix) as [h1 ->].
      destruct (ok_hash_update facade h1 (bset [0] 0 (EDDSA.ph_byte ph)))
        as [h2 ->].
      destruct ctx as [c|].
      + destruct (ok_hash_update facade h2 (bset [0] 0 (blen c))) as [h3 ->].
        apply (ok_hash_update facade).
      + apply (ok_hash_update facade).
    - apply orb_false_iff in Hc as [Hc1 Hc2]. rewrite Hc1 in Hargs.
      simpl in Hargs. destruct ctx as [c|].
      + rewrite bool_decide_true in Hargs by discriminate.
        apply bool_decide_eq_false in Hc2.
        destruct ph as [b|]; [exfalso; apply Hc2; eauto|].
        simpl in Hargs. discriminate.
      + simpl. eauto. }
  destruct (update_all_total h1 items) as [h2 ->].
  destruct (ok_hash_final facade h2 (Some (EDDSA.size * 2))) as [d ->].
  destruct (ok_BN_decode facade d) as [v ->].
  eexists. split; [reflexivity|]. apply Z.mod_pos_bound. lia.
Qed.

Lemma dbl_loop_same (i : nat) (P : point) :
  exists Q, EDDSA.dbl_loop i P P = Ok (Q, Q).
Proof.
  revert P. induction i as [|i IH]; intros P; simpl; [eauto|].
  destruct (ok_dbl facade P) as [Q ->]. simpl. apply IH.
Qed.

Lemma slice_app_prefix (a b : list Z) (n : Z) :
  blen a = n -> slice (a ++ b) 0 n = a.
Proof.
  unfold slice, rel_index, blen. intros Hn.
  rewrite length_app. repeat case_decide; try lia.
  match goal with
  | |- take (Z.to_nat ?x) (drop (Z.to_nat ?y) _) = _ =>
      replace (Z.to_nat x) with (length a) by lia;
      replace (Z.to_nat y) with 0%nat by lia
  end.
  rewrite drop_0, take_app_length. reflexivity.
Qed.

(** C1: with interfaces that keep their contract, a seed of [size] bytes
    and [ph], [ctx] that pass the argument assertions, [sign] returns a
    signature, [publicKeyCreate] returns a key, and [verify] of the message,
    that signature and that key returns [true]. *)
Theorem sign_then_verify (rng : rng_state) (msg secret : list Z)
    (ph : option bool) (ctx : option (list Z)) :
  EDDSA.check_args ph ctx = Ok tt ->
  blen secret = EDDSA.size ->
  exists sig rng' pub,
    EDDSA.sign rng msg secret ph ctx = Ok (sig, rng') /\
    EDDSA.publicKeyCreate secret = Ok pub /\
    EDDSA.verify msg sig pub ph ctx = Ok true.
Proof.
  intros Hargs Hsecret. pose proof curve_n_gt_1 as Hn.
  destruct (ok_digest facade secret (EDDSA.size * 2)) as [d Hd].
  destruct (ok_splitHash facade secret d Hd)
    as (key & nonce & a & Hsplit & Hnonce & Ha).
  destruct (ok_mul_g facade a) as (PA & Ab & HPA & HAb & HAlen & HAdec).
  destruct (hashInt_total ph ctx [nonce; msg] Hargs) as (r & Hr & Hrn).
  destruct (ok_mul_g facade r) as (PR & Rb & HPR & HRb & HRlen & HRdec).
  destruct (hashInt_total ph ctx [Rb; Ab; msg] Hargs) as (h & Hh & Hhn).
  destruct (ok_random facade rng 1 curve_n Hn) as (b & rng' & Hb & Hbn).
  pose proof (unblind curve_n r h a b (ok_n_prime facade) Hbn) as HS.
  assert (0 <= (r + h * a) mod curve_n < curve_n) as HSn
    by (apply Z.mod_pos_bound; lia).
  destruct (ok_encodeInt facade _ HSn) as (Sb & HSb & HSlen & HSdec).
  destruct (ok_mul_g facade (r + h * a)) as (L & Lb & HL & _).
  destruct (dbl_loop_same (Z.to_nat curve_hc) L) as [Q HQ].
  exists (Rb ++ Sb), rng', Ab. split; [|split].
  - unfold EDDSA.sign, EDDSA.hashKey, EDDSA.signWithScalar. unfold_bind.
    rewrite bool_decide_true by assumption. simpl.
    step Hd. step Hsplit. rewrite bool_decide_true by assumption. simpl.
    step Ha. rewrite (ok_mulBlind facade). step HPA. step HAb. step Hr.
    rewrite (ok_mulBlind facade). step HPR. step HRb. step Hh. step Hb.
    unfold EDDSA.blinded_S. rewrite HS. step HSb. reflexivity.
  - unfold EDDSA.publicKeyCreate, EDDSA.privateKeyConvert, EDDSA.hashKey,
      EDDSA.publicKeyFromScalar. unfold_bind.
    rewrite bool_decide_true by assumption. simpl.
    step Hd. step Hsplit. step Ha.
    rewrite (ok_mulBlind facade), (ok_mul_mod facade). step HPA.
    assumption.
  - unfold EDDSA.verify. rewrite Hargs. simpl.
    rewrite bool_decide_false
      by (unfold blen in *; rewrite length_app; unfold EDDSA.size; lia).
    rewrite bool_decide_false by (unfold EDDSA.size; lia).
    unfold EDDSA._verify. unfold_bind.
    rewrite slice_app_prefix by assumption.
    rewrite slice_from_app by assumption.
    step HRdec. step HSdec. step HAdec.
    rewrite bool_decide_false by lia.
    step Hh. rewrite (ok_mul_mod facade). step HL.
    rewrite (ok_mul_mul facade a PA h HPA).
    destruct (ok_mul_g facade (a * h)) as (PAh & ? & HPAh & _).
    step HPAh.
    rewrite (ok_add facade r (a * h) PR PAh HPR HPAh).
    replace (r + a * h) with (r + h * a) by ring.
    step HL. step HQ. rewrite (ok_eq_refl facade). reflexivity.
Qed.

End SignVerify.

Lemma toy_facade_ok :
  @eddsa_facade_ok Toy.curve7 Toy.hash_sum Toy.rng_counter.
Proof.
  split; simpl.
  - exact prime_7.
  - eauto.
  - intros data d Hd. inversion Hd; subst.
    do 3 eexists. split; [reflexivity|]. split; reflexivity.
  - eauto.
  - eauto.
  - eauto.
  - eauto.
  - intros s lo hi Hlt. rewrite bool_decide_true by assumption.
    do 2 eexists. split; [reflexivity|].
    pose proof (Z.mod_pos_bound s (hi - lo)). lia.
  - intros k. do 2 eexists. split; [reflexivity|]. split; [reflexivity|].
    split; [reflexivity|]. unfold_bind. simpl.
    rewrite bool_decide_true; [reflexivity|]. apply Z.mod_pos_bound. lia.
  - reflexivity.
  - intros k. f_equal. rewrite Zmult_mod_idemp_r. reflexivity.
  - intros a A h HA. inversion HA; subst. f_equal.
    rewrite Zmult_mod_idemp_l. f_equal. ring.
  - intros x y X Y HX HY. inversion HX; inversion HY; subst. f_equal.
    rewrite <- Zplus_mod. f_equal. ring.
  - eauto.
  - intros P. rewrite bool_decide_true; reflexivity.
  - intros S HS. unfold Toy.encode1.
    rewrite bool_decide_true by lia. eexists. split; [reflexivity|].
    split; reflexivity.
Qed.

(** [sign_then_verify] on the integers modulo 7, with the seed [9] and the
    message [1; 2; 3]. *)
Lemma sign_then_verify_witness :
  exists sig rng' pub,
    @EDDSA.sign Toy.curve7 Toy.hash_sum Toy.rng_counter 3 [1; 2; 3] [9]
      None None = Ok (sig, rng') /\
    @EDDSA.publicKeyCreate Toy.curve7 Toy.hash_sum [9] = Ok pub /\
    @EDDSA.verify Toy.curve7 Toy.hash_sum [1; 2; 3] sig pub None None
      = Ok true.
Proof.
  apply (@sign_then_verify Toy.curve7 Toy.hash_sum Toy.rng_counter
           toy_facade_ok 3 [1; 2; 3] [9] None None).
  - reflexivity.
  - reflexivity.
Defined.

(** ** The counter of CTR *)

Lemma be_value_snoc (b : list Z) (x : Z) :
  be_value (b ++ [x]) = be_value b * 256 + x.
Proof. unfold be_value. rewrite foldl_app. reflexivity. Qed.

Lemma be_value_bound (b : list Z) :
  is_bytes b -> 0 <= be_value b < 256 ^ Z.of_nat (length b).
Proof.
  induction b as [|x b IH] using rev_ind; intros Hb.
  - simpl. unfold be_value. simpl. lia.
  - apply Forall_app in Hb as [Hb Hx]. apply Forall_inv in Hx.
    specialize (IH Hb). rewrite be_value_snoc, length_app. simpl.
    replace (Z.of_nat (length b + 1)) with (Z.of_nat (length b) + 1) by lia.
    rewrite Z.pow_add_r by lia. lia.
Qed.

(** The loop of [_increment] from index [length pre - 1] down rewrites
    [pre] and leaves what follows it alone. *)
Lemma increment_from_prefix (pre suf : list Z) :
  is_bytes pre ->
  exists pre',
    Modes.increment_from (length pre) (pre ++ suf) = pre' ++ suf /\
    length pre' = length pre /\ is_bytes pre' /\
    be_value pre' = (be_value pre + 1) mod 256 ^ Z.of_nat (length pre).
Proof.
  revert suf. induction pre as [|x p IH] using rev_ind; intros suf Hb.
  - exists []. simpl. split; [reflexivity|]. split; [reflexivity|].
    split; [constructor|]. reflexivity.
  - apply Forall_app in Hb as [Hp Hx]. apply Forall_inv in Hx.
    pose proof (be_value_bound p Hp) as Hbound.
    rewrite length_app. simpl length.
    replace (length p + 1)%nat with (Datatypes.S (length p)) by lia.
    cbn [Modes.increment_from].
    assert (bget ((p ++ [x]) ++ suf) (Z.of_nat (length p)) = x) as Hget.
    { unfold bget. rewrite decide_True by lia. rewrite Nat2Z.id.
      rewrite <- app_assoc. rewrite lookup_app_r by lia.
      rewrite Nat.sub_diag. reflexivity. }
    assert (forall v, bset ((p ++ [x]) ++ suf) (Z.of_nat (length p)) v =
                      p ++ [Z.land v 255] ++ suf) as Hset.
    { intros v. unfold bset. rewrite decide_True by lia. rewrite Nat2Z.id.
      rewrite <- app_assoc. rewrite insert_app_r_alt by lia.
      rewrite Nat.sub_diag. reflexivity. }
    rewrite Hget, !Hset.
    replace (Z.of_nat (Datatypes.S (length p)))
      with (Z.of_nat (length p) + 1) by lia.
    rewrite Z.pow_add_r by lia. change (256 ^ 1) with 256.
    case_decide as H255.
    + destruct (IH ([Z.land 0 255] ++ suf) Hp) as (p' & -> & Hl & Hb' & Hv).
      exists (p' ++ [0]). rewrite <- app_assoc.
      split; [reflexivity|]. split; [rewrite !length_app; simpl; lia|].
      split; [apply Forall_app; split; [exact Hb'|repeat constructor; lia]|].
      rewrite !be_value_snoc, Hv. subst x.
      replace (be_value p * 256 + 255 + 1) with ((be_value p + 1) * 256)
        by ring.
      rewrite Z.mul_mod_distr_r by lia. lia.
    + exists (p ++ [x + 1]).
      assert (Z.land (x + 1) 255 = x + 1) as ->.
      { change 255 with (Z.ones 8). rewrite Z.land_ones by lia.
        apply Z.mod_small. lia. }
      rewrite <- app_assoc. split; [reflexivity|].
      split; [rewrite !length_app; simpl; lia|].
      split; [apply Forall_app; split; [exact Hp|repeat constructor; lia]|].
      rewrite !be_value_snoc.
      rewrite Z.mod_small by lia. ring.
Qed.

(** [CTR._increment] adds one to the counter read as a number, most
    significant byte first, and wraps around at 256 to the power of its
    length; the counter keeps its length and stays a buffer of bytes. *)
Theorem increment_adds_one (c : Modes.Cipher) :
  is_bytes (Modes.ctr c) ->
  let c' := Modes._increment c in
  be_value (Modes.ctr c') =
    (be_value (Modes.ctr c) + 1) mod 256 ^ blen (Modes.ctr c) /\
  blen (Modes.ctr c') = blen (Modes.ctr c) /\
  is_bytes (Modes.ctr c').
Proof.
  intros Hb.
  destruct (increment_from_prefix (Modes.ctr c) [] Hb)
    as (p' & Hinc & Hl & Hb' & Hv).
  rewrite !app_nil_r in Hinc.
  unfold Modes._increment. cbn [Modes.ctr Modes.set_ctr].
  rewrite Hinc. unfold blen. rewrite Hl. auto.
Qed.

(** [increment_adds_one] on a counter that carries into its third byte. *)
Lemma increment_adds_one_witness :
  let c := Modes.set_ctr (@Modes.new Toy.ctx4 Modes.CTRCipher)
             [0; 1; 255; 255] in
  be_value (Modes.ctr (Modes._increment c)) = 131072 /\
  Modes.ctr (Modes._increment c) = [0; 2; 0; 0].
Proof.
  intros c. split; [|reflexivity].
  assert (is_bytes (Modes.ctr c)) as Hb by (repeat constructor; lia).
  exact (proj1 (increment_adds_one c Hb)).
Defined.

(** ** Runs that return *)

Section Returns.
Import Modes.
Context {BC : BlockCtx}.

Lemma updates_snoc c chunks chunk :
  updates c (chunks ++ [chunk]) =
  ((update (updates c chunks).1 chunk).1,
   (updates c chunks).2 ++ [(update (updates c chunks).1 chunk).2]).
Proof.
  unfold updates. rewrite foldl_app. cbn [foldl].
  destruct (foldl _ _ chunks) as [c1 acc]. cbn [fst snd].
  destruct (update c1 chunk) as [c2 r]. reflexivity.
Qed.

Lemma run_updates k key iv chunks :
  run k key iv chunks =
  let r := updates (init (new k) key iv).1 chunks in
  (r.2, (final r.1).2, (final r.1).1).
Proof.
  unfold run, updates. cbv zeta.
  destruct (foldl _ _ chunks) as [c1 acc]. cbn [fst snd].
  destruct (final c1) as [c2 r]. reflexivity.
Qed.

(** On an initialised object every [update] of a row returns, and [bpos]
    follows the number of bytes fed modulo the block size. *)
Lemma updates_ready c chunks bs key :
  ready c bs key ->
  exists c' outs,
    updates c chunks = (c', Ok <$> outs) /\
    length outs = length chunks /\
    ready c' bs key /\ cls c' = cls c /\
    bpos c' = (bpos c + blen (concat chunks)) mod bs.
Proof.
  intros Hr. induction chunks as [|chunk chunks IH] using rev_ind.
  - exists c, []. split; [reflexivity|]. split; [reflexivity|].
    split; [exact Hr|]. split; [reflexivity|].
    destruct Hr as (_ & Hb & _). simpl. unfold blen. simpl.
    rewrite Z.add_0_r, Z.mod_small by lia. reflexivity.
  - destruct IH as (c1 & outs & Hupd & Hlen & Hr1 & Hcls & Hbpos).
    destruct (update_returns c1 chunk bs key Hr1)
      as (c2 & out & Hu & _ & Hr2 & Hb2 & Hc2 & _).
    exists c2, (outs ++ [out]).
    rewrite updates_snoc, Hupd. cbn [fst snd]. rewrite Hu. cbn [fst snd].
    rewrite fmap_app. split; [reflexivity|].
    split; [rewrite !length_app; simpl; lia|].
    split; [exact Hr2|]. split; [congruence|].
    rewrite Hb2, Hbpos, concat_app, blen_app. simpl concat.
    rewrite app_nil_r. rewrite Zplus_mod_idemp_l. f_equal. ring.
Qed.

(** With a key the context accepts and the IV the class asks for, no
    [update] of a run throws, however the input is cut into chunks; and
    [final] of an encryptor returns one block, [final] of a stream-mode
    object as many bytes as the whole input leaves modulo the block
    size. *)
Theorem run_returns (k : klass) (key : list Z) (iv : option (list Z))
    (chunks : list (list Z)) :
  0 < blockSize -> key_ok key = true -> iv_ok k iv ->
  exists outs,
    (run k key iv chunks).1.1 = Ok <$> outs /\
    length outs = length chunks /\
    (family_of k <> BlockDecipher ->
     exists out,
       (run k key iv chunks).1.2 = Ok out /\
       blen out = match family_of k with
                  | BlockCipher => blockSize
                  | _ => blen (concat chunks) mod blockSize
                  end).
Proof.
  intros Hbs Hkey Hiv.
  destruct (init_ready k key iv Hbs Hkey Hiv)
    as (c0 & Hinit & Hr0 & Hb0 & Hc0 & _).
  destruct (updates_ready c0 chunks blockSize key Hr0)
    as (c1 & outs & Hupd & Hlen & Hr1 & Hc1 & Hb1).
  exists outs. rewrite run_updates, Hinit. cbv zeta. cbn [fst snd].
  rewrite Hupd. cbn [fst snd].
  split; [reflexivity|]. split; [exact Hlen|].
  intros Hfam.
  destruct (final_returns c1 blockSize key Hr1) as (out & Hfin & Hl);
    [congruence|].
  exists out. split; [exact Hfin|].
  rewrite Hl, Hc1, Hc0, Hb1, Hb0. rewrite Z.add_0_l. reflexivity.
Qed.

Lemma update_empty_at_0 c :
  bpos c = 0 -> 0 < blen (block c) -> (update c []).2 = Ok [].
Proof.
  intros Hb Hbs. unfold update. rewrite Hb.
  rewrite (decide_False (P := 0 = -1)) by lia.
  change (blen []) with 0.
  rewrite Z.rem_0_l by lia. change (0 + 0) with 0.
  rewrite Z.rem_0_l by lia.
  rewrite (decide_False (P := 0 > 0)) by lia.
  rewrite (decide_False (P := 0 <> 0)) by lia.
  change (Z.to_nat 0) with 0%nat. cbn [update_loop].
  rewrite (decide_False (P := 0 >= blen (block c))) by lia.
  rewrite (decide_False (P := 0 > 0)) by lia.
  change (allocUnsafe (0 - 0)) with (@nil Z).
  destruct (padding (set_bpos c 0)); cbn [negb snd]; [|reflexivity].
  unfold slice. rewrite drop_nil, take_nil. reflexivity.
Qed.

(** [init] leaves the object as it is when the context refuses the key;
    when the context accepts the key and the IV has the wrong length,
    [init] throws with [bpos] already at 0 and the context keyed, so
    that [update] no longer refuses the object as not initialised. *)
Theorem init_failures (k : klass) (key : list Z) (iv : option (list Z)) :
  (key_ok key = false ->
     forall c, exists e, init c key iv = (c, Throw e)) /\
  (key_ok key = true -> 0 < blockSize -> ~ iv_ok k iv ->
     exists c e,
       init (new k) key iv = (c, Throw e) /\
       bpos c = 0 /\ ctx c = CtxReady key /\
       (update c []).2 = Ok []).
Proof.
  split.
  - intros Hkey c. unfold init, ctx_init. rewrite Hkey. eauto.
  - intros Hkey Hbs Hiv. unfold iv_ok in Hiv.
    assert (blen (allocUnsafe blockSize) = blockSize) as Halloc
      by (rewrite blen_allocUnsafe; lia).
    unfold init, ctx_init. rewrite Hkey. unfold _init, blockSize_of.
    destruct k;
      cbn [new cls family_of set_ctx set_bpos set_last chain block] in *;
      rewrite ?Halloc;
      (rewrite bool_decide_false by exact Hiv);
      do 2 eexists; (split; [reflexivity|]);
      (split; [reflexivity|]); (split; [reflexivity|]);
      (apply update_empty_at_0;
         [ reflexivity
         | cbn [bpos block set_bpos set_ctx set_last new]; lia ]).
Qed.

End Returns.

(** [run_returns] on four-byte blocks: three chunks of seven bytes in all
    through CFB. *)
Lemma run_returns_witness :
  exists outs,
    (@Modes.run Toy.ctx4 Modes.CFBCipher [1] (Some [9; 9; 9; 9])
       [[1; 2]; []; [3; 4; 5; 6; 7]]).1.1 = Ok <$> outs /\
    length outs = 3%nat /\
    (Modes.family_of Modes.CFBCipher <> Modes.BlockDecipher ->
     exists out,
       (@Modes.run Toy.ctx4 Modes.CFBCipher [1] (Some [9; 9; 9; 9])
          [[1; 2]; []; [3; 4; 5; 6; 7]]).1.2 = Ok out /\
       blen out = 3).
Proof.
  apply (@run_returns Toy.ctx4 Modes.CFBCipher [1] (Some [9; 9; 9; 9])
           [[1; 2]; []; [3; 4; 5; 6; 7]]).
  - simpl. lia.
  - reflexivity.
  - reflexivity.
Defined.

(** [init_failures] on four-byte blocks: CBC without an IV. *)
Lemma init_failures_witness :
  exists c e,
    @Modes.init Toy.ctx4 (@Modes.new Toy.ctx4 Modes.CBCCipher) [1] None
      = (c, Throw e) /\
    Modes.bpos c = 0 /\ Modes.ctx c = Modes.CtxReady [1] /\
    (@Modes.update Toy.ctx4 c []).2 = Ok [].
Proof.
  apply (proj2 (@init_failures Toy.ctx4 Modes.CBCCipher [1] None)).
  - reflexivity.
  - simpl. lia.
  - unfold Modes.iv_ok. simpl. unfold blen. simpl. lia.
Defined.

(** ** Chunks that end on a block boundary *)

Section Aligned.
Import Modes.
Context {BC : BlockCtx}.
Hypothesis ctx_ok : block_ctx_ok.
Variable bs : nat.
Hypothesis bs_eq : blockSize = Z.of_nat bs.

Lemma length_block_step_carry k key v b :
  length v = bs -> length b = bs ->
  length (block_step k key v b).1 = bs.
Proof.
  intros Hv Hb.
  destruct k; simpl;
    repeat first [ apply (length_encrypt_block ctx_ok bs bs_eq)
                 | apply (length_decrypt_block ctx_ok bs bs_eq)
                 | apply length_xorm
                 | rewrite length_increment_from
                 | assumption ].
Qed.

Lemma run_chunks_lengths k key v chunks :
  length v = bs -> Forall (fun b => length b = bs) chunks ->
  Forall (fun b => length b = bs) (run_chunks k key v chunks).2 /\
  length (run_chunks k key v chunks).1 = bs.
Proof.
  intros Hv Hall. revert v Hv.
  induction Hall as [|b rest Hb Hrest IH]; intros v Hv.
  - split; [constructor|exact Hv].
  - rewrite run_chunks_cons. cbn [fst snd].
    destruct (IH (block_step k key v b).1) as [IH1 IH2].
    { apply length_block_step_carry; assumption. }
    split; [|exact IH2]. constructor; [|exact IH1].
    apply (length_block_step_out ctx_ok bs bs_eq); assumption.
Qed.

Lemma chunks_at_lengths (d : list Z) (i : Z) (q : nat) :
  Forall (fun b => length b = bs) (chunks_at d i q).
Proof.
  unfold chunks_at. apply Forall_fmap, Forall_forall. intros j _. simpl.
  rewrite bs_eq, length_read_block. reflexivity.
Qed.

Lemma chunks_at_app (X Y : list Z) (qx qy : nat) :
  length X = (qx * bs)%nat -> (qy * bs <= length Y)%nat ->
  chunks_at (X ++ Y) 0 (qx + qy) = chunks_at X 0 qx ++ chunks_at Y 0 qy.
Proof.
  intros HX HY.
  set (bl := chunks_at X 0 qx ++ chunks_at Y 0 qy).
  assert (Forall (fun b => length b = bs) bl) as Hbl
    by (apply Forall_app; split; apply chunks_at_lengths).
  assert (length bl = (qx + qy)%nat) as Hlen
    by (unfold bl; rewrite length_app, !length_chunks_at; reflexivity).
  assert (concat bl ++ drop (qy * bs) Y = X ++ Y) as Hcat.
  { unfold bl. rewrite concat_app. change 0 with (Z.of_nat 0).
    rewrite !(concat_chunks_at bs bs_eq) by (simpl; lia).
    rewrite !drop_0. rewrite <- HX, firstn_all, <- app_assoc.
    rewrite take_drop. reflexivity. }
  pose proof (chunks_at_concat bs bs_eq [] (drop (qy * bs) Y) bl Hbl) as Hx.
  rewrite Hlen in Hx. simpl in Hx. rewrite Hcat in Hx. exact Hx.
Qed.

(** A row of [update] calls on an object without padding, each with a
    whole number of blocks, is [run_chunks] on the blocks of the chunks put
    together. *)
Lemma updates_aligned key chunks :
  Forall (fun a : list Z => exists q : nat, length a = (q * bs)%nat) chunks ->
  forall c,
    well_formed c key -> bpos c = 0 -> padding c = false ->
    exists c' outs (Q : nat),
      updates c chunks = (c', Ok <$> outs) /\
      length (concat chunks) = (Q * bs)%nat /\
      concat outs =
        concat (run_chunks (cls c) key (chain_value c)
                  (chunks_at (concat chunks) 0 Q)).2 /\
      chain_value c' =
        (run_chunks (cls c) key (chain_value c)
           (chunks_at (concat chunks) 0 Q)).1 /\
      well_formed c' key /\ bpos c' = 0 /\ cls c' = cls c /\
      padding c' = false.
Proof.
  induction chunks as [|a chunks IH] using rev_ind; intros Hall c Hwf Hb Hp.
  - exists c, [], 0%nat. simpl.
    do 4 (split; [reflexivity|]). split; [exact Hwf|].
    split; [exact Hb|]. split; [reflexivity|exact Hp].
  - apply Forall_app in Hall as [Hall Ha]. apply Forall_inv in Ha.
    destruct Ha as [qa Hqa].
    destruct (IH Hall c Hwf Hb Hp)
      as (c1 & outs & Q & Hupd & HQ & Hout & Hcv & Hwf1 & Hb1 & Hc1 & Hp1).
    assert (0 < bs)%nat as Hbs
      by (pose proof (bs_pos ctx_ok); lia).
    destruct (update_fresh_spec ctx_ok bs bs_eq c1 key a qa 0 Hwf1 Hb1
                ltac:(lia) Hbs)
      as (c2 & Hu & Hcv2 & Hwf2 & Hb2 & Hc2 & Hp2 & _ & _).
    rewrite Hp1 in Hu.
    eexists c2, (outs ++ [_]), (Q + qa)%nat.
    rewrite updates_snoc, Hupd. cbn [fst snd]. rewrite Hu. cbn [fst snd].
    rewrite fmap_app. split; [reflexivity|].
    rewrite !concat_app. simpl concat. rewrite !app_nil_r.
    split; [rewrite length_app; lia|].
    rewrite (chunks_at_app _ _ Q qa HQ) by lia.
    rewrite run_chunks_app. cbn [fst snd]. rewrite concat_app.
    rewrite Hout, Hc1, Hcv.
    split; [reflexivity|].
    split; [rewrite Hcv2, Hc1, Hcv; reflexivity|].
    split; [exact Hwf2|]. split; [exact Hb2|].
    split; [congruence|]. congruence.
Qed.

Lemma emitted_oks (outs : list (list Z)) (o : list Z) :
  emitted (Ok <$> outs, Ok o) = concat outs ++ o.
Proof.
  unfold emitted. cbn [fst snd]. rewrite map_app, concat_app.
  f_equal; [|simpl; apply app_nil_r].
  induction outs as [|x r IH]; [reflexivity|].
  rewrite fmap_cons. cbn [map concat]. rewrite IH. reflexivity.
Qed.

Lemma aligned_compose (k : klass) (key : list Z) (iv : option (list Z))
    (chunks : list (list Z)) (lastc : list Z) :
  family_of k <> BlockDecipher ->
  key_ok key = true -> iv_ok k iv ->
  Forall (fun a => blen a mod blockSize = 0) chunks ->
  emitted (run k key iv (chunks ++ [lastc])).1 =
  emitted (run k key iv [concat chunks ++ lastc]).1.
Proof.
  intros Hfam Hkey Hiv Hall.
  assert (0 < bs)%nat as Hbs by (pose proof (bs_pos ctx_ok); lia).
  assert (Forall (fun a : list Z => exists q : nat, length a = (q * bs)%nat)
            chunks) as Hall'.
  { eapply Forall_impl; [exact Hall|]. intros a Ha. simpl in Ha.
    exists (length a / bs)%nat. unfold blen in Ha. rewrite bs_eq in Ha.
    rewrite <- Nat2Z.inj_mod in Ha.
    pose proof (Nat.div_mod_eq (length a) bs). lia. }
  set (ql := (length lastc / bs)%nat).
  set (rem := (length lastc mod bs)%nat).
  assert (length lastc = (ql * bs + rem)%nat) as Hll.
  { unfold ql, rem. pose proof (Nat.div_mod_eq (length lastc) bs). lia. }
  assert (rem < bs)%nat as Hrem
    by (unfold rem; apply Nat.mod_upper_bound; lia).
  clearbody ql rem.
  destruct (init_spec ctx_ok bs bs_eq k key iv Hkey Hiv)
    as (c0 & Hinit & Hwf0 & Hb0 & Hc0 & Hp0 & Hcv0 & _).
  assert (padding c0 = false) as Hp0'
    by (rewrite Hp0; destruct (family_of k); congruence).
  (* the chunks one by one *)
  destruct (updates_aligned key chunks Hall' c0 Hwf0 Hb0 Hp0')
    as (c1 & outs & Q & Hupd & HQ & Hout & Hcv1 & Hwf1 & Hb1 & Hc1 & Hp1).
  destruct (update_fresh_spec ctx_ok bs bs_eq c1 key lastc ql rem Hwf1 Hb1
              Hll Hrem)
    as (c2 & Hu2 & Hcv2 & Hwf2 & Hb2 & Hc2 & _ & Htk2 & _).
  rewrite Hp1 in Hu2.
  set (o2 := concat (run_chunks (cls c1) key (chain_value c1)
                       (chunks_at lastc 0 ql)).2) in *.
  (* all at once *)
  assert (length (concat chunks ++ lastc) = ((Q + ql) * bs + rem)%nat)
    as Hlall by (rewrite length_app; lia).
  destruct (update_fresh_spec ctx_ok bs bs_eq c0 key (concat chunks ++ lastc)
              (Q + ql) rem Hwf0 Hb0 Hlall Hrem)
    as (d2 & Hv2 & Hdcv2 & Hdwf2 & Hdb2 & Hdc2 & _ & Hdtk2 & _).
  rewrite Hp0' in Hv2.
  rewrite (chunks_at_app _ _ Q ql HQ) in Hv2, Hdcv2 by lia.
  rewrite run_chunks_app in Hv2, Hdcv2. cbn [fst snd] in Hv2, Hdcv2.
  rewrite concat_app in Hv2.
  rewrite <- Hcv1, <- Hout in Hv2. rewrite <- Hcv1 in Hdcv2.
  rewrite <- Hc1 in Hv2, Hdcv2. rewrite <- Hcv2 in Hdcv2.
  fold o2 in Hv2.
  assert (drop ((Q + ql) * bs) (concat chunks ++ lastc) =
          drop (ql * bs) lastc) as Hdrop.
  { rewrite drop_app_ge by lia. f_equal. lia. }
  rewrite Hdrop, <- Htk2 in Hdtk2.
  (* the two [final] *)
  assert ((final c2).2 = (final d2).2 /\ exists o, (final c2).2 = Ok o)
    as [Hfin [o Ho]].
  { destruct (family_of k) eqn:Hf; try congruence.
    - pose proof (final_block_cipher_spec ctx_ok bs bs_eq c2 key rem Hwf2
                    ltac:(congruence) Hb2 Hrem) as H1.
      pose proof (final_block_cipher_spec ctx_ok bs bs_eq d2 key rem Hdwf2
                    ltac:(congruence) Hdb2 Hrem) as H2.
      rewrite H1, H2, Hdtk2, Hdcv2, Hdc2, Hc2, Hc1. eauto.
    - pose proof (final_stream_spec ctx_ok bs bs_eq c2 key rem Hwf2
                    ltac:(congruence) ltac:(congruence) Hb2 ltac:(lia))
        as H1.
      pose proof (final_stream_spec ctx_ok bs bs_eq d2 key rem Hdwf2
                    ltac:(congruence) ltac:(congruence) Hdb2 ltac:(lia))
        as H2.
      rewrite H1, H2, Hdtk2, Hdcv2. eauto.
    - pose proof (final_stream_spec ctx_ok bs bs_eq c2 key rem Hwf2
                    ltac:(congruence) ltac:(congruence) Hb2 ltac:(lia))
        as H1.
      pose proof (final_stream_spec ctx_ok bs bs_eq d2 key rem Hdwf2
                    ltac:(congruence) ltac:(congruence) Hdb2 ltac:(lia))
        as H2.
      rewrite H1, H2, Hdtk2, Hdcv2. eauto.
    - pose proof (final_stream_spec ctx_ok bs bs_eq c2 key rem Hwf2
                    ltac:(congruence) ltac:(congruence) Hb2 ltac:(lia))
        as H1.
      pose proof (final_stream_spec ctx_ok bs bs_eq d2 key rem Hdwf2
                    ltac:(congruence) ltac:(congruence) Hdb2 ltac:(lia))
        as H2.
      rewrite H1, H2, Hdtk2, Hdcv2. eauto. }
  rewrite !run_updates, Hinit. cbv zeta. cbn [fst snd].
  rewrite updates_snoc, Hupd. cbn [fst snd]. rewrite Hu2. cbn [fst snd].
  change [concat chunks ++ lastc] with ([] ++ [concat chunks ++ lastc]).
  rewrite updates_snoc. cbn [updates foldl fst snd]. rewrite Hv2.
  cbn [fst snd app]. rewrite <- Hfin, Ho.
  change ((Ok <$> outs) ++ [Ok o2]) with ((Ok <$> outs) ++ (Ok <$> [o2])).
  rewrite <- fmap_app.
  change [Ok (concat outs ++ o2)] with (Ok <$> [concat outs ++ o2]).
  rewrite !emitted_oks. rewrite concat_app. simpl. rewrite !app_nil_r.
  reflexivity.
Qed.

End Aligned.

(** An encryptor or a stream-mode object fed chunks that each hold a whole
    number of blocks, and then one last chunk of any length, returns over
    its [update] calls and [final] the bytes it returns when fed all of the
    input in one [update]. *)
Theorem aligned_updates_compose {BC : Modes.BlockCtx} (k : Modes.klass)
    (key : list Z) (iv : option (list Z)) (chunks : list (list Z))
    (lastc : list Z) :
  Modes.block_ctx_ok ->
  Modes.family_of k <> Modes.BlockDecipher ->
  Modes.key_ok key = true -> Modes.iv_ok k iv ->
  Forall (fun a => blen a mod Modes.blockSize = 0) chunks ->
  Modes.emitted (Modes.run k key iv (chunks ++ [lastc])).1 =
  Modes.emitted (Modes.run k key iv [concat chunks ++ lastc]).1.
Proof.
  intros Hok. apply (aligned_compose Hok (Z.to_nat Modes.blockSize)).
  pose proof (Modes.bs_pos Hok). lia.
Qed.

(** [aligned_updates_compose] on four-byte blocks: CBC fed one block, two
    blocks and two bytes. *)
Lemma aligned_updates_compose_witness :
  Modes.emitted
    (@Modes.run Toy.ctx4 Modes.CBCCipher [1] (Some [9; 9; 9; 9])
       ([[1; 2; 3; 4]; [5; 6; 7; 8; 9; 10; 11; 12]] ++ [[13; 14]])).1 =
  Modes.emitted
    (@Modes.run Toy.ctx4 Modes.CBCCipher [1] (Some [9; 9; 9; 9])
       [concat [[1; 2; 3; 4]; [5; 6; 7; 8; 9; 10; 11; 12]] ++ [13; 14]]).1.
Proof.
  apply (@aligned_updates_compose Toy.ctx4 Modes.CBCCipher [1]
           (Some [9; 9; 9; 9]) [[1; 2; 3; 4]; [5; 6; 7; 8; 9; 10; 11; 12]]
           [13; 14] ctx4_ok).
  - discriminate.
  - reflexivity.
  - reflexivity.
  - repeat constructor.
Defined.

(** ** What a padding decipher refuses *)

Section Refusals.
Import Modes.
Context {BC : BlockCtx}.
Hypothesis ctx_ok : block_ctx_ok.
Variable bs : nat.
Hypothesis bs_eq : blockSize = Z.of_nat bs.

Lemma decipher_final_errors (k : klass) (key : list Z)
    (iv : option (list Z)) (input : list Z) :
  family_of k = BlockDecipher -> key_ok key = true -> iv_ok k iv ->
  (blen input < blockSize ->
     (run k key iv [input]).1.2 = Throw "Bad decrypt (no data).") /\
  (blockSize <= blen input -> blen input mod blockSize <> 0 ->
     (run k key iv [input]).1.2 = Throw "Bad decrypt (trailing bytes).").
Proof.
  intros Hfam Hkey Hiv.
  assert (0 < bs)%nat as Hbs by (pose proof (bs_pos ctx_ok); lia).
  set (q := (length input / bs)%nat).
  set (rem := (length input mod bs)%nat).
  assert (length input = (q * bs + rem)%nat) as Hlen.
  { unfold q, rem. pose proof (Nat.div_mod_eq (length input) bs). lia. }
  assert (rem < bs)%nat as Hrem
    by (unfold rem; apply Nat.mod_upper_bound; lia).
  assert (blen input mod blockSize = Z.of_nat rem) as Hmod.
  { unfold blen, rem. rewrite bs_eq, Nat2Z.inj_mod. reflexivity. }
  clearbody q rem.
  destruct (init_spec ctx_ok bs bs_eq k key iv Hkey Hiv)
    as (c0 & Hinit & Hwf0 & Hb0 & Hc0 & Hp0 & Hcv0 & _).
  rewrite Hfam in Hp0.
  destruct (update_fresh_spec ctx_ok bs bs_eq c0 key input q rem Hwf0 Hb0
              Hlen Hrem)
    as (c1 & Hupd & _ & Hwf1 & Hb1 & Hc1 & _ & _ & Hlast).
  specialize (Hlast Hp0). cbv zeta in Hlast.
  assert (length (last c1) = (q * bs)%nat) as Hll.
  { rewrite Hlast.
    destruct (run_chunks_lengths ctx_ok bs bs_eq (cls c0) key
                (chain_value c0) (chunks_at input 0 q)) as [Hall _].
    - apply (length_chain_value bs bs_eq c0 key Hwf0).
    - apply (chunks_at_lengths bs bs_eq).
    - rewrite (length_concat_blocks bs _ Hall).
      rewrite length_run_chunks, length_chunks_at. reflexivity. }
  assert ((run k key iv [input]).1.2 = (final c1).2) as ->.
  { rewrite run_updates, Hinit. cbv zeta. cbn [fst snd].
    change [input] with ([] ++ [input]). rewrite updates_snoc.
    cbn [updates foldl fst snd]. rewrite Hupd. reflexivity. }
  assert (family_of (cls c1) = BlockDecipher) as Hf1 by congruence.
  unfold final. rewrite decide_False by lia.
  unfold _final. rewrite Hf1.
  cbn [last bpos set_prev set_last].
  split.
  - intros Hshort.
    assert (q = 0)%nat as -> by (unfold blen in Hshort; nia).
    rewrite decide_True by (unfold blen; lia). reflexivity.
  - intros Hlong Hne.
    assert (1 <= q)%nat by (unfold blen in Hlong; nia).
    rewrite decide_False by (unfold blen; nia).
    rewrite decide_True by lia. reflexivity.
Qed.

End Refusals.

(** A decipher of ECB or CBC fed, in one [update], fewer bytes than a block
    throws at [final] for want of data; fed a block or more and a number of
    bytes that is not a multiple of the block size, it throws for the
    trailing bytes. *)
Theorem decipher_refuses_partial_blocks {BC : Modes.BlockCtx}
    (k : Modes.klass) (key : list Z) (iv : option (list Z))
    (input : list Z) :
  Modes.block_ctx_ok ->
  Modes.family_of k = Modes.BlockDecipher ->
  Modes.key_ok key = true -> Modes.iv_ok k iv ->
  (blen input < Modes.blockSize ->
     (Modes.run k key iv [input]).1.2 = Throw "Bad decrypt (no data).") /\
  (Modes.blockSize <= blen input -> blen input mod Modes.blockSize <> 0 ->
     (Modes.run k key iv [input]).1.2
     = Throw "Bad decrypt (trailing bytes).").
Proof.
  intros Hok. apply (decipher_final_errors Hok (Z.to_nat Modes.blockSize)).
  pose proof (Modes.bs_pos Hok). lia.
Qed.

(** [decipher_refuses_partial_blocks] on four-byte blocks: three bytes, and
    six bytes, through the ECB decipher. *)
Lemma decipher_refuses_partial_blocks_witness :
  (@Modes.run Toy.ctx4 Modes.ECBDecipher [1] None [[1; 2; 3]]).1.2
    = Throw "Bad decrypt (no data)." /\
  (@Modes.run Toy.ctx4 Modes.ECBDecipher [1] None [[1; 2; 3; 4; 5; 6]]).1.2
    = Throw "Bad decrypt (trailing bytes).".
Proof.
  split.
  - apply (proj1 (@decipher_refuses_partial_blocks Toy.ctx4
              Modes.ECBDecipher [1] None [1; 2; 3] ctx4_ok eq_refl eq_refl
              eq_refl)).
    vm_compute. reflexivity.
  - apply (proj2 (@decipher_refuses_partial_blocks Toy.ctx4
              Modes.ECBDecipher [1] None [1; 2; 3; 4; 5; 6] ctx4_ok eq_refl
              eq_refl eq_refl)).
    + vm_compute. discriminate.
    + vm_compute. discriminate.
Defined.

(** ** Using an object again *)

Section Reuse.
Import Modes.
Context {BC : BlockCtx}.

Ltac made_by_setters :=
  unfold made_by in *; simpl in *;
  rewrite ?blen_copy, ?blen_fill; unfold fill_all; rewrite ?blen_fill;
  intuition congruence.

Lemma _update_made_by k c input ipos output opos c' out :
  _update c input ipos output opos = Ok (c', out) ->
  made_by k c -> made_by k c'.
Proof.
  unfold _update, ctx_encrypt, ctx_decrypt. unfold_bind.
  destruct (family_of (cls c)) eqn:Hf, (chain c) eqn:Hchain,
    (ctx c) eqn:Hctx, (encrypt c) eqn:Henc; simpl; rewrite ?Henc;
    intros Hu Hm; try discriminate;
    inversion Hu; subst; made_by_setters.
Qed.

Lemma update_loop_made_by k fuel bs c input ipos output opos ilen :
  made_by k c ->
  made_by k (update_loop fuel bs c input ipos output opos ilen).1.
Proof.
  revert c ipos output opos ilen.
  induction fuel as [|fuel IH]; intros c ipos output opos ilen Hm;
    cbn [update_loop]; case_decide; try exact Hm.
  destruct (_update c (InBuf input) ipos output opos) as [[c1 out1]|e]
    eqn:Hu; [|exact Hm].
  apply IH. eapply _update_made_by; [exact Hu|exact Hm].
Qed.

Lemma update_made_by k c input :
  made_by k c -> made_by k (update c input).1.
Proof.
  intros Hm. unfold update. case_decide as Hinit; [exact Hm|].
  set (bs := blen (block c)).
  assert (forall c1 ilen olen ipos,
    made_by k c1 ->
    made_by k
      (let output := allocUnsafe olen in
       let opos := 0 in
       let step1 :=
         if decide (ipos <> 0) then
           match _update c1 InBlock 0 output opos with
           | Throw e => (c1, Throw e)
           | Ok (c, output) => (c, Ok (output, opos + bs))
           end
         else (c1, Ok (output, opos)) in
       match step1 with
       | (c, Throw e) => (c, Throw e)
       | (c, Ok (output, opos)) =>
           match update_loop (Z.to_nat ilen) bs c input ipos output opos ilen
           with
           | (c, Throw e) => (c, Throw e)
           | (c, Ok (output, ipos, ilen)) =>
               let c :=
                 if decide (ilen > 0)
                 then set_block c (copy input (block c) 0 ipos (ipos + ilen))
                 else c in
               if negb (padding c) then (c, Ok output)
               else
                 let c := set_last c output in
                 (c, Ok (slice output 0 (olen - bs)))
           end
       end).1) as Hrest.
  { intros c1 ilen olen ipos Hm1. cbv zeta.
    assert (exists c2 r2,
      (if decide (ipos <> 0) then
         match _update c1 InBlock 0 (allocUnsafe olen) 0 with
         | Throw e => (c1, Throw e)
         | Ok (c, output) => (c, Ok (output, 0 + bs))
         end
       else (c1, Ok (allocUnsafe olen, 0))) = (c2, r2) /\ made_by k c2)
      as (c2 & r2 & -> & Hm2).
    { case_decide.
      - destruct (_update c1 InBlock 0 (allocUnsafe olen) 0)
          as [[c2 out2]|e] eqn:Hu.
        + do 2 eexists. split; [reflexivity|].
          eapply _update_made_by; [exact Hu|exact Hm1].
        + do 2 eexists. split; [reflexivity|exact Hm1].
      - do 2 eexists. split; [reflexivity|exact Hm1]. }
    destruct r2 as [[out2 opos2]|e]; [|exact Hm2].
    pose proof (update_loop_made_by k (Z.to_nat ilen) bs c2 input ipos out2
                  opos2 ilen Hm2) as Hm3.
    destruct (update_loop (Z.to_nat ilen) bs c2 input ipos out2 opos2 ilen)
      as [c3 [[[out3 ipos3] ilen3]|e]]; cbn [fst] in Hm3; [|exact Hm3].
    case_decide; destruct (padding _); cbn [negb fst];
      clear - Hm3; made_by_setters. }
  cbv zeta. case_decide.
  - case_decide.
    + cbn [fst]. clear - Hm. made_by_setters.
    + apply Hrest. clear - Hm. made_by_setters.
  - apply Hrest. clear - Hm. made_by_setters.
Qed.

Lemma updates_made_by k c chunks :
  made_by k c -> made_by k (updates c chunks).1.
Proof.
  intros Hm. induction chunks as [|chunk chunks IH] using rev_ind.
  - exact Hm.
  - rewrite updates_snoc. cbn [fst]. apply update_made_by. exact IH.
Qed.

Lemma _final_made_by k c : made_by k c -> made_by k (_final c).1.
Proof.
  intros Hm. unfold _final.
  assert (cls c = k) as Hk by (destruct Hm as [Hk _]; exact Hk).
  destruct (family_of (cls c)) eqn:Hf; rewrite Hk in Hf.
  - destruct (_update c InOutput 0 _ 0) as [[c1 out1]|e] eqn:Hu;
      [|exact Hm].
    pose proof (_update_made_by k _ _ _ _ _ _ _ Hu Hm) as Hm1.
    cbn [fst]. clear - Hm1 Hf. made_by_setters.
  - repeat case_decide; try destruct (check_padding _ _ _ _);
      cbn [fst]; clear - Hm Hf; made_by_setters.
  - destruct (ctx_encrypt _ _ _ _ _); cbn [fst]; clear - Hm Hf;
      made_by_setters.
  - destruct (ctx_encrypt _ _ _ _ _); cbn [fst]; clear - Hm Hf;
      made_by_setters.
  - destruct (ctx_encrypt _ _ _ _ _); cbn [fst]; clear - Hm Hf;
      made_by_setters.
Qed.

Lemma final_made_by k c : made_by k c -> made_by k (final c).1.
Proof.
  intros Hm. unfold final. case_decide; [exact Hm|].
  pose proof (_final_made_by k c Hm) as Hm1.
  destruct (_final c) as [c1 r]. cbn [fst] in *. clear - Hm1.
  made_by_setters.
Qed.

Lemma init_made_by k c key iv : made_by k c -> made_by k (init c key iv).1.
Proof.
  intros Hm. unfold init. destruct (ctx_init key) as [s|e]; [|exact Hm].
  unfold _init.
  assert (family_of (cls (set_last (set_bpos (set_ctx c s) 0) EMPTY)) =
          family_of k) as Hk by (destruct Hm as [<- _]; reflexivity).
  destruct (family_of _) eqn:Hf; case_bool_decide; cbn [fst];
    clear - Hm Hk; made_by_setters.
Qed.

Lemma new_made_by k : 0 <= blockSize -> made_by k (new k).
Proof.
  intros Hbs. unfold made_by. cbn [new cls padding chain encrypt block].
  rewrite blen_allocUnsafe. repeat split. lia.
Qed.

(** Whatever a run does, the object it leaves is still one of its
    class. *)
Lemma run_made_by k key iv chunks :
  0 <= blockSize -> made_by k (run k key iv chunks).2.
Proof.
  intros Hbs. rewrite run_updates. cbv zeta. cbn [snd].
  apply final_made_by, updates_made_by, init_made_by, new_made_by.
  exact Hbs.
Qed.

Lemma final_decipher_depends c1 c2 :
  family_of (cls c1) = BlockDecipher -> family_of (cls c2) = BlockDecipher ->
  last c1 = last c2 -> bpos c1 = bpos c2 ->
  blen (block c1) = blen (block c2) ->
  (final c1).2 = (final c2).2.
Proof.
  intros Hf1 Hf2 Hl Hb Hblk. unfold final, _final, blockSize_of.
  rewrite Hf1, Hf2. cbn [last bpos block set_prev set_last].
  rewrite Hl, Hb, Hblk.
  repeat case_decide; try reflexivity.
  destruct (check_padding _ _ _ _); reflexivity.
Qed.

End Reuse.

Section ReuseSteps.
Import Modes.
Context {BC : BlockCtx}.
Hypothesis ctx_ok : block_ctx_ok.
Variable bs : nat.
Hypothesis bs_eq : blockSize = Z.of_nat bs.

(** [init] on any object of class [k] leaves what it leaves on a new
    one. *)
Lemma init_spec_made_by (k : klass) (c : Cipher) (key : list Z)
    (iv : option (list Z)) :
  made_by k c -> key_ok key = true -> iv_ok k iv ->
  exists c',
    init c key iv = (c', Ok tt) /\
    well_formed c' key /\ bpos c' = 0 /\ cls c' = k /\
    padding c' = match family_of k with BlockDecipher => true | _ => false end /\
    chain_value c' = read_block (default EMPTY iv) 0 blockSize /\
    last c' = EMPTY.
Proof.
  intros Hm Hkey Hiv. pose proof (bs_pos ctx_ok) as Hpos.
  destruct c as [cls0 ctx0 pad0 blk0 bpos0 last0 chain0 enc0 prev0 ppos0
                 st0 ctr0].
  unfold made_by in Hm. cbn [cls padding chain encrypt block] in Hm.
  destruct Hm as (-> & -> & -> & -> & Hblk & Hprev).
  unfold init, ctx_init. rewrite Hkey.
  unfold iv_ok in Hiv. unfold _init, blockSize_of.
  assert (blen (allocUnsafe blockSize) = blockSize) as Halloc
    by (rewrite blen_allocUnsafe; lia).
  destruct k;
    cbn [new cls family_of set_ctx set_bpos set_last chain block padding
         encrypt prev] in *;
    try (assert (prev0 = PrevBuf EMPTY) as -> by (apply Hprev; auto));
    rewrite ?Hblk;
    (rewrite bool_decide_true by lia);
    eexists; (split; [reflexivity|]);
    unfold well_formed, chain_value, blockSize_of, prev_data;
    cbn [cls ctx padding block bpos last chain encrypt prev ppos state ctr
         set_prev set_state set_ctr set_last set_bpos set_ctx new
         family_of];
    rewrite ?Halloc, ?Hblk;
    repeat split; try assumption; try discriminate;
    try (symmetry; apply (read_block_full bs bs_eq), (blen_length bs bs_eq);
         assumption).
Qed.

Lemma reuse (k : klass) (c : Cipher) (key : list Z) (iv : option (list Z))
    (input : list Z) :
  made_by k c -> key_ok key = true -> iv_ok k iv ->
  (run_on c key iv [input]).1 = (run k key iv [input]).1.
Proof.
  intros Hm Hkey Hiv.
  assert (0 < bs)%nat as Hbs by (pose proof (bs_pos ctx_ok); lia).
  set (q := (length input / bs)%nat).
  set (rem := (length input mod bs)%nat).
  assert (length input = (q * bs + rem)%nat) as Hlen.
  { unfold q, rem. pose proof (Nat.div_mod_eq (length input) bs). lia. }
  assert (rem < bs)%nat as Hrem
    by (unfold rem; apply Nat.mod_upper_bound; lia).
  clearbody q rem.
  destruct (init_spec ctx_ok bs bs_eq k key iv Hkey Hiv)
    as (c0 & Hinit & Hwf0 & Hb0 & Hc0 & Hp0 & Hcv0 & _).
  destruct (init_spec_made_by k c key iv Hm Hkey Hiv)
    as (d0 & Hdinit & Hdwf0 & Hdb0 & Hdc0 & Hdp0 & Hdcv0 & _).
  destruct (update_fresh_spec ctx_ok bs bs_eq c0 key input q rem Hwf0 Hb0
              Hlen Hrem)
    as (c1 & Hupd & Hcv1 & Hwf1 & Hb1 & Hc1 & Hp1 & Htk1 & Hlast1).
  destruct (update_fresh_spec ctx_ok bs bs_eq d0 key input q rem Hdwf0 Hdb0
              Hlen Hrem)
    as (d1 & Hdupd & Hdcv1 & Hdwf1 & Hdb1 & Hdc1 & Hdp1 & Hdtk1 & Hdlast1).
  rewrite Hc0, Hcv0, Hp0 in Hupd, Hlast1. rewrite Hc0, Hcv0 in Hcv1.
  rewrite Hdc0, Hdcv0, Hdp0 in Hdupd, Hdlast1. rewrite Hdc0, Hdcv0 in Hdcv1.
  assert ((final d1).2 = (final c1).2) as Hfin.
  { destruct (family_of k) eqn:Hf.
    - rewrite (final_block_cipher_spec ctx_ok bs bs_eq c1 key rem Hwf1
                 ltac:(congruence) Hb1 Hrem).
      rewrite (final_block_cipher_spec ctx_ok bs bs_eq d1 key rem Hdwf1
                 ltac:(congruence) Hdb1 Hrem).
      rewrite Htk1, Hdtk1, Hcv1, Hdcv1, Hc1, Hdc1, Hc0, Hdc0. reflexivity.
    - apply final_decipher_depends; try congruence.
      + rewrite Hlast1, Hdlast1 by reflexivity. reflexivity.
      + destruct Hwf1 as (_ & -> & _). destruct Hdwf1 as (_ & -> & _).
        reflexivity.
    - rewrite (final_stream_spec ctx_ok bs bs_eq c1 key rem Hwf1
                 ltac:(congruence) ltac:(congruence) Hb1 ltac:(lia)).
      rewrite (final_stream_spec ctx_ok bs bs_eq d1 key rem Hdwf1
                 ltac:(congruence) ltac:(congruence) Hdb1 ltac:(lia)).
      rewrite Htk1, Hdtk1, Hcv1, Hdcv1. reflexivity.
    - rewrite (final_stream_spec ctx_ok bs bs_eq c1 key rem Hwf1
                 ltac:(congruence) ltac:(congruence) Hb1 ltac:(lia)).
      rewrite (final_stream_spec ctx_ok bs bs_eq d1 key rem Hdwf1
                 ltac:(congruence) ltac:(congruence) Hdb1 ltac:(lia)).
      rewrite Htk1, Hdtk1, Hcv1, Hdcv1. reflexivity.
    - rewrite (final_stream_spec ctx_ok bs bs_eq c1 key rem Hwf1
                 ltac:(congruence) ltac:(congruence) Hb1 ltac:(lia)).
      rewrite (final_stream_spec ctx_ok bs bs_eq d1 key rem Hdwf1
                 ltac:(congruence) ltac:(congruence) Hdb1 ltac:(lia)).
      rewrite Htk1, Hdtk1, Hcv1, Hdcv1. reflexivity. }
  rewrite run_updates, Hinit. unfold run_on. rewrite Hdinit.
  cbv zeta. cbn [fst snd].
  change [input] with ([] ++ [input]). rewrite !updates_snoc.
  cbn [updates foldl fst snd]. rewrite Hupd, Hdupd. cbn [fst snd app].
  destruct (final d1) as [d2 r2]. cbn [fst snd] in *. subst r2.
  reflexivity.
Qed.

End ReuseSteps.

(** An object that has been through a run of any kind, initialised again
    with a key the context accepts and the IV its class asks for, returns
    from one [update] and from [final] what a new object of the class
    returns. *)
Theorem object_reuse {BC : Modes.BlockCtx} (k : Modes.klass)
    (key0 : list Z) (iv0 : option (list Z)) (chunks0 : list (list Z))
    (key : list Z) (iv : option (list Z)) (input : list Z) :
  Modes.block_ctx_ok ->
  Modes.key_ok key = true -> Modes.iv_ok k iv ->
  (Modes.run_on (Modes.run k key0 iv0 chunks0).2 key iv [input]).1 =
  (Modes.run k key iv [input]).1.
Proof.
  intros Hok Hkey Hiv. pose proof (Modes.bs_pos Hok) as Hpos.
  apply (reuse Hok (Z.to_nat Modes.blockSize)); try assumption; [lia|].
  apply run_made_by. lia.
Qed.

(** [object_reuse] on four-byte blocks: a CBC decipher that threw at
    [final] deciphers the next message. *)
Lemma object_reuse_witness :
  (@Modes.run_on Toy.ctx4
     (@Modes.run Toy.ctx4 Modes.CBCDecipher [7] (Some [1; 1; 1; 1])
        [[1; 2; 3]]).2
     [1] (Some [9; 9; 9; 9]) [[11; 12; 13; 14; 13; 13; 13; 13]]).1 =
  (@Modes.run Toy.ctx4 Modes.CBCDecipher [1] (Some [9; 9; 9; 9])
     [[11; 12; 13; 14; 13; 13; 13; 13]]).1.
Proof.
  apply (@object_reuse Toy.ctx4 Modes.CBCDecipher [7] (Some [1; 1; 1; 1])
           [[1; 2; 3]] [1] (Some [9; 9; 9; 9])
           [11; 12; 13; 14; 13; 13; 13; 13] ctx4_ok).
  - reflexivity.
  - reflexivity.
Defined.

(** ** One [update] and the textbook modes *)

Section Textbook.
Import Modes.
Context {BC : BlockCtx}.
Hypothesis ctx_ok : block_ctx_ok.
Variable bs : nat.
Hypothesis bs_eq : blockSize = Z.of_nat bs.

Lemma xorm_take_r (a b : list Z) :
  xorm a (take (length a) b) = xorm a b.
Proof.
  unfold xorm. revert b. induction a as [|x a IH]; intros b.
  - reflexivity.
  - destruct b as [|y b]; [reflexivity|]. simpl. rewrite IH. reflexivity.
Qed.

Lemma encryptor_is_the_mode (k : klass) (key : list Z)
    (iv : option (list Z)) (pt : list Z) :
  key_ok key = true -> iv_ok k iv -> family_of k <> BlockDecipher ->
  let q := (length pt / bs)%nat in
  let v0 := read_block (default EMPTY iv) 0 blockSize in
  let blocks := chunks_at pt 0 q in
  let tail := drop (q * bs) pt in
  emitted (run k key iv [pt]).1 =
  match family_of k with
  | BlockCipher =>
      concat (run_chunks k key v0 (blocks ++ [pad_block tail])).2
  | _ =>
      concat (run_chunks k key v0 blocks).2 ++
      xorm tail (encrypt_block key (run_chunks k key v0 blocks).1)
  end.
Proof.
  intros Hkey Hiv Hfam q v0 blocks tail.
  assert (0 < bs)%nat as Hbs by (pose proof (bs_pos ctx_ok); lia).
  set (rem := (length pt mod bs)%nat).
  assert (length pt = (q * bs + rem)%nat) as Hlen.
  { unfold q, rem. pose proof (Nat.div_mod_eq (length pt) bs). lia. }
  assert (rem < bs)%nat as Hrem
    by (unfold rem; apply Nat.mod_upper_bound; lia).
  assert (length tail = rem) as Htl
    by (unfold tail; rewrite length_drop; lia).
  clearbody rem.
  destruct (init_spec ctx_ok bs bs_eq k key iv Hkey Hiv)
    as (c0 & Hinit & Hwf0 & Hb0 & Hc0 & Hp0 & Hcv0 & _).
  fold v0 in Hcv0.
  destruct (update_fresh_spec ctx_ok bs bs_eq c0 key pt q rem Hwf0 Hb0 Hlen
              Hrem)
    as (c1 & Hupd & Hcv1 & Hwf1 & Hb1 & Hc1 & Hp1 & Htk1 & _).
  rewrite Hc0, Hcv0 in Hupd, Hcv1. fold blocks in Hupd, Hcv1.
  rewrite Hc0 in Hc1. fold tail in Htk1.
  assert (padding c0 = false) as Hp0'
    by (rewrite Hp0; destruct (family_of k); congruence).
  rewrite Hp0' in Hupd.
  destruct (family_of k) eqn:Hf; try congruence.
  - pose proof (final_block_cipher_spec ctx_ok bs bs_eq c1 key rem Hwf1
                  ltac:(congruence) Hb1 Hrem) as Hfin.
    rewrite Htk1, Hc1, Hcv1 in Hfin.
    rewrite (run_single k key iv pt c0 c1 _ _ Hinit Hupd Hfin).
    rewrite run_chunks_app. cbn [snd]. rewrite concat_app.
    rewrite run_chunks_cons. cbn [snd run_chunks concat].
    rewrite app_nil_r. reflexivity.
  - pose proof (final_stream_spec ctx_ok bs bs_eq c1 key rem Hwf1
                  ltac:(congruence) ltac:(congruence) Hb1 ltac:(lia))
      as Hfin.
    rewrite Htk1, Hcv1 in Hfin. rewrite <- Htl, xorm_take_r in Hfin.
    rewrite (run_single k key iv pt c0 c1 _ _ Hinit Hupd Hfin).
    reflexivity.
  - pose proof (final_stream_spec ctx_ok bs bs_eq c1 key rem Hwf1
                  ltac:(congruence) ltac:(congruence) Hb1 ltac:(lia))
      as Hfin.
    rewrite Htk1, Hcv1 in Hfin. rewrite <- Htl, xorm_take_r in Hfin.
    rewrite (run_single k key iv pt c0 c1 _ _ Hinit Hupd Hfin).
    reflexivity.
  - pose proof (final_stream_spec ctx_ok bs bs_eq c1 key rem Hwf1
                  ltac:(congruence) ltac:(congruence) Hb1 ltac:(lia))
      as Hfin.
    rewrite Htk1, Hcv1 in Hfin. rewrite <- Htl, xorm_take_r in Hfin.
    rewrite (run_single k key iv pt c0 c1 _ _ Hinit Hupd Hfin).
    reflexivity.
Qed.

End Textbook.

(** What an encryptor or a stream-mode object returns over one [update]
    and [final] is the mode of the textbooks, block by block from the IV
    ([block_step]): for ECB and CBC over the blocks of the input and one
    last block, what is left of the input padded with the number of bytes
    missing; for CTR, CFB and OFB over the blocks of the input, followed by
    what is left of it xored with the next block of key stream. *)
Theorem single_update_is_the_mode {BC : Modes.BlockCtx} (k : Modes.klass)
    (key : list Z) (iv : option (list Z)) (pt : list Z) :
  Modes.block_ctx_ok ->
  Modes.key_ok key = true -> Modes.iv_ok k iv ->
  Modes.family_of k <> Modes.BlockDecipher ->
  let bs := Z.to_nat Modes.blockSize in
  let q := (length pt / bs)%nat in
  let v0 := read_block (default EMPTY iv) 0 Modes.blockSize in
  let blocks := Modes.chunks_at pt 0 q in
  let tail := drop (q * bs) pt in
  Modes.emitted (Modes.run k key iv [pt]).1 =
  match Modes.family_of k with
  | Modes.BlockCipher =>
      concat (Modes.run_chunks k key v0
                (blocks ++ [Modes.pad_block tail])).2
  | _ =>
      concat (Modes.run_chunks k key v0 blocks).2 ++
      Modes.xorm tail
        (Modes.encrypt_block key (Modes.run_chunks k key v0 blocks).1)
  end.
Proof.
  intros Hok Hkey Hiv Hfam.
  apply (encryptor_is_the_mode Hok (Z.to_nat Modes.blockSize));
    try assumption.
  pose proof (Modes.bs_pos Hok). lia.
Qed.

(** [single_update_is_the_mode] on four-byte blocks: six bytes through
    CBC, where the second block is the cipher of the padded rest xored with
    the first. *)
Lemma single_update_is_the_mode_witness :
  Modes.emitted
    (@Modes.run Toy.ctx4 Modes.CBCCipher [1] (Some [9; 9; 9; 9])
       [[1; 2; 3; 4; 5; 6]]).1 =
  let c1 := @Modes.encrypt_block Toy.ctx4 [1]
              (Modes.xorm [1; 2; 3; 4] [9; 9; 9; 9]) in
  c1 ++ @Modes.encrypt_block Toy.ctx4 [1] (Modes.xorm [5; 6; 2; 2] c1).
Proof.
  pose proof (@single_update_is_the_mode Toy.ctx4 Modes.CBCCipher [1]
                (Some [9; 9; 9; 9]) [1; 2; 3; 4; 5; 6] ctx4_ok eq_refl
                eq_refl) as Hmode.
  rewrite Hmode by discriminate. reflexivity.
Defined.

(** ** The padding a decipher accepts *)

Lemma check_padding_inv (n : nat) (blk : list Z) (left e e' : Z) :
  Modes.check_padding n blk left e = Ok e' ->
  e' = e - Z.of_nat n /\
  forall j, e - Z.of_nat n <= j < e -> bget blk j = left.
Proof.
  revert e. induction n as [|n IH]; intros e; cbn [Modes.check_padding].
  - intros He. inversion He; subst. split; [lia|]. intros j Hj. lia.
  - case_decide as Hb; [|discriminate].
    intros He. destruct (IH _ He) as [-> Hall]. split; [lia|].
    intros j Hj. destruct (decide (j = e - 1)) as [-> | Hne];
      [exact Hb|]. apply Hall. lia.
Qed.

Lemma check_padding_throws (n : nat) (blk : list Z) (left e : Z)
    (msg : string) :
  Modes.check_padding n blk left e = Throw msg ->
  msg = "Bad decrypt (padding).".
Proof.
  revert e. induction n as [|n IH]; intros e; cbn [Modes.check_padding].
  - discriminate.
  - case_decide; [apply IH|]. intros He. inversion He. reflexivity.
Qed.

Lemma all_equal_replicate (l : list Z) (v : Z) :
  (forall i, (i < length l)%nat -> l !! i = Some v) ->
  l = replicate (length l) v.
Proof.
  intros Hall. apply list_eq. intros i.
  destruct (decide (i < length l)%nat) as [Hi | Hi].
  - rewrite (Hall i Hi). symmetry. apply lookup_replicate_2. exact Hi.
  - rewrite lookup_ge_None_2 by lia. symmetry.
    apply lookup_replicate_None. lia.
Qed.

Section Padding.
Import Modes.
Context {BC : BlockCtx}.
Hypothesis ctx_ok : block_ctx_ok.
Variable bs : nat.
Hypothesis bs_eq : blockSize = Z.of_nat bs.

(** The block cipher writes bytes. *)
Hypothesis decrypt_bytes : forall key b, is_bytes (decrypt_block key b).

Lemma deciphered_bytes (k : klass) (key v : list Z)
    (chunks : list (list Z)) :
  family_of k = BlockDecipher ->
  is_bytes (concat (run_chunks k key v chunks).2).
Proof.
  intros Hfam. revert v. induction chunks as [|b rest IH]; intros v.
  - constructor.
  - rewrite run_chunks_cons. cbn [snd concat]. apply Forall_app. split.
    + destruct k; simpl in Hfam; try discriminate Hfam; simpl.
      * apply decrypt_bytes.
      * apply (is_bytes_xorm bs).
    + apply IH.
Qed.

Lemma final_decipher_unfold (c : Cipher) (D : list Z) :
  family_of (cls c) = BlockDecipher -> blen (block c) = blockSize ->
  bpos c = 0 -> last c = D -> blen D <> 0 ->
  (final c).2 =
  let left := bget D (blen D - 1) in
  if decide (left = 0 \/ left > blockSize)
  then Throw "Bad decrypt (padding)."
  else match check_padding (Z.to_nat left) D left (blen D) with
       | Throw e => Throw e
       | Ok e => Ok (slice D (blen D - blockSize) e)
       end.
Proof.
  intros Hf Hblk Hb Hl Hne. unfold final. rewrite decide_False by lia.
  unfold _final, blockSize_of. rewrite Hf.
  cbn [last bpos block set_prev set_last]. rewrite Hl, Hb, Hblk.
  rewrite decide_False by assumption.
  rewrite (decide_False (P := 0 <> 0)) by lia. cbv zeta.
  case_decide; [reflexivity|].
  destruct (check_padding _ _ _ _); reflexivity.
Qed.

Lemma decipher_padding (k : klass) (key : list Z) (iv : option (list Z))
    (ct : list Z) (q : nat) :
  family_of k = BlockDecipher -> key_ok key = true -> iv_ok k iv ->
  length ct = (Datatypes.S q * bs)%nat ->
  let v0 := read_block (default EMPTY iv) 0 blockSize in
  let D := concat (run_chunks k key v0 (chunks_at ct 0 (Datatypes.S q))).2 in
  let r := (run k key iv [ct]).1 in
  r.1 = [Ok (take (q * bs) D)] /\
  (forall tail,
     r.2 = Ok tail <->
     exists p : nat,
       (1 <= p <= bs)%nat /\
       drop (q * bs) D = tail ++ replicate p (Z.of_nat p)) /\
  (r.2 = Throw "Bad decrypt (padding)." \/ exists tail, r.2 = Ok tail).
Proof.
  intros Hfam Hkey Hiv Hlen v0 D r.
  assert (0 < bs)%nat as Hbs by (pose proof (bs_pos ctx_ok); lia).
  pose proof (bs_byte ctx_ok) as Hbyte.
  destruct (init_spec ctx_ok bs bs_eq k key iv Hkey Hiv)
    as (c0 & Hinit & Hwf0 & Hb0 & Hc0 & Hp0 & Hcv0 & _).
  rewrite Hfam in Hp0. fold v0 in Hcv0.
  destruct (update_fresh_spec ctx_ok bs bs_eq c0 key ct (Datatypes.S q) 0
              Hwf0 Hb0 ltac:(lia) Hbs)
    as (c1 & Hupd & _ & Hwf1 & Hb1 & Hc1 & _ & _ & Hlast).
  rewrite Hc0, Hcv0, Hp0 in Hupd, Hlast. fold D in Hupd, Hlast.
  specialize (Hlast eq_refl).
  assert (length D = (Datatypes.S q * bs)%nat) as HlD.
  { unfold D.
    destruct (run_chunks_lengths ctx_ok bs bs_eq k key v0
                (chunks_at ct 0 (Datatypes.S q))) as [Hall _].
    - unfold v0. rewrite bs_eq. apply length_read_block.
    - apply (chunks_at_lengths bs bs_eq).
    - rewrite (length_concat_blocks bs _ Hall).
      rewrite length_run_chunks, length_chunks_at. reflexivity. }
  assert (slice D 0 (Z.of_nat (Datatypes.S q * bs) - blockSize) =
          take (q * bs) D) as Hslice.
  { unfold slice, rel_index, blen. rewrite HlD.
    rewrite !decide_False by lia.
    replace (Z.to_nat (Z.min 0 _)) with 0%nat by lia.
    rewrite drop_0. f_equal. lia. }
  rewrite Hslice in Hupd.
  assert (r = ([Ok (take (q * bs) D)], (final c1).2)) as Hr.
  { unfold r. rewrite run_updates, Hinit. cbv zeta. cbn [fst snd].
    change [ct] with ([] ++ [ct]). rewrite updates_snoc.
    cbn [updates foldl fst snd]. rewrite Hupd. reflexivity. }
  rewrite Hr. cbn [fst snd]. split; [reflexivity|].
  assert (blen (block c1) = blockSize) as Hblk
    by (destruct Hwf1 as (_ & Hb & _); exact Hb).
  assert (blen D <> 0) as HDne by (unfold blen; lia).
  assert (is_bytes D) as HDb by (apply deciphered_bytes; exact Hfam).
  pose proof (final_decipher_unfold c1 D ltac:(congruence) Hblk Hb1 Hlast
                HDne) as Hfin.
  cbv zeta in Hfin.
  set (left := bget D (blen D - 1)) in *.
  assert (0 <= left) as Hleft0.
  { unfold left, blen. rewrite HlD.
    replace (Z.of_nat (Datatypes.S q * bs) - 1)
      with (Z.of_nat (Datatypes.S q * bs - 1)) by lia.
    rewrite bget_nat.
    destruct (lookup_lt_is_Some_2 D (Datatypes.S q * bs - 1)) as [x Hx];
      [lia|].
    rewrite Hx. simpl.
    apply (Forall_lookup_1 _ _ _ _ HDb) in Hx. lia. }
  split.
  - intros tail. split.
    + (* what [final] returns ends in a padding *)
      intros Hok. rewrite Hok in Hfin.
      case_decide as Hleft; [discriminate|].
      destruct (check_padding (Z.to_nat left) D left (blen D)) as [e|]
        eqn:Hcp; [|discriminate].
      injection Hfin as Htail.
      destruct (check_padding_inv _ _ _ _ _ Hcp) as [He Hall]. subst e.
      assert (1 <= left <= Z.of_nat bs) as Hrange by lia.
      exists (Z.to_nat left). split; [lia|].
      rewrite Z2Nat.id in * by lia.
      assert (tail = take (bs - Z.to_nat left) (drop (q * bs) D)) as ->.
      { rewrite Htail. unfold slice, rel_index, blen. rewrite HlD.
        rewrite !decide_False by lia.
        f_equal; [lia|]. f_equal. lia. }
      rewrite <- (take_drop (bs - Z.to_nat left) (drop (q * bs) D)) at 1.
      f_equal. rewrite drop_drop.
      rewrite (all_equal_replicate _ left).
      * rewrite length_drop, HlD. f_equal. lia.
      * intros i Hi. rewrite length_drop, HlD in Hi.
        rewrite lookup_drop.
        specialize (Hall (Z.of_nat (q * bs + (bs - Z.to_nat left) + i))).
        unfold blen in Hall. rewrite HlD in Hall.
        specialize (Hall ltac:(lia)).
        rewrite bget_nat in Hall.
        destruct (lookup_lt_is_Some_2 D
                    (q * bs + (bs - Z.to_nat left) + i)) as [x Hx];
          [lia|].
        rewrite Hx in Hall |- *. simpl in Hall. congruence.
    + (* a padding is accepted *)
      intros (p & Hp & Hdrop).
      assert (length tail = (bs - p)%nat) as Htl.
      { assert (length (drop (q * bs) D) = bs) as Hld
          by (rewrite length_drop; lia).
        rewrite Hdrop, length_app, length_replicate in Hld. lia. }
      apply (final_block_decipher_spec ctx_ok bs bs_eq c1 key
               (take (q * bs) D) tail Hwf1 ltac:(congruence) Hb1);
        [|lia].
      rewrite Hlast. rewrite <- (take_drop (q * bs) D) at 1. f_equal.
      rewrite Hdrop. unfold pad_block. f_equal.
      assert (blockSize - blen tail = Z.of_nat p) as ->
        by (unfold blen; lia).
      rewrite Nat2Z.id. f_equal.
      change 255 with (Z.ones 8). rewrite Z.land_ones by lia.
      symmetry. apply Z.mod_small. lia.
  - rewrite Hfin. case_decide; [left; reflexivity|].
    destruct (check_padding (Z.to_nat left) D left (blen D)) as [e|msg]
      eqn:Hcp; [right; eauto|].
    left. rewrite (check_padding_throws _ _ _ _ _ Hcp). reflexivity.
Qed.

End Padding.

(** With a block cipher that writes bytes, a decipher of ECB or CBC fed,
    in one [update], a whole number of blocks (one at least) returns from
    [update] the deciphered bytes but for the last block; [final] returns
    a buffer exactly when the last deciphered block is that buffer followed
    by [p] bytes of value [p], for some [p] from 1 to the block size, and
    throws for a bad padding in every other case. *)
Theorem decipher_checks_padding {BC : Modes.BlockCtx} (k : Modes.klass)
    (key : list Z) (iv : option (list Z)) (ct : list Z) (q : nat) :
  Modes.block_ctx_ok ->
  (forall key b, is_bytes (Modes.decrypt_block key b)) ->
  Modes.family_of k = Modes.BlockDecipher ->
  Modes.key_ok key = true -> Modes.iv_ok k iv ->
  let bs := Z.to_nat Modes.blockSize in
  length ct = (Datatypes.S q * bs)%nat ->
  let v0 := read_block (default EMPTY iv) 0 Modes.blockSize in
  let D := concat (Modes.run_chunks k key v0
                     (Modes.chunks_at ct 0 (Datatypes.S q))).2 in
  let r := (Modes.run k key iv [ct]).1 in
  r.1 = [Ok (take (q * bs) D)] /\
  (forall tail,
     r.2 = Ok tail <->
     exists p : nat,
       (1 <= p <= bs)%nat /\
       drop (q * bs) D = tail ++ replicate p (Z.of_nat p)) /\
  (r.2 = Throw "Bad decrypt (padding)." \/ exists tail, r.2 = Ok tail).
Proof.
  intros Hok Hbytes Hfam Hkey Hiv bs Hlen.
  apply (decipher_padding Hok bs); try assumption.
  pose proof (Modes.bs_pos Hok). unfold bs. lia.
Qed.

(** [decipher_checks_padding] on four-byte blocks: the ECB decipher on
    two blocks that decipher to [1; 2; 3; 4] and [5; 6; 2; 2]. *)
Lemma decipher_checks_padding_witness :
  (@Modes.run Toy.ctx4 Modes.ECBDecipher [1] None
     [[2; 3; 4; 5; 6; 7; 3; 3]]).1 = ([Ok [1; 2; 3; 4]], Ok [5; 6]).
Proof.
  assert (forall key b, is_bytes (@Modes.decrypt_block Toy.ctx4 key b))
    as Hbytes.
  { intros key b. simpl. induction b as [|x b IH]; constructor;
      [apply Z.mod_pos_bound; lia | exact IH]. }
  pose proof (@decipher_checks_padding Toy.ctx4 Modes.ECBDecipher [1] None
                [2; 3; 4; 5; 6; 7; 3; 3] 1 ctx4_ok Hbytes eq_refl eq_refl
                eq_refl eq_refl) as (Hupd & Hfin & _).
  destruct (@Modes.run Toy.ctx4 Modes.ECBDecipher [1] None
              [[2; 3; 4; 5; 6; 7; 3; 3]]).1 as [r1 r2].
  cbn [fst snd] in *. f_equal.
  - exact Hupd.
  - apply Hfin. exists 2%nat. split; [vm_compute; lia|]. reflexivity.
Defined.

(** ** Arguments the signature functions refuse *)

Section Refused.
Context {C : Curve} {H : Hash} {R : Rng} {O : CurveOps} {M : HashMulti}.

Lemma hashInt_refuses (ph : option bool) (ctx : option (list Z))
    (items : list (list Z)) :
  EDDSA.check_args ph ctx <> Ok tt ->
  exists e, EDDSA.hashInt ph ctx items = Throw e.
Proof.
  unfold EDDSA.check_args, EDDSA.hashInt. unfold_bind.
  destruct (EDDSA.ctx_len_ok ctx); simpl; [|eauto].
  destruct (hash_init) as [h|e]; [|eauto].
  destruct curve_context; simpl.
  - intros Hne. exfalso. apply Hne. reflexivity.
  - destruct ctx as [c|], ph as [b|]; simpl;
      try (intros Hne; exfalso; apply Hne; reflexivity).
    eauto.
Qed.

(** With [ph] and [ctx] that fail the argument assertions (a context of
    more than 255 bytes, or a context without the pre-hash flag on a curve
    that takes no context), [verify] and [batchVerify] throw, and [sign] and
    [signWithScalar] never return a signature. *)
Theorem bad_context_is_refused (rng : rng_state)
    (msg sig key secret scalar nonce : list Z)
    (batch : list (list Z * list Z * list Z))
    (ph : option bool) (ctx : option (list Z)) :
  EDDSA.check_args ph ctx <> Ok tt ->
  (exists e, EDDSA.verify msg sig key ph ctx = Throw e) /\
  (exists e, EDDSA.batchVerify rng batch ph ctx = Throw e) /\
  (exists e, EDDSA.signWithScalar rng msg scalar nonce ph ctx = Throw e) /\
  (exists e, EDDSA.sign rng msg secret ph ctx = Throw e).
Proof.
  intros Hargs.
  assert (exists e, EDDSA.check_args ph ctx = Throw e) as [e He].
  { destruct (EDDSA.check_args ph ctx) as [[]|e]; [tauto|eauto]. }
  assert (forall scalar nonce,
            exists e, EDDSA.signWithScalar rng msg scalar nonce ph ctx
                      = Throw e) as Hsws.
  { intros scalar' nonce'. unfold EDDSA.signWithScalar. unfold_bind.
    destruct (assert _); [|eauto].
    destruct (decodeScalar scalar'); [|eauto].
    destruct (point_mulBlind curve_g _); [|eauto].
    destruct (point_encode _); [|eauto].
    destruct (hashInt_refuses ph ctx [nonce'; msg] Hargs) as [e' ->].
    eauto. }
  split; [|split; [|split]].
  - unfold EDDSA.verify. rewrite He. eauto.
  - unfold EDDSA.batchVerify. rewrite He. eauto.
  - apply Hsws.
  - unfold EDDSA.sign. unfold_bind.
    destruct (EDDSA.hashKey secret); [|eauto].
    destruct (splitHash _) as [[k n]|]; [|eauto].
    apply Hsws.
Qed.

(** A secret that [privateKeyVerify] rejects makes [hashKey],
    [privateKeyConvert], [publicKeyCreate], [sign], [signTweakAdd],
    [signTweakMul] and [derive] throw at the first assertion. *)
Theorem bad_secret_is_refused (rng : rng_state)
    (msg secret tweak pub : list Z)
    (ph : option bool) (ctx : option (list Z)) :
  EDDSA.privateKeyVerify secret = false ->
  EDDSA.hashKey secret = Throw "Assertion failed." /\
  EDDSA.privateKeyConvert secret = Throw "Assertion failed." /\
  EDDSA.publicKeyCreate secret = Throw "Assertion failed." /\
  EDDSA.sign rng msg secret ph ctx = Throw "Assertion failed." /\
  EDDSA.signTweakAdd rng msg secret tweak ph ctx
    = Throw "Assertion failed." /\
  EDDSA.signTweakMul rng msg secret tweak ph ctx
    = Throw "Assertion failed." /\
  EDDSA.derive rng pub secret = Throw "Assertion failed.".
Proof.
  unfold EDDSA.privateKeyVerify. intros Hv.
  assert (EDDSA.hashKey secret = Throw "Assertion failed.") as Hk.
  { unfold EDDSA.hashKey. rewrite Hv. reflexivity. }
  unfold EDDSA.publicKeyCreate, EDDSA.derive, EDDSA.privateKeyConvert,
    EDDSA.sign, EDDSA.signTweakAdd, EDDSA.signTweakMul.
  rewrite Hk. repeat split.
Qed.

Lemma batch_loop_large_S (ph : option bool) (ctx : option (list Z))
    (batch : list (list Z * list Z * list Z)) (m s k : list Z) (S : Z) :
  (m, s, k) ∈ batch ->
  decodeInt (slice_from s EDDSA.size) = Ok S -> S >= curve_n ->
  forall rng acc, EDDSA._batchVerify_loop rng batch ph ctx acc <> Ok true.
Proof.
  intros Hin HS Hge.
  induction batch as [|[[m' s'] k'] rest IH]; [inversion Hin|].
  intros rng acc. cbn [EDDSA._batchVerify_loop]. unfold_bind.
  apply elem_of_cons in Hin as [Heq | Hin].
  - inversion Heq; subst m' s' k'.
    destruct (decodePoint (slice s 0 EDDSA.size)); [|cbv beta iota; congruence].
    rewrite HS. destruct (decodePoint k); [|cbv beta iota; congruence].
    rewrite bool_decide_true by assumption. cbv beta iota; congruence.
  - specialize (IH Hin).
    destruct (decodePoint (slice s' 0 EDDSA.size)) as [R'|];
      [|cbv beta iota; congruence].
    destruct (decodeInt (slice_from s' EDDSA.size)) as [S'|];
      [|cbv beta iota; congruence].
    destruct (decodePoint k') as [A'|]; [|cbv beta iota; congruence].
    case_bool_decide; [cbv beta iota; congruence|].
    destruct (EDDSA.hashInt ph ctx _) as [e'|];
      [|cbv beta iota; congruence].
    destruct acc as [[lhs rhs]|].
    + destruct (BN_random rng 1 curve_n) as [[a' rng']|];
        [|cbv beta iota; congruence].
      destruct (point_mulAdd R' a' A' _) as [T'|];
        [|cbv beta iota; congruence].
      destruct (point_add rhs T'); [|cbv beta iota; congruence].
      apply IH.
    + destruct (point_mul A' e') as [Ae|]; [|cbv beta iota; congruence].
      destruct (point_add R' Ae); [|cbv beta iota; congruence].
      apply IH.
Qed.

(** [batchVerify] returns [false] for every batch that holds a signature
    whose trailing bytes decode to an integer [S >= n], wherever it stands
    in the batch and whatever the other items are. *)
Theorem batch_rejects_large_S (rng : rng_state)
    (batch : list (list Z * list Z * list Z))
    (ph : option bool) (ctx : option (list Z)) (m s k : list Z) (S : Z) :
  EDDSA.check_args ph ctx = Ok tt ->
  (m, s, k) ∈ batch ->
  decodeInt (slice_from s EDDSA.size) = Ok S -> S >= curve_n ->
  EDDSA.batchVerify rng batch ph ctx = Ok false.
Proof.
  intros Hargs Hin HS Hge. unfold EDDSA.batchVerify. rewrite Hargs. simpl.
  destruct (EDDSA.lengths_ok batch); simpl; [|reflexivity].
  pose proof (batch_loop_large_S ph ctx batch m s k S Hin HS Hge rng None)
    as Hne.
  unfold EDDSA._batchVerify.
  destruct (EDDSA._batchVerify_loop rng batch ph ctx None) as [[|]|];
    simpl; congruence.
Qed.

End Refused.

(** [bad_context_is_refused] on the integers modulo 7, a curve that takes
    no context: a context without the pre-hash flag. *)
Lemma bad_context_is_refused_witness :
  (exists e, @EDDSA.verify Toy.curve7 Toy.hash_sum [1; 2; 3] [3; 5] [1]
               None (Some [8]) = Throw e) /\
  (exists e, @EDDSA.batchVerify Toy.curve7 Toy.hash_sum Toy.rng_counter 0
               [([1; 2; 3], [3; 5], [1])] None (Some [8]) = Throw e) /\
  (exists e, @EDDSA.signWithScalar Toy.curve7 Toy.hash_sum Toy.rng_counter
               0 [1; 2; 3] [8] [4] None (Some [8]) = Throw e) /\
  (exists e, @EDDSA.sign Toy.curve7 Toy.hash_sum Toy.rng_counter 0
               [1; 2; 3] [9] None (Some [8]) = Throw e).
Proof.
  apply (@bad_context_is_refused Toy.curve7 Toy.hash_sum Toy.rng_counter 0
           [1; 2; 3] [3; 5] [1] [9] [8] [4] [([1; 2; 3], [3; 5], [1])]
           None (Some [8])).
  vm_compute. discriminate.
Defined.

(** [bad_secret_is_refused] on the integers modulo 7, where a secret has
    one byte. *)
Lemma bad_secret_is_refused_witness :
  @EDDSA.hashKey Toy.curve7 Toy.hash_sum [1; 2] = Throw "Assertion failed." /\
  @EDDSA.privateKeyConvert Toy.curve7 Toy.hash_sum [1; 2]
    = Throw "Assertion failed." /\
  @EDDSA.publicKeyCreate Toy.curve7 Toy.hash_sum [1; 2]
    = Throw "Assertion failed." /\
  @EDDSA.sign Toy.curve7 Toy.hash_sum Toy.rng_counter 0 [5] [1; 2] None None
    = Throw "Assertion failed." /\
  @EDDSA.signTweakAdd Toy.curve7 Toy.hash_sum Toy.rng_counter Toy.multi_sum
    0 [5] [1; 2] [3] None None = Throw "Assertion failed." /\
  @EDDSA.signTweakMul Toy.curve7 Toy.hash_sum Toy.rng_counter Toy.multi_sum
    0 [5] [1; 2] [3] None None = Throw "Assertion failed." /\
  @EDDSA.derive Toy.curve7 Toy.hash_sum Toy.rng_counter Toy.ops7 0 [3]
    [1; 2] = Throw "Assertion failed.".
Proof.
  apply (@bad_secret_is_refused Toy.curve7 Toy.hash_sum Toy.rng_counter
           Toy.ops7 Toy.multi_sum 0 [5] [1; 2] [3] [3] None None).
  reflexivity.
Defined.

(** [batch_rejects_large_S] on the integers modulo 7: the second signature
    of the batch carries the scalar 12. *)
Lemma batch_rejects_large_S_witness :
  @EDDSA.batchVerify Toy.curve7 Toy.hash_sum Toy.rng_counter 0
    [([1; 2; 3], [3; 5], [1]); ([1], [3; 12], [1])] None None = Ok false.
Proof.
  apply (@batch_rejects_large_S Toy.curve7 Toy.hash_sum Toy.rng_counter 0
           [([1; 2; 3], [3; 5], [1]); ([1], [3; 12], [1])] None None
           [1] [3; 12] [1] 12).
  - reflexivity.
  - do 2 constructor.
  - reflexivity.
  - vm_compute. discriminate.
Defined.

(** ** Signing with a scalar, and tweaked keys *)

Section Keys.
Context {C : Curve} {H : Hash} {R : Rng} {O : CurveOps} {M : HashMulti}.
Hypothesis facade : eddsa_facade_ok.

Lemma size_nonneg : 0 <= curve_size.
Proof.
  destruct (ok_mul_g facade 0) as (P & b & _ & _ & Hlen & _).
  rewrite <- Hlen. apply blen_nonneg.
Qed.

Lemma mul_congr (x y : Z) :
  x mod curve_n = y mod curve_n ->
  point_mul curve_g x = point_mul curve_g y.
Proof.
  intros Hxy. rewrite <- (ok_mul_mod facade x), <- (ok_mul_mod facade y).
  rewrite Hxy. reflexivity.
Qed.

Lemma publicKeyFromScalar_spec (scalar : list Z) (a : Z) :
  decodeScalar scalar = Ok a ->
  exists PA Ab,
    point_mul curve_g a = Ok PA /\
    EDDSA.publicKeyFromScalar scalar = Ok Ab /\
    blen Ab = curve_size /\ decodePoint Ab = Ok PA.
Proof.
  intros Ha.
  destruct (ok_mul_g facade a) as (PA & Ab & HPA & HAb & HAlen & HAdec).
  exists PA, Ab. split; [exact HPA|]. split; [|tauto].
  unfold EDDSA.publicKeyFromScalar. unfold_bind. step Ha.
  rewrite (ok_mulBlind facade), (ok_mul_mod facade). step HPA. exact HAb.
Qed.

(** What [signWithScalar] returns is a signature as [honest] describes
    it, under the key [publicKeyFromScalar] returns. *)
Lemma signWithScalar_honest (rng : rng_state) (msg scalar nonce : list Z)
    (ph : option bool) (ctx : option (list Z)) (a : Z) :
  EDDSA.check_args ph ctx = Ok tt ->
  decodeScalar scalar = Ok a -> blen nonce = EDDSA.size ->
  exists sig rng' pub,
    EDDSA.signWithScalar rng msg scalar nonce ph ctx = Ok (sig, rng') /\
    EDDSA.publicKeyFromScalar scalar = Ok pub /\
    honest a msg sig pub ph ctx.
Proof.
  intros Hargs Ha Hnonce. pose proof (curve_n_gt_1 facade) as Hn.
  destruct (ok_mul_g facade a) as (PA & Ab & HPA & HAb & HAlen & HAdec).
  destruct (hashInt_total facade ph ctx [nonce; msg] Hargs) as (r & Hr & Hrn).
  destruct (ok_mul_g facade r) as (PR & Rb & HPR & HRb & HRlen & HRdec).
  destruct (hashInt_total facade ph ctx [Rb; Ab; msg] Hargs)
    as (h & Hh & Hhn).
  destruct (ok_random facade rng 1 curve_n Hn) as (b & rng' & Hb & Hbn).
  pose proof (unblind curve_n r h a b (ok_n_prime facade) Hbn) as HS.
  assert (0 <= (r + h * a) mod curve_n < curve_n) as HSn
    by (apply Z.mod_pos_bound; lia).
  destruct (ok_encodeInt facade _ HSn) as (Sb & HSb & HSlen & HSdec).
  exists (Rb ++ Sb), rng', Ab. split; [|split].
  - unfold EDDSA.signWithScalar. unfold_bind.
    rewrite bool_decide_true by assumption. simpl.
    step Ha. rewrite (ok_mulBlind facade). step HPA. step HAb. step Hr.
    rewrite (ok_mulBlind facade). step HPR. step HRb. step Hh. step Hb.
    unfold EDDSA.blinded_S. rewrite HS. step HSb. reflexivity.
  - unfold EDDSA.publicKeyFromScalar. unfold_bind. step Ha.
    rewrite (ok_mulBlind facade), (ok_mul_mod facade). step HPA. exact HAb.
  - exists r, h, PA, PR, Rb, Sb. tauto.
Qed.

(** [verify] accepts every signature that [honest] describes. *)
Lemma verify_honest (a : Z) (msg sig key : list Z) (ph : option bool)
    (ctx : option (list Z)) :
  EDDSA.check_args ph ctx = Ok tt ->
  honest a msg sig key ph ctx ->
  EDDSA.verify msg sig key ph ctx = Ok true.
Proof.
  intros Hargs (r & h & PA & PR & Rb & Sb & -> & HRlen & HSlen & HPA &
                HAdec & HAlen & HPR & HRdec & Hh & HSdec).
  pose proof (curve_n_gt_1 facade) as Hn.
  assert (0 <= (r + h * a) mod curve_n < curve_n) as HSn
    by (apply Z.mod_pos_bound; lia).
  destruct (ok_mul_g facade (r + h * a)) as (L & Lb & HL & _).
  destruct (dbl_loop_same facade (Z.to_nat curve_hc) L) as [Q HQ].
  unfold EDDSA.verify. rewrite Hargs. simpl.
  rewrite bool_decide_false
    by (unfold blen in *; rewrite length_app; unfold EDDSA.size; lia).
  rewrite bool_decide_false by (unfold EDDSA.size; lia).
  unfold EDDSA._verify. unfold_bind.
  rewrite slice_app_prefix by assumption.
  rewrite slice_from_app by assumption.
  step HRdec. step HSdec. step HAdec.
  rewrite bool_decide_false by lia.
  step Hh. rewrite (ok_mul_mod facade). step HL.
  rewrite (ok_mul_mul facade a PA h HPA).
  destruct (ok_mul_g facade (a * h)) as (PAh & ? & HPAh & _).
  step HPAh.
  rewrite (ok_add facade r (a * h) PR PAh HPR HPAh).
  replace (r + a * h) with (r + h * a) by ring.
  step HL. step HQ. rewrite (ok_eq_refl facade). reflexivity.
Qed.

(** With interfaces that keep their contract, a scalar that decodes, a
    nonce of [size] bytes and [ph], [ctx] that pass the argument
    assertions, [signWithScalar] returns a signature,
    [publicKeyFromScalar] returns a key, and [verify] of the message, that
    signature and that key returns [true]. *)
Theorem signWithScalar_then_verify (rng : rng_state)
    (msg scalar nonce : list Z) (ph : option bool) (ctx : option (list Z))
    (a : Z) :
  EDDSA.check_args ph ctx = Ok tt ->
  decodeScalar scalar = Ok a -> blen nonce = EDDSA.size ->
  exists sig rng' pub,
    EDDSA.signWithScalar rng msg scalar nonce ph ctx = Ok (sig, rng') /\
    EDDSA.publicKeyFromScalar scalar = Ok pub /\
    EDDSA.verify msg sig pub ph ctx = Ok true.
Proof.
  intros Hargs Ha Hnonce.
  destruct (signWithScalar_honest rng msg scalar nonce ph ctx a Hargs Ha
              Hnonce) as (sig & rng' & pub & Hs & Hp & Hh).
  exists sig, rng', pub. split; [exact Hs|]. split; [exact Hp|].
  exact (verify_honest a msg sig pub ph ctx Hargs Hh).
Qed.

End Keys.

(** [signWithScalar_then_verify] on the integers modulo 7, with the scalar
    5 and the nonce [4]. *)
Lemma signWithScalar_then_verify_witness :
  exists sig rng' pub,
    @EDDSA.signWithScalar Toy.curve7 Toy.hash_sum Toy.rng_counter 3
      [1; 2; 3] [5] [4] None None = Ok (sig, rng') /\
    @EDDSA.publicKeyFromScalar Toy.curve7 [5] = Ok pub /\
    @EDDSA.verify Toy.curve7 Toy.hash_sum [1; 2; 3] sig pub None None
      = Ok true.
Proof.
  apply (@signWithScalar_then_verify Toy.curve7 Toy.hash_sum
           Toy.rng_counter toy_facade_ok 3 [1; 2; 3] [5] [4] None None 5).
  - reflexivity.
  - reflexivity.
  - reflexivity.
Defined.

Section Tweaks.
Context {C : Curve} {H : Hash} {R : Rng} {O : CurveOps} {M : HashMulti}.
Hypothesis facade : eddsa_facade_ok.

(** Scalars below [n] encode, and decode back. *)
Hypothesis encodeScalar_ok : forall s,
  0 <= s < curve_n ->
  exists b, encodeScalar s = Ok b /\ decodeScalar b = Ok s.

Lemma scalarTweakAdd_spec (scalar tweak : list Z) (a t : Z) :
  decodeScalar scalar = Ok a -> decodeScalar tweak = Ok t ->
  (a + t) mod curve_n <> 0 ->
  exists b, EDDSA.scalarTweakAdd scalar tweak = Ok b /\
            decodeScalar b = Ok ((a + t) mod curve_n).
Proof.
  intros Ha Ht Hnz. pose proof (curve_n_gt_1 facade) as Hn.
  destruct (encodeScalar_ok ((a + t) mod curve_n)) as (b & Hb & Hdec);
    [apply Z.mod_pos_bound; lia|].
  exists b. split; [|exact Hdec].
  unfold EDDSA.scalarTweakAdd. unfold_bind. step Ha. step Ht.
  rewrite bool_decide_false by assumption. exact Hb.
Qed.

Lemma scalarTweakMul_spec (scalar tweak : list Z) (a t : Z) :
  decodeScalar scalar = Ok a -> decodeScalar tweak = Ok t ->
  (a * t) mod curve_n <> 0 ->
  exists b, EDDSA.scalarTweakMul scalar tweak = Ok b /\
            decodeScalar b = Ok ((a * t) mod curve_n).
Proof.
  intros Ha Ht Hnz. pose proof (curve_n_gt_1 facade) as Hn.
  destruct (encodeScalar_ok ((a * t) mod curve_n)) as (b & Hb & Hdec);
    [apply Z.mod_pos_bound; lia|].
  exists b. split; [|exact Hdec].
  unfold EDDSA.scalarTweakMul. unfold_bind. step Ha. step Ht.
  rewrite bool_decide_false by assumption. exact Hb.
Qed.

Lemma publicKeyTweakAdd_spec (key tweak : list Z) (a t : Z) (PA : point) :
  point_mul curve_g a = Ok PA -> decodePoint key = Ok PA ->
  decodeScalar tweak = Ok t ->
  exists P b,
    point_mul curve_g (a + t) = Ok P /\
    EDDSA.publicKeyTweakAdd key tweak = Ok b /\
    blen b = curve_size /\ decodePoint b = Ok P.
Proof.
  intros HPA Hkey Ht.
  destruct (ok_mul_g facade t) as (PT & ? & HPT & _).
  destruct (ok_mul_g facade (a + t)) as (P & b & HP & Hb & Hlen & Hdec).
  exists P, b. split; [exact HP|]. split; [|tauto].
  unfold EDDSA.publicKeyTweakAdd. unfold_bind. step Ht. step Hkey.
  rewrite (ok_mul_mod facade). step HPT.
  rewrite (ok_add facade t a PT PA HPT HPA).
  replace (t + a) with (a + t) by ring. step HP. exact Hb.
Qed.

Lemma publicKeyTweakMul_spec (key tweak : list Z) (a t : Z) (PA : point) :
  point_mul curve_g a = Ok PA -> decodePoint key = Ok PA ->
  decodeScalar tweak = Ok t ->
  exists P b,
    point_mul curve_g (a * t) = Ok P /\
    EDDSA.publicKeyTweakMul key tweak = Ok b /\
    blen b = curve_size /\ decodePoint b = Ok P.
Proof.
  intros HPA Hkey Ht. pose proof (curve_n_gt_1 facade) as Hn.
  destruct (ok_mul_g facade (a * t)) as (P & b & HP & Hb & Hlen & Hdec).
  exists P, b. split; [exact HP|]. split; [|tauto].
  unfold EDDSA.publicKeyTweakMul. unfold_bind. step Ht. step Hkey.
  rewrite (ok_mul_mul facade a PA _ HPA).
  rewrite (mul_congr facade (a * (t mod curve_n)) (a * t))
    by (rewrite Zmult_mod_idemp_r; reflexivity).
  step HP. exact Hb.
Qed.

(** The keys of a tweaked scalar, by way of the scalar and by way of the
    public key. *)
Lemma tweaked_scalar_keys (scalar tweak : list Z) (a t : Z) :
  decodeScalar scalar = Ok a -> decodeScalar tweak = Ok t ->
  exists pub,
    EDDSA.publicKeyFromScalar scalar = Ok pub /\
    ((a + t) mod curve_n <> 0 ->
       exists s tpub,
         EDDSA.scalarTweakAdd scalar tweak = Ok s /\
         EDDSA.publicKeyFromScalar s = Ok tpub /\
         EDDSA.publicKeyTweakAdd pub tweak = Ok tpub) /\
    ((a * t) mod curve_n <> 0 ->
       exists s tpub,
         EDDSA.scalarTweakMul scalar tweak = Ok s /\
         EDDSA.publicKeyFromScalar s = Ok tpub /\
         EDDSA.publicKeyTweakMul pub tweak = Ok tpub).
Proof.
  intros Ha Ht.
  destruct (publicKeyFromScalar_spec facade scalar a Ha)
    as (PA & pub & HPA & Hpub & _ & Hdec).
  exists pub. split; [exact Hpub|]. split.
  - intros Hnz.
    destruct (scalarTweakAdd_spec scalar tweak a t Ha Ht Hnz)
      as (s & Hs & Hsdec).
    destruct (publicKeyFromScalar_spec facade s _ Hsdec)
      as (P1 & tpub & HP1 & Htpub & _ & _).
    destruct (publicKeyTweakAdd_spec pub tweak a t PA HPA Hdec Ht)
      as (P2 & b2 & HP2 & Hb2 & _ & Hb2dec).
    exists s, tpub. split; [exact Hs|]. split; [exact Htpub|].
    rewrite (ok_mul_mod facade) in HP1. rewrite HP2 in HP1.
    inversion HP1; subst P2.
    unfold EDDSA.publicKeyFromScalar in Htpub. unfold_bind.
    rewrite Hsdec in Htpub. cbv beta iota zeta in Htpub.
    rewrite (ok_mulBlind facade), (ok_mul_mod facade) in Htpub.
    rewrite (ok_mul_mod facade), HP2 in Htpub.
    cbv beta iota in Htpub.
    unfold EDDSA.publicKeyTweakAdd in Hb2 |- *. unfold_bind.
    rewrite Ht, Hdec in Hb2 |- *. cbv beta iota zeta in Hb2 |- *.
    destruct (ok_mul_g facade t) as (PT & ? & HPT & _).
    rewrite (ok_mul_mod facade), HPT in Hb2 |- *.
    cbv beta iota in Hb2 |- *.
    rewrite (ok_add facade t a PT PA HPT HPA) in Hb2 |- *.
    replace (t + a) with (a + t) in Hb2 |- * by ring.
    rewrite HP2 in Hb2 |- *. cbv beta iota in Hb2 |- *.
    exact Htpub.
  - intros Hnz.
    destruct (scalarTweakMul_spec scalar tweak a t Ha Ht Hnz)
      as (s & Hs & Hsdec).
    destruct (publicKeyFromScalar_spec facade s _ Hsdec)
      as (P1 & tpub & HP1 & Htpub & _ & _).
    destruct (publicKeyTweakMul_spec pub tweak a t PA HPA Hdec Ht)
      as (P2 & b2 & HP2 & Hb2 & _ & Hb2dec).
    exists s, tpub. split; [exact Hs|]. split; [exact Htpub|].
    rewrite (ok_mul_mod facade) in HP1. rewrite HP2 in HP1.
    inversion HP1; subst P2.
    unfold EDDSA.publicKeyFromScalar in Htpub. unfold_bind.
    rewrite Hsdec in Htpub. cbv beta iota zeta in Htpub.
    rewrite (ok_mulBlind facade), (ok_mul_mod facade) in Htpub.
    rewrite (ok_mul_mod facade), HP2 in Htpub.
    cbv beta iota in Htpub.
    rewrite Hb2. rewrite <- Htpub.
    unfold EDDSA.publicKeyTweakMul in Hb2. unfold_bind.
    rewrite Ht, Hdec in Hb2. cbv beta iota zeta in Hb2.
    rewrite (ok_mul_mul facade a PA _ HPA) in Hb2.
    rewrite (mul_congr facade (a * (t mod curve_n)) (a * t)) in Hb2
      by (rewrite Zmult_mod_idemp_r; reflexivity).
    rewrite HP2 in Hb2. cbv beta iota in Hb2. symmetry. exact Hb2.
Qed.

(** With interfaces that keep their contract, tweaking a scalar and then
    taking its public key gives the key that tweaking the public key gives,
    for addition and for multiplication, whenever the tweaked scalar is not
    zero modulo [n]. *)
Theorem public_key_of_tweaked_scalar (scalar tweak : list Z) (a t : Z) :
  decodeScalar scalar = Ok a -> decodeScalar tweak = Ok t ->
  exists pub,
    EDDSA.publicKeyFromScalar scalar = Ok pub /\
    ((a + t) mod curve_n <> 0 ->
       exists s tpub,
         EDDSA.scalarTweakAdd scalar tweak = Ok s /\
         EDDSA.publicKeyFromScalar s = Ok tpub /\
         EDDSA.publicKeyTweakAdd pub tweak = Ok tpub) /\
    ((a * t) mod curve_n <> 0 ->
       exists s tpub,
         EDDSA.scalarTweakMul scalar tweak = Ok s /\
         EDDSA.publicKeyFromScalar s = Ok tpub /\
         EDDSA.publicKeyTweakMul pub tweak = Ok tpub).
Proof.
  exact (tweaked_scalar_keys scalar tweak a t).
Qed.

End Tweaks.

Lemma toy_encodeScalar_ok (s : Z) :
  0 <= s < @curve_n Toy.curve7 ->
  exists b, @encodeScalar Toy.curve7 s = Ok b /\
            @decodeScalar Toy.curve7 b = Ok s.
Proof.
  simpl. intros Hs. unfold Toy.encode1.
  rewrite bool_decide_true by lia. eexists. split; reflexivity.
Qed.

(** [public_key_of_tweaked_scalar] on the integers modulo 7, with the
    scalar 5 and the tweak 3. *)
Lemma public_key_of_tweaked_scalar_witness :
  exists pub s tpub s' tpub',
    @EDDSA.publicKeyFromScalar Toy.curve7 [5] = Ok pub /\
    @EDDSA.scalarTweakAdd Toy.curve7 [5] [3] = Ok s /\
    @EDDSA.publicKeyFromScalar Toy.curve7 s = Ok tpub /\
    @EDDSA.publicKeyTweakAdd Toy.curve7 pub [3] = Ok tpub /\
    @EDDSA.scalarTweakMul Toy.curve7 [5] [3] = Ok s' /\
    @EDDSA.publicKeyFromScalar Toy.curve7 s' = Ok tpub' /\
    @EDDSA.publicKeyTweakMul Toy.curve7 pub [3] = Ok tpub'.
Proof.
  destruct (@public_key_of_tweaked_scalar Toy.curve7 Toy.hash_sum
              Toy.rng_counter toy_facade_ok toy_encodeScalar_ok [5] [3] 5 3
              eq_refl eq_refl) as (pub & Hpub & Hadd & Hmul).
  assert ((5 + 3) mod @curve_n Toy.curve7 <> 0) as Hnz1
    by (vm_compute; discriminate).
  assert ((5 * 3) mod @curve_n Toy.curve7 <> 0) as Hnz2
    by (vm_compute; discriminate).
  destruct (Hadd Hnz1) as (s & tpub & Hs & Hspub & Htpub).
  destruct (Hmul Hnz2) as (s' & tpub' & Hs' & Hspub' & Htpub').
  exists pub, s, tpub, s', tpub'. auto 10.
Defined.

Section TweakSign.
Context {C : Curve} {H : Hash} {R : Rng} {O : CurveOps} {M : HashMulti}.
Hypothesis facade : eddsa_facade_ok.

Hypothesis encodeScalar_ok : forall s,
  0 <= s < curve_n ->
  exists b, encodeScalar s = Ok b /\ decodeScalar b = Ok s.

(** [hash.multi] returns as many bytes as it is asked for. *)
Hypothesis hash_multi_ok : forall one two len,
  0 <= len ->
  exists d, hash_multi one two None len = Ok d /\ blen d = len.

Lemma expanded_nonce (d : list Z) :
  blen d = EDDSA.size * 2 -> blen (slice d 0 EDDSA.size) = EDDSA.size.
Proof.
  intros Hd. pose proof (size_nonneg facade) as Hs.
  rewrite blen_slice_prefix. unfold EDDSA.size in *.
  rewrite decide_False by lia. lia.
Qed.

(** With interfaces that keep their contract, [signTweakAdd] returns a
    signature that [verify] accepts under the key [publicKeyTweakAdd] makes
    of the public key of the secret, and [signTweakMul] one that [verify]
    accepts under the key [publicKeyTweakMul] makes of it, whenever the
    tweaked scalar is not zero modulo [n]. *)
Theorem tweaked_signature_verifies (rng : rng_state)
    (msg secret tweak key : list Z) (ph : option bool)
    (ctx : option (list Z)) (a t : Z) :
  EDDSA.check_args ph ctx = Ok tt ->
  EDDSA.privateKeyConvert secret = Ok key ->
  decodeScalar key = Ok a -> decodeScalar tweak = Ok t ->
  exists pub,
    EDDSA.publicKeyCreate secret = Ok pub /\
    ((a + t) mod curve_n <> 0 ->
       exists sig rng' tpub,
         EDDSA.signTweakAdd rng msg secret tweak ph ctx = Ok (sig, rng') /\
         EDDSA.publicKeyTweakAdd pub tweak = Ok tpub /\
         EDDSA.verify msg sig tpub ph ctx = Ok true) /\
    ((a * t) mod curve_n <> 0 ->
       exists sig rng' tpub,
         EDDSA.signTweakMul rng msg secret tweak ph ctx = Ok (sig, rng') /\
         EDDSA.publicKeyTweakMul pub tweak = Ok tpub /\
         EDDSA.verify msg sig tpub ph ctx = Ok true).
Proof.
  intros Hargs Hconv Ha Ht.
  unfold EDDSA.privateKeyConvert in Hconv. unfold_bind.
  destruct (EDDSA.hashKey secret) as [hash|] eqn:Hhash; [|discriminate].
  cbv beta iota in Hconv.
  destruct (splitHash hash) as [[key_ nonce_]|] eqn:Hsplit; [|discriminate].
  cbv beta iota in Hconv. inversion Hconv; subst key_.
  assert (0 <= EDDSA.size * 2) as Hsz
    by (pose proof (size_nonneg facade); unfold EDDSA.size; lia).
  destruct (hash_multi_ok nonce_ tweak (EDDSA.size * 2) Hsz)
    as (d & Hd & Hdlen).
  pose proof (expanded_nonce d Hdlen) as Hnonce.
  destruct (tweaked_scalar_keys facade encodeScalar_ok key tweak
              a t Ha Ht) as (pub & Hpub & Hadd & Hmul).
  exists pub. split.
  { unfold EDDSA.publicKeyCreate, EDDSA.privateKeyConvert. unfold_bind.
    rewrite Hhash. cbv beta iota. rewrite Hsplit. cbv beta iota.
    exact Hpub. }
  split.
  - intros Hnz. destruct (Hadd Hnz) as (s & tpub & Hs & Hspub & Htpub).
    destruct (scalarTweakAdd_spec facade encodeScalar_ok key tweak a t Ha Ht
                Hnz) as (s' & Hs' & Hsdec).
    rewrite Hs in Hs'. inversion Hs'; subst s'.
    destruct (signWithScalar_honest facade rng msg s (slice d 0 EDDSA.size)
                ph ctx _ Hargs Hsdec Hnonce)
      as (sig & rng' & pub' & Hsig & Hpub' & Hhonest).
    rewrite Hspub in Hpub'. inversion Hpub'; subst pub'.
    exists sig, rng', tpub. split; [|split; [exact Htpub|]].
    + unfold EDDSA.signTweakAdd. unfold_bind.
      rewrite Hhash. cbv beta iota. rewrite Hsplit. cbv beta iota.
      rewrite Hs. cbv beta iota. rewrite Hd. cbv beta iota zeta.
      exact Hsig.
    + exact (verify_honest facade _ msg sig tpub ph ctx Hargs Hhonest).
  - intros Hnz. destruct (Hmul Hnz) as (s & tpub & Hs & Hspub & Htpub).
    destruct (scalarTweakMul_spec facade encodeScalar_ok key tweak a t Ha Ht
                Hnz) as (s' & Hs' & Hsdec).
    rewrite Hs in Hs'. inversion Hs'; subst s'.
    destruct (signWithScalar_honest facade rng msg s (slice d 0 EDDSA.size)
                ph ctx _ Hargs Hsdec Hnonce)
      as (sig & rng' & pub' & Hsig & Hpub' & Hhonest).
    rewrite Hspub in Hpub'. inversion Hpub'; subst pub'.
    exists sig, rng', tpub. split; [|split; [exact Htpub|]].
    + unfold EDDSA.signTweakMul. unfold_bind.
      rewrite Hhash. cbv beta iota. rewrite Hsplit. cbv beta iota.
      rewrite Hs. cbv beta iota. rewrite Hd. cbv beta iota zeta.
      exact Hsig.
    + exact (verify_honest facade _ msg sig tpub ph ctx Hargs Hhonest).
Qed.

End TweakSign.

Lemma toy_hash_multi_ok (one two : list Z) (len : Z) :
  0 <= len ->
  exists d, @hash_multi Toy.multi_sum one two None len = Ok d /\
            blen d = len.
Proof.
  intros Hlen. eexists. split; [reflexivity|].
  unfold Toy.digest_sum, blen. rewrite length_map, length_seqZ. lia.
Qed.

(** [tweaked_signature_verifies] on the integers modulo 7, with the seed
    [9] and the tweak 3, by addition. *)
Lemma tweaked_signature_verifies_witness :
  exists pub sig rng' tpub,
    @EDDSA.publicKeyCreate Toy.curve7 Toy.hash_sum [9] = Ok pub /\
    @EDDSA.signTweakAdd Toy.curve7 Toy.hash_sum Toy.rng_counter
      Toy.multi_sum 3 [1; 2; 3] [9] [3] None None = Ok (sig, rng') /\
    @EDDSA.publicKeyTweakAdd Toy.curve7 pub [3] = Ok tpub /\
    @EDDSA.verify Toy.curve7 Toy.hash_sum [1; 2; 3] sig tpub None None
      = Ok true.
Proof.
  destruct (@tweaked_signature_verifies Toy.curve7 Toy.hash_sum
              Toy.rng_counter Toy.multi_sum toy_facade_ok
              toy_encodeScalar_ok toy_hash_multi_ok 3 [1; 2; 3] [9] [3]
              [8] None None 8 3 eq_refl eq_refl eq_refl eq_refl)
    as (pub & Hpub & Hadd & _).
  assert ((8 + 3) mod @curve_n Toy.curve7 <> 0) as Hnz
    by (vm_compute; discriminate).
  destruct (Hadd Hnz) as (sig & rng' & tpub & Hsig & Htpub & Hv).
  exists pub, sig, rng', tpub. auto.
Defined.

Section Scalars.
Context {C : Curve} {H : Hash} {R : Rng} {O : CurveOps}.
Hypothesis n_gt_1 : 1 < curve_n.

Hypothesis encodeScalar_ok : forall s,
  0 <= s < curve_n ->
  exists b, encodeScalar s = Ok b /\ decodeScalar b = Ok s.

Lemma scalarNegate_spec (sc : list Z) (x : Z) :
  decodeScalar sc = Ok x ->
  exists b, EDDSA.scalarNegate sc = Ok b /\
            decodeScalar b = Ok ((- x) mod curve_n).
Proof.
  intros Hx.
  destruct (encodeScalar_ok ((- x) mod curve_n)) as (b & Hb & Hdec);
    [apply Z.mod_pos_bound; lia|].
  exists b. split; [|exact Hdec].
  unfold EDDSA.scalarNegate. unfold_bind. step Hx.
  case_bool_decide as Hz.
  - rewrite Hz. rewrite Z.mod_opp_l_z in Hb by lia. exact Hb.
  - rewrite Z.mod_opp_l_nz in Hb by lia. exact Hb.
Qed.

(** With scalars that encode and decode back, [scalarNegate] returns the
    encoding of [-a mod n]; negating twice gives [a mod n]; and
    [scalarTweakAdd] of a scalar and its negation is refused as a zero
    scalar. *)
Theorem scalarNegate_is_negation (scalar : list Z) (a : Z) :
  decodeScalar scalar = Ok a ->
  exists nb nnb,
    EDDSA.scalarNegate scalar = Ok nb /\
    decodeScalar nb = Ok ((- a) mod curve_n) /\
    EDDSA.scalarNegate nb = Ok nnb /\
    decodeScalar nnb = Ok (a mod curve_n) /\
    EDDSA.scalarTweakAdd scalar nb = Throw "Invalid scalar.".
Proof.
  intros Ha.
  pose proof scalarNegate_spec as Hneg.
  destruct (Hneg scalar a Ha) as (nb & Hnb & Hnbdec).
  destruct (Hneg nb _ Hnbdec) as (nnb & Hnnb & Hnnbdec).
  exists nb, nnb. split; [exact Hnb|]. split; [exact Hnbdec|].
  split; [exact Hnnb|]. split.
  - rewrite Hnnbdec. f_equal.
    rewrite <- Z.sub_0_l, Zminus_mod_idemp_r. f_equal. lia.
  - unfold EDDSA.scalarTweakAdd. unfold_bind. step Ha. step Hnbdec.
    rewrite bool_decide_true; [reflexivity|].
    rewrite Zplus_mod_idemp_r. replace (a + - a) with 0 by lia.
    apply Z.mod_0_l. lia.
Qed.

(** [invm] returns an inverse modulo [n] of what is not zero modulo
    [n]. *)
Hypothesis invm_ok : forall a,
  0 < a < curve_n ->
  exists s, BN_invm a curve_n = Ok s /\ 0 < s < curve_n /\
            (a * s) mod curve_n = 1.

(** [scalarInverse] refuses a scalar that is zero modulo [n]; of any
    other it returns, with scalars that encode and decode back and an
    [invm] that inverts, the encoding of an inverse modulo [n]: the product
    [scalarTweakMul] makes of the two is the encoding of 1, and inverting
    twice gives [a mod n]. *)
Theorem scalarInverse_is_inverse (scalar : list Z) (a : Z) :
  decodeScalar scalar = Ok a ->
  (a mod curve_n = 0 ->
     EDDSA.scalarInverse scalar = Throw "Invalid scalar.") /\
  (a mod curve_n <> 0 ->
     exists ib iib s,
       EDDSA.scalarInverse scalar = Ok ib /\
       decodeScalar ib = Ok s /\ (a * s) mod curve_n = 1 /\
       EDDSA.scalarTweakMul scalar ib = encodeScalar 1 /\
       EDDSA.scalarInverse ib = Ok iib /\
       decodeScalar iib = Ok (a mod curve_n)).
Proof.
  intros Ha. split.
  - intros Hz. unfold EDDSA.scalarInverse. unfold_bind. step Ha.
    rewrite bool_decide_true by assumption. reflexivity.
  - intros Hnz.
    assert (forall sc x, decodeScalar sc = Ok x -> x mod curve_n <> 0 ->
              exists b s, EDDSA.scalarInverse sc = Ok b /\
                          decodeScalar b = Ok s /\ 0 < s < curve_n /\
                          (x * s) mod curve_n = 1) as Hinv.
    { intros sc x Hx Hxnz.
      assert (0 < curve_n) as Hn0 by lia.
      pose proof (Z.mod_pos_bound x curve_n Hn0) as Hb.
      assert (0 < x mod curve_n < curve_n) as Hxr by lia.
      destruct (invm_ok (x mod curve_n) Hxr) as (s & Hs & Hsn & Hmul).
      assert (0 <= s < curve_n) as Hsr by lia.
      destruct (encodeScalar_ok s Hsr) as (b & Hbenc & Hbdec).
      exists b, s. split; [|split; [exact Hbdec|split; [exact Hsn|]]].
      - unfold EDDSA.scalarInverse. unfold_bind. step Hx.
        rewrite bool_decide_false by assumption. step Hs.
        rewrite bool_decide_false by lia. exact Hbenc.
      - rewrite Zmult_mod_idemp_l in Hmul. exact Hmul. }
    destruct (Hinv scalar a Ha Hnz) as (ib & s & Hib & Hibdec & Hsn & Hmul).
    assert (s mod curve_n <> 0) as Hsnz by (rewrite Z.mod_small; lia).
    destruct (Hinv ib s Hibdec Hsnz) as (iib & s' & Hiib & Hiibdec & Hsn' &
                                         Hmul').
    exists ib, iib, s. split; [exact Hib|]. split; [exact Hibdec|].
    split; [exact Hmul|]. split; [|split; [exact Hiib|]].
    + unfold EDDSA.scalarTweakMul. unfold_bind. step Ha. step Hibdec.
      rewrite Hmul. rewrite bool_decide_false by lia. reflexivity.
    + rewrite Hiibdec. f_equal.
      (* s' = s' * (a * s) = a * (s * s') = a, modulo n *)
      rewrite <- (Z.mod_small s' curve_n) by lia.
      rewrite <- (Z.mul_1_r s') at 1. rewrite <- Hmul.
      rewrite Zmult_mod_idemp_r.
      replace (s' * (a * s)) with (a * (s * s')) by ring.
      rewrite <- Zmult_mod_idemp_r, Hmul', Z.mul_1_r. reflexivity.
Qed.

End Scalars.

Lemma toy_invm_ok (a : Z) :
  0 < a < @curve_n Toy.curve7 ->
  exists s, @BN_invm Toy.curve7 Toy.rng_counter Toy.ops7 a
              (@curve_n Toy.curve7) = Ok s /\
            0 < s < @curve_n Toy.curve7 /\
            (a * s) mod @curve_n Toy.curve7 = 1.
Proof.
  simpl. intros Ha.
  assert (a = 1 \/ a = 2 \/ a = 3 \/ a = 4 \/ a = 5 \/ a = 6)
    as [-> | [-> | [-> | [-> | [-> | ->]]]]] by lia;
    (eexists; split; [reflexivity|]; vm_compute; repeat split).
Qed.

(** [scalarNegate_is_negation] on the integers modulo 7, for the
    scalar 5. *)
Lemma scalarNegate_is_negation_witness :
  exists nb nnb,
    @EDDSA.scalarNegate Toy.curve7 [5] = Ok nb /\
    @decodeScalar Toy.curve7 nb = Ok 2 /\
    @EDDSA.scalarNegate Toy.curve7 nb = Ok nnb /\
    @decodeScalar Toy.curve7 nnb = Ok 5 /\
    @EDDSA.scalarTweakAdd Toy.curve7 [5] nb = Throw "Invalid scalar.".
Proof.
  assert (1 < @curve_n Toy.curve7) as Hn by (simpl; lia).
  exact (@scalarNegate_is_negation Toy.curve7 Hn toy_encodeScalar_ok [5] 5
           eq_refl).
Defined.

(** [scalarInverse_is_inverse] on the integers modulo 7, for the
    scalar 5. *)
Lemma scalarInverse_is_inverse_witness :
  exists ib iib s,
    @EDDSA.scalarInverse Toy.curve7 Toy.rng_counter Toy.ops7 [5] = Ok ib /\
    @decodeScalar Toy.curve7 ib = Ok s /\ (5 * s) mod 7 = 1 /\
    @EDDSA.scalarTweakMul Toy.curve7 [5] ib = @encodeScalar Toy.curve7 1 /\
    @EDDSA.scalarInverse Toy.curve7 Toy.rng_counter Toy.ops7 ib = Ok iib /\
    @decodeScalar Toy.curve7 iib = Ok 5.
Proof.
  assert (1 < @curve_n Toy.curve7) as Hn by (simpl; lia).
  apply (proj2 (@scalarInverse_is_inverse Toy.curve7 Toy.rng_counter
                  Toy.ops7 Hn toy_encodeScalar_ok toy_invm_ok [5] 5
                  eq_refl)).
  vm_compute. discriminate.
Defined.

Section Agreement.
Context {C : Curve} {H : Hash} {R : Rng} {O : CurveOps}.
Hypothesis facade : eddsa_facade_ok.

(** [point.mulBlind(k, rng)] returns the point that [point.mul(k)]
    returns. *)
Hypothesis mulBlindRng_ok : forall rng P k Q,
  point_mul P k = Ok Q ->
  exists rng', point_mulBlindRng rng P k = Ok (Q, rng').

(** With interfaces that keep their contract, two parties that [derive]
    from their own secret and the public key of the other obtain the same
    bytes. *)
Theorem derive_agrees (rngA rngB : rng_state) (secretA secretB : list Z) :
  blen secretA = EDDSA.size -> blen secretB = EDDSA.size ->
  exists pubA pubB shared rngA' rngB',
    EDDSA.publicKeyCreate secretA = Ok pubA /\
    EDDSA.publicKeyCreate secretB = Ok pubB /\
    EDDSA.derive rngA pubB secretA = Ok (shared, rngA') /\
    EDDSA.derive rngB pubA secretB = Ok (shared, rngB').
Proof.
  intros HlA HlB.
  assert (forall secret, blen secret = EDDSA.size ->
            exists key a PA pub,
              EDDSA.privateKeyConvert secret = Ok key /\
              decodeScalar key = Ok a /\
              point_mul curve_g a = Ok PA /\
              EDDSA.publicKeyCreate secret = Ok pub /\
              decodePoint pub = Ok PA) as Hkeys.
  { intros secret Hl.
    destruct (ok_digest facade secret (EDDSA.size * 2)) as [d Hd].
    destruct (ok_splitHash facade secret d Hd)
      as (key & nonce & a & Hsplit & _ & Ha).
    destruct (publicKeyFromScalar_spec facade key a Ha)
      as (PA & pub & HPA & Hpub & _ & Hdec).
    assert (EDDSA.privateKeyConvert secret = Ok key) as Hconv.
    { unfold EDDSA.privateKeyConvert, EDDSA.hashKey. unfold_bind.
      rewrite bool_decide_true by assumption. simpl.
      step Hd. step Hsplit. reflexivity. }
    exists key, a, PA, pub. split; [exact Hconv|]. split; [exact Ha|].
    split; [exact HPA|]. split; [|exact Hdec].
    unfold EDDSA.publicKeyCreate. unfold_bind. rewrite Hconv. exact Hpub. }
  destruct (Hkeys secretA HlA)
    as (keyA & a & PA & pubA & HconvA & HaA & HPA & HpubA & HdecA).
  destruct (Hkeys secretB HlB)
    as (keyB & b & PB & pubB & HconvB & HaB & HPB & HpubB & HdecB).
  destruct (ok_mul_g facade (a * b)) as (S & shared & HS & Henc & _).
  assert (point_mul PB (a mod curve_n) = Ok S) as HSA.
  { rewrite (ok_mul_mul facade b PB _ HPB).
    rewrite (mul_congr facade (b * (a mod curve_n)) (a * b)); [exact HS|].
    rewrite Zmult_mod_idemp_r. f_equal. ring. }
  assert (point_mul PA (b mod curve_n) = Ok S) as HSB.
  { rewrite (ok_mul_mul facade a PA _ HPA).
    rewrite (mul_congr facade (a * (b mod curve_n)) (a * b)); [exact HS|].
    rewrite Zmult_mod_idemp_r. reflexivity. }
  destruct (mulBlindRng_ok rngA PB _ S HSA) as [rngA' HbA].
  destruct (mulBlindRng_ok rngB PA _ S HSB) as [rngB' HbB].
  exists pubA, pubB, shared, rngA', rngB'.
  split; [exact HpubA|]. split; [exact HpubB|]. split.
  - unfold EDDSA.derive, EDDSA.deriveWithScalar. unfold_bind.
    rewrite HconvA. cbv beta iota. step HaA. step HdecB. step HbA.
    step Henc. reflexivity.
  - unfold EDDSA.derive, EDDSA.deriveWithScalar. unfold_bind.
    rewrite HconvB. cbv beta iota. step HaB. step HdecA. step HbB.
    step Henc. reflexivity.
Qed.

End Agreement.

Lemma toy_mulBlindRng_ok (rng : @rng_state Toy.rng_counter)
    (P : @point Toy.curve7) (k : Z) (Q : @point Toy.curve7) :
  @point_mul Toy.curve7 P k = Ok Q ->
  exists rng',
    @point_mulBlindRng Toy.curve7 Toy.rng_counter Toy.ops7 rng P k
    = Ok (Q, rng').
Proof.
  simpl. intros HQ. inversion HQ; subst. eexists. reflexivity.
Qed.

(** [derive_agrees] on the integers modulo 7, with the seeds [9] and
    [10]. *)
Lemma derive_agrees_witness :
  exists pubA pubB shared rngA' rngB',
    @EDDSA.publicKeyCreate Toy.curve7 Toy.hash_sum [9] = Ok pubA /\
    @EDDSA.publicKeyCreate Toy.curve7 Toy.hash_sum [10] = Ok pubB /\
    @EDDSA.derive Toy.curve7 Toy.hash_sum Toy.rng_counter Toy.ops7 0 pubB
      [9] = Ok (shared, rngA') /\
    @EDDSA.derive Toy.curve7 Toy.hash_sum Toy.rng_counter Toy.ops7 5 pubA
      [10] = Ok (shared, rngB').
Proof.
  apply (@derive_agrees Toy.curve7 Toy.hash_sum Toy.rng_counter Toy.ops7
           toy_facade_ok toy_mulBlindRng_ok 0 5 [9] [10]).
  - reflexivity.
  - reflexivity.
Defined.

(** ** Batches *)

Section BatchOfOne.
Context {C : Curve} {H : Hash} {R : Rng}.

(** Doubling returns, and takes equal points to equal points. *)
Hypothesis dbl_total : forall P, exists Q, point_dbl P = Ok Q.
Hypothesis dbl_eq : forall P Q P' Q',
  point_eq P Q = Ok true -> point_dbl P = Ok P' -> point_dbl Q = Ok Q' ->
  point_eq P' Q' = Ok true.

Lemma dbl_loop_eq (i : nat) (P Q : point) :
  point_eq P Q = Ok true ->
  exists P' Q', EDDSA.dbl_loop i P Q = Ok (P', Q') /\
                point_eq P' Q' = Ok true.
Proof.
  revert P Q. induction i as [|i IH]; intros P Q Heq; simpl; [eauto|].
  destruct (dbl_total P) as [P' HP]. destruct (dbl_total Q) as [Q' HQ].
  unfold_bind. rewrite HP, HQ. apply IH. eapply dbl_eq; eassumption.
Qed.

(** With a doubling that returns and respects equality of points, a
    signature that [batchVerify] accepts as a batch of one is accepted by
    [verify]. *)
Theorem batch_of_one_implies_verify (rng : rng_state)
    (msg sig key : list Z) (ph : option bool) (ctx : option (list Z)) :
  EDDSA.batchVerify rng [(msg, sig, key)] ph ctx = Ok true ->
  EDDSA.verify msg sig key ph ctx = Ok true.
Proof.
  unfold EDDSA.batchVerify, EDDSA.verify. unfold_bind.
  destruct (EDDSA.check_args ph ctx) as [[]|]; [|discriminate].
  cbn [EDDSA.lengths_ok]. unfold EDDSA.size.
  destruct (bool_decide (blen sig <> curve_size * 2)); [discriminate|].
  destruct (bool_decide (blen key <> curve_size)); [discriminate|].
  cbn [negb]. unfold EDDSA._batchVerify, EDDSA._verify.
  cbn [EDDSA._batchVerify_loop]. unfold_bind. unfold EDDSA.size.
  destruct (decodePoint (slice sig 0 curve_size)) as [PR|];
    [|discriminate].
  destruct (decodeInt (slice_from sig curve_size)) as [S|];
    [|discriminate].
  destruct (decodePoint key) as [PA|]; [|discriminate].
  destruct (bool_decide (S >= curve_n)); [discriminate|].
  destruct (EDDSA.hashInt ph ctx _) as [h|]; [|discriminate].
  destruct (point_mul PA h) as [Ah|] eqn:HAh; [|discriminate].
  destruct (point_add PR Ah) as [rhs|] eqn:Hrhs; [|discriminate].
  destruct (point_mul curve_g S) as [lhs|] eqn:Hlhs; [|discriminate].
  cbv beta iota.
  destruct (point_eq lhs rhs) as [[|]|] eqn:Heq; try discriminate.
  intros _.
  destruct (dbl_loop_eq (Z.to_nat curve_hc) lhs rhs Heq)
    as (L' & R' & -> & Heq').
  cbv beta iota. rewrite Heq'. reflexivity.
Qed.

End BatchOfOne.

Lemma toy_dbl_total (P : @point Toy.curve7) :
  exists Q, @point_dbl Toy.curve7 P = Ok Q.
Proof. eexists. reflexivity. Qed.

Lemma toy_dbl_eq (P Q P' Q' : @point Toy.curve7) :
  @point_eq Toy.curve7 P Q = Ok true ->
  @point_dbl Toy.curve7 P = Ok P' -> @point_dbl Toy.curve7 Q = Ok Q' ->
  @point_eq Toy.curve7 P' Q' = Ok true.
Proof.
  simpl. intros Heq HP HQ.
  assert (P = Q) as ->.
  { destruct (decide (P = Q)) as [Hd|Hd]; [exact Hd|].
    rewrite bool_decide_false in Heq by exact Hd. discriminate. }
  clear Heq. inversion HP; inversion HQ; subst.
  f_equal. apply bool_decide_eq_true_2. reflexivity.
Qed.

(** [batch_of_one_implies_verify] on the integers modulo 7, with the
    signature [0; 4] of the message [1; 2; 3] under the key [1]. *)
Lemma batch_of_one_implies_verify_witness :
  @EDDSA.verify Toy.curve7 Toy.hash_sum [1; 2; 3] [0; 4] [1] None None
  = Ok true.
Proof.
  apply (@batch_of_one_implies_verify Toy.curve7 Toy.hash_sum
           Toy.rng_counter toy_dbl_total toy_dbl_eq 0 [1; 2; 3] [0; 4] [1]
           None None).
  reflexivity.
Defined.

Section BatchOfSigned.
Context {C : Curve} {H : Hash} {R : Rng}.
Hypothesis facade : eddsa_facade_ok.

(** [P.mulAdd(a, Q, b)] is [a·P + b·Q] on the multiples of the base
    point. *)
Hypothesis mulAdd_ok : forall x y X Y a b,
  point_mul curve_g x = Ok X -> point_mul curve_g y = Ok Y ->
  point_mulAdd X a Y b = point_mul curve_g (x * a + y * b).

Lemma batch_loop_honest (ph : option bool) (ctx : option (list Z))
    (batch : list (list Z * list Z * list Z)) :
  EDDSA.check_args ph ctx = Ok tt ->
  Forall (fun item => exists a,
            honest a item.1.1 item.1.2 item.2 ph ctx) batch ->
  forall rng acc,
    match acc with
    | None => True
    | Some (lhs, rhs) => point_mul curve_g lhs = Ok rhs
    end ->
    EDDSA._batchVerify_loop rng batch ph ctx acc = Ok true.
Proof.
  intros Hargs Hall. pose proof (curve_n_gt_1 facade) as Hn.
  induction Hall as [|[[msg sig] key] rest Hitem Hrest IH];
    intros rng acc Hacc.
  - cbn [EDDSA._batchVerify_loop]. destruct acc as [[lhs rhs]|];
      [|reflexivity].
    unfold_bind. rewrite Hacc. cbv beta iota. apply (ok_eq_refl facade).
  - destruct Hitem as (a & r & h & PA & PR & Rb & Sb & Hsig & HRlen &
                       HSlen & HPA & HAdec & HAlen & HPR & HRdec & Hh &
                       HSdec).
    cbn [fst snd] in *. subst sig.
    assert (0 <= (r + h * a) mod curve_n < curve_n) as HSn
      by (apply Z.mod_pos_bound; lia).
    destruct (ok_mul_g facade (a * h)) as (PAh & ? & HPAh & _).
    cbn [EDDSA._batchVerify_loop]. unfold_bind.
    rewrite slice_app_prefix by assumption.
    rewrite slice_from_app by assumption.
    step HRdec. step HSdec. step HAdec.
    rewrite bool_decide_false by lia. step Hh.
    destruct acc as [[lhs rhs]|].
    + destruct (ok_random facade rng 1 curve_n Hn) as (v & rng' & Hv & Hvn).
      step Hv.
      rewrite (mulAdd_ok r a PR PA v ((v * h) mod curve_n) HPR HPA).
      destruct (ok_mul_g facade (r * v + a * ((v * h) mod curve_n)))
        as (T & ? & HT & _).
      step HT.
      rewrite (ok_add facade lhs _ rhs T Hacc HT).
      destruct (ok_mul_g facade
                  (lhs + (r * v + a * ((v * h) mod curve_n))))
        as (rhs' & ? & Hrhs' & _).
      step Hrhs'. apply IH. rewrite <- Hrhs'.
      apply (mul_congr facade). rewrite Z.mod_mod by lia.
      rewrite <- (Zplus_mod_idemp_r (v * ((r + h * a) mod curve_n))).
      rewrite Zmult_mod_idemp_r.
      rewrite <- (Zplus_mod_idemp_r (r * v + a * ((v * h) mod curve_n))).
      rewrite <- (Zplus_mod_idemp_r (a * ((v * h) mod curve_n)) (r * v)).
      rewrite Zmult_mod_idemp_r.
      rewrite (Zplus_mod_idemp_r (a * (v * h)) (r * v)).
      rewrite !Zplus_mod_idemp_r. f_equal. ring.
    + rewrite (ok_mul_mul facade a PA h HPA). step HPAh.
      rewrite (ok_add facade r (a * h) PR PAh HPR HPAh).
      destruct (ok_mul_g facade (r + a * h)) as (rhs' & ? & Hrhs' & _).
      step Hrhs'. apply IH. rewrite <- Hrhs'.
      rewrite (ok_mul_mod facade). f_equal. ring.
Qed.

Lemma sign_honest (rng0 rng1 : rng_state) (msg secret sig key : list Z)
    (ph : option bool) (ctx : option (list Z)) :
  EDDSA.check_args ph ctx = Ok tt ->
  EDDSA.sign rng0 msg secret ph ctx = Ok (sig, rng1) ->
  EDDSA.publicKeyCreate secret = Ok key ->
  exists a, honest a msg sig key ph ctx.
Proof.
  intros Hargs Hsign Hpub.
  unfold EDDSA.sign in Hsign.
  unfold EDDSA.publicKeyCreate, EDDSA.privateKeyConvert in Hpub.
  unfold_bind.
  destruct (EDDSA.hashKey secret) as [hash|] eqn:Hhash; [|discriminate].
  cbv beta iota in Hsign, Hpub.
  destruct (splitHash hash) as [[scalar nonce]|] eqn:Hsplit;
    [|discriminate].
  cbv beta iota in Hsign, Hpub.
  unfold EDDSA.hashKey in Hhash. unfold_bind.
  destruct (bool_decide (blen secret = EDDSA.size)); [|discriminate].
  cbn [assert] in Hhash.
  destruct (ok_splitHash facade secret hash Hhash)
    as (scalar' & nonce' & a & Hsplit' & Hnonce & Ha).
  rewrite Hsplit in Hsplit'. inversion Hsplit'; subst scalar' nonce'.
  destruct (signWithScalar_honest facade rng0 msg scalar nonce ph ctx a
              Hargs Ha Hnonce) as (sig' & rng' & pub' & Hs & Hp & Hhon).
  rewrite Hs in Hsign. inversion Hsign; subst sig' rng'.
  rewrite Hp in Hpub. inversion Hpub; subst pub'.
  exists a. exact Hhon.
Qed.

(** With interfaces that keep their contract, [batchVerify] accepts every
    batch whose items each hold a message, a signature that [sign] returned
    for it under some seed, and the public key of that seed. *)
Theorem batch_accepts_signed (rng : rng_state)
    (batch : list (list Z * list Z * list Z))
    (ph : option bool) (ctx : option (list Z)) :
  EDDSA.check_args ph ctx = Ok tt ->
  Forall (fun item => exists rng0 secret rng1,
            EDDSA.sign rng0 item.1.1 secret ph ctx = Ok (item.1.2, rng1) /\
            EDDSA.publicKeyCreate secret = Ok item.2) batch ->
  EDDSA.batchVerify rng batch ph ctx = Ok true.
Proof.
  intros Hargs Hall.
  assert (Forall (fun item => exists a,
                    honest a item.1.1 item.1.2 item.2 ph ctx) batch)
    as Hhon.
  { eapply Forall_impl; [exact Hall|].
    intros item (rng0 & secret & rng1 & Hs & Hp).
    eapply sign_honest; eassumption. }
  unfold EDDSA.batchVerify. rewrite Hargs. cbn [mbind result_bind].
  assert (EDDSA.lengths_ok batch = true) as ->.
  { clear Hall. induction Hhon as [|[[msg sig] key] rest Hitem Hrest IH];
      [reflexivity|].
    destruct Hitem as (a & r & h & PA & PR & Rb & Sb & Hsig & HRlen &
                       HSlen & _ & _ & HAlen & _).
    cbn [fst snd] in *. subst sig. cbn [EDDSA.lengths_ok].
    rewrite bool_decide_false
      by (rewrite blen_app; lia).
    rewrite bool_decide_false by (unfold EDDSA.size; lia).
    exact IH. }
  cbn [negb]. unfold EDDSA._batchVerify.
  rewrite (batch_loop_honest ph ctx batch Hargs Hhon rng None I).
  reflexivity.
Qed.

End BatchOfSigned.

Lemma toy_mulAdd_ok (x y : Z) (X Y : @point Toy.curve7) (a b : Z) :
  @point_mul Toy.curve7 (@curve_g Toy.curve7) x = Ok X ->
  @point_mul Toy.curve7 (@curve_g Toy.curve7) y = Ok Y ->
  @point_mulAdd Toy.curve7 X a Y b =
  @point_mul Toy.curve7 (@curve_g Toy.curve7) (x * a + y * b).
Proof.
  simpl. intros HX HY. inversion HX; inversion HY; subst. f_equal.
  rewrite !Z.mul_1_l.
  rewrite Zplus_mod, !Zmult_mod_idemp_l, <- Zplus_mod. reflexivity.
Qed.

(** [batch_accepts_signed] on the integers modulo 7: the signatures of
    three messages under the seeds [9], [10] and [33]. *)
Lemma batch_accepts_signed_witness :
  @EDDSA.batchVerify Toy.curve7 Toy.hash_sum Toy.rng_counter 0
    [([1; 2; 3], [0; 4], [1]); ([5], [0; 6], [1]); ([7; 7], [6; 5], [4])]
    None None = Ok true.
Proof.
  apply (@batch_accepts_signed Toy.curve7 Toy.hash_sum Toy.rng_counter
           toy_facade_ok toy_mulAdd_ok).
  - reflexivity.
  - constructor; [|constructor; [|constructor; [|constructor]]].
    + exists 3, [9], 4. split; reflexivity.
    + exists 4, [10], 5. split; reflexivity.
    + exists 4, [33], 5. split; reflexivity.
Defined.

(** ** Public keys *)

Section PublicKeys.
Context {C : Curve} {H : Hash} {R : Rng} {O : CurveOps}.
Hypothesis facade : eddsa_facade_ok.

(** With interfaces that keep their contract, the key [publicKeyCreate]
    returns for a seed of [size] bytes has [size] bytes, passes
    [publicKeyVerify], and comes back unchanged from [publicKeyExport] and
    [publicKeyImport]; a key that [publicKeyVerify] rejects makes
    [publicKeyExport] and [publicKeyImport] throw and [verify] return
    [false]. *)
Theorem public_key_validity (secret : list Z) :
  blen secret = EDDSA.size ->
  (exists pub,
     EDDSA.publicKeyCreate secret = Ok pub /\ blen pub = EDDSA.size /\
     EDDSA.publicKeyVerify pub = true /\
     EDDSA.publicKeyExport pub = Ok pub /\
     EDDSA.publicKeyImport pub = Ok pub) /\
  (forall key msg sig ph ctx,
     EDDSA.publicKeyVerify key = false ->
     EDDSA.publicKeyExport key = Throw "Invalid public key." /\
     EDDSA.publicKeyImport key = Throw "Invalid public key." /\
     (EDDSA.check_args ph ctx = Ok tt ->
      EDDSA.verify msg sig key ph ctx = Ok false)).
Proof.
  intros Hl. split.
  - destruct (ok_digest facade secret (EDDSA.size * 2)) as [d Hd].
    destruct (ok_splitHash facade secret d Hd)
      as (key & nonce & a & Hsplit & _ & Ha).
    destruct (publicKeyFromScalar_spec facade key a Ha)
      as (PA & pub & HPA & Hpub & Hlen & Hdec).
    exists pub. split.
    { unfold EDDSA.publicKeyCreate, EDDSA.privateKeyConvert, EDDSA.hashKey.
      unfold_bind. rewrite bool_decide_true by assumption. simpl.
      step Hd. step Hsplit. exact Hpub. }
    split; [exact Hlen|].
    unfold EDDSA.publicKeyExport, EDDSA.publicKeyImport,
      EDDSA.publicKeyVerify. rewrite Hdec. repeat split.
  - intros key msg sig ph ctx Hv.
    unfold EDDSA.publicKeyExport, EDDSA.publicKeyImport. rewrite Hv.
    split; [reflexivity|]. split; [reflexivity|].
    intros Hargs. unfold EDDSA.verify. rewrite Hargs. simpl.
    repeat case_bool_decide; try reflexivity.
    unfold EDDSA._verify. unfold_bind.
    unfold EDDSA.publicKeyVerify in Hv.
    destruct (decodePoint (slice sig 0 EDDSA.size)); [|reflexivity].
    destruct (decodeInt (slice_from sig EDDSA.size)); [|reflexivity].
    destruct (decodePoint key); [discriminate|reflexivity].
Qed.

(** The opposite of a multiple of the base point is the multiple by the
    opposite number. *)
Hypothesis neg_ok : forall x X,
  point_mul curve_g x = Ok X -> point_neg X = point_mul curve_g (- x).

Hypothesis encodeScalar_ok : forall s,
  0 <= s < curve_n ->
  exists b, encodeScalar s = Ok b /\ decodeScalar b = Ok s.

(** With interfaces that keep their contract, [publicKeyAdd] of the public
    keys of two scalars is [publicKeyTweakAdd] of the first key and the
    second scalar, and [publicKeyNegate] of the public key of a scalar is
    the public key of its [scalarNegate]. *)
Theorem public_key_arithmetic (scalarA scalarB : list Z) (a b : Z) :
  decodeScalar scalarA = Ok a -> decodeScalar scalarB = Ok b ->
  exists pubA pubB sum nA npub,
    EDDSA.publicKeyFromScalar scalarA = Ok pubA /\
    EDDSA.publicKeyFromScalar scalarB = Ok pubB /\
    EDDSA.publicKeyAdd pubA pubB = Ok sum /\
    EDDSA.publicKeyTweakAdd pubA scalarB = Ok sum /\
    EDDSA.scalarNegate scalarA = Ok nA /\
    EDDSA.publicKeyFromScalar nA = Ok npub /\
    EDDSA.publicKeyNegate pubA = Ok npub.
Proof.
  intros Ha Hb. pose proof (curve_n_gt_1 facade) as Hn.
  destruct (ok_mul_g facade a) as (PA & pubA & HPA & HencA & _ & HdecA).
  destruct (ok_mul_g facade b) as (PB & pubB & HPB & HencB & _ & HdecB).
  destruct (ok_mul_g facade (a + b)) as (PS & sum & HPS & HencS & _).
  destruct (ok_mul_g facade (- a)) as (PN & npub & HPN & HencN & _).
  destruct (scalarNegate_spec Hn encodeScalar_ok scalarA a Ha)
    as (nA & HnA & HnAdec).
  exists pubA, pubB, sum, nA, npub.
  assert (forall sc x P pub, decodeScalar sc = Ok x ->
            point_mul curve_g x = Ok P -> point_encode P = Ok pub ->
            EDDSA.publicKeyFromScalar sc = Ok pub) as Hfrom.
  { intros sc x P pub Hx HP Henc.
    unfold EDDSA.publicKeyFromScalar. unfold_bind. step Hx.
    rewrite (ok_mulBlind facade), (ok_mul_mod facade). step HP.
    exact Henc. }
  split; [exact (Hfrom _ _ _ _ Ha HPA HencA)|].
  split; [exact (Hfrom _ _ _ _ Hb HPB HencB)|].
  split; [|split; [|split; [exact HnA|split]]].
  - unfold EDDSA.publicKeyAdd. unfold_bind. step HdecA. step HdecB.
    rewrite (ok_add facade a b PA PB HPA HPB). step HPS. exact HencS.
  - unfold EDDSA.publicKeyTweakAdd. unfold_bind. step Hb. step HdecA.
    rewrite (ok_mul_mod facade). step HPB.
    rewrite (ok_add facade b a PB PA HPB HPA).
    replace (b + a) with (a + b) by ring. step HPS. exact HencS.
  - apply (Hfrom nA ((- a) mod curve_n) PN npub HnAdec); [|exact HencN].
    rewrite (ok_mul_mod facade). exact HPN.
  - unfold EDDSA.publicKeyNegate. unfold_bind. step HdecA.
    rewrite (neg_ok a PA HPA). step HPN. exact HencN.
Qed.

End PublicKeys.

Lemma toy_neg_ok (x : Z) (X : @point Toy.curve7) :
  @point_mul Toy.curve7 (@curve_g Toy.curve7) x = Ok X ->
  @point_neg Toy.curve7 Toy.rng_counter Toy.ops7 X =
  @point_mul Toy.curve7 (@curve_g Toy.curve7) (- x).
Proof.
  simpl. intros HX. inversion HX; subst. f_equal.
  rewrite !Z.mul_1_l. rewrite Zminus_mod_idemp_r.
  replace (7 - x) with (- x + 1 * 7) by ring.
  apply Z.mod_add. lia.
Qed.

(** [public_key_validity] on the integers modulo 7, with the seed [9]. *)
Lemma public_key_validity_witness :
  exists pub,
    @EDDSA.publicKeyCreate Toy.curve7 Toy.hash_sum [9] = Ok pub /\
    blen pub = 1 /\
    @EDDSA.publicKeyVerify Toy.curve7 pub = true /\
    @EDDSA.publicKeyExport Toy.curve7 pub = Ok pub /\
    @EDDSA.publicKeyImport Toy.curve7 pub = Ok pub.
Proof.
  apply (proj1 (@public_key_validity Toy.curve7 Toy.hash_sum
                  Toy.rng_counter toy_facade_ok [9] eq_refl)).
Defined.

(** [public_key_arithmetic] on the integers modulo 7, with the scalars 5
    and 3. *)
Lemma public_key_arithmetic_witness :
  exists pubA pubB sum nA npub,
    @EDDSA.publicKeyFromScalar Toy.curve7 [5] = Ok pubA /\
    @EDDSA.publicKeyFromScalar Toy.curve7 [3] = Ok pubB /\
    @EDDSA.publicKeyAdd Toy.curve7 pubA pubB = Ok sum /\
    @EDDSA.publicKeyTweakAdd Toy.curve7 pubA [3] = Ok sum /\
    @EDDSA.scalarNegate Toy.curve7 [5] = Ok nA /\
    @EDDSA.publicKeyFromScalar Toy.curve7 nA = Ok npub /\
    @EDDSA.publicKeyNegate Toy.curve7 Toy.rng_counter Toy.ops7 pubA
      = Ok npub.
Proof.
  apply (@public_key_arithmetic Toy.curve7 Toy.hash_sum Toy.rng_counter
           Toy.ops7 toy_facade_ok toy_neg_ok toy_encodeScalar_ok [5] [3]
           5 3).
  - reflexivity.
  - reflexivity.
Defined.

(** ** Schnorr signatures *)

Section SchnorrRefused.
Context {C : Curve} {H : Hash} {R : Rng}.

Lemma schnorr_loop_unreduced
    (batch : list (list Z * list Z * list Z)) (m s k : list Z) (Rx S : Z) :
  (m, s, k) ∈ batch ->
  decodeInt (slice s 0 curve_size) = Ok Rx ->
  decodeScalar (slice_from s curve_size) = Ok S ->
  Rx >= curve_p \/ S >= curve_n ->
  forall rng acc, Schnorr._batchVerify_loop rng batch acc <> Ok true.
Proof.
  intros Hin HRx HS Hge.
  induction batch as [|[[m' s'] k'] rest IH]; [inversion Hin|].
  intros rng acc. cbn [Schnorr._batchVerify_loop]. unfold_bind.
  apply elem_of_cons in Hin as [Heq | Hin].
  - inversion Heq; subst m' s' k'.
    destruct (decodePoint k) as [A|]; [|cbv beta iota; congruence].
    rewrite HRx, HS. cbv beta iota.
    assert (bool_decide (Rx >= curve_p) || bool_decide (S >= curve_n)
            = true) as ->.
    { destruct Hge as [Hge | Hge];
        rewrite (bool_decide_true _ Hge); [reflexivity|].
      apply orb_true_r. }
    congruence.
  - specialize (IH Hin).
    destruct (decodePoint k') as [A'|]; [|cbv beta iota; congruence].
    destruct (decodeInt (slice s' 0 curve_size)) as [Rx'|];
      [|cbv beta iota; congruence].
    destruct (decodeScalar (slice_from s' curve_size)) as [S'|];
      [|cbv beta iota; congruence].
    cbv beta iota.
    destruct (bool_decide (Rx' >= curve_p) || bool_decide (S' >= curve_n));
      [congruence|].
    destruct (point_encode A') as [Araw|]; [|cbv beta iota; congruence].
    destruct (Schnorr.hashInt _) as [e'|]; [|cbv beta iota; congruence].
    cbv beta iota zeta.
    destruct (BN_redSqrt _) as [y|]; [|cbv beta iota; congruence].
    cbv beta iota.
    destruct (negb _); [congruence|].
    destruct (curve_point _ y) as [Rp|]; [|cbv beta iota; congruence].
    cbv beta iota.
    destruct acc as [[lhs rhs]|].
    + destruct (BN_random rng 1 curve_n) as [[a' rng']|];
        [|cbv beta iota; congruence].
      cbv beta iota zeta.
      destruct (point_mulAdd Rp a' A' _) as [T'|];
        [|cbv beta iota; congruence].
      destruct (point_add rhs T'); [|cbv beta iota; congruence].
      apply IH.
    + destruct (point_mul A' e') as [Ae|]; [|cbv beta iota; congruence].
      destruct (point_add Rp Ae); [|cbv beta iota; congruence].
      apply IH.
Qed.

(** Schnorr [verify] returns [false] for every signature whose first half
    decodes to an integer [r >= p] or whose second half decodes to a scalar
    [s >= n]; [batchVerify] returns [false] for every batch that holds
    such a signature. *)
Theorem schnorr_rejects_unreduced (rng : rng_state)
    (batch : list (list Z * list Z * list Z)) (msg sig key : list Z)
    (Rx S : Z) :
  decodeInt (slice sig 0 curve_size) = Ok Rx ->
  decodeScalar (slice_from sig curve_size) = Ok S ->
  Rx >= curve_p \/ S >= curve_n ->
  Schnorr.verify msg sig key = Ok false /\
  ((msg, sig, key) ∈ batch -> Schnorr.batchVerify rng batch = Ok false).
Proof.
  intros HRx HS Hge. split.
  - unfold Schnorr.verify, Schnorr._verify. unfold_bind.
    destruct (bool_decide (blen msg <> hash_size)); [reflexivity|].
    destruct (bool_decide (blen sig <> curve_size * 2)); [reflexivity|].
    cbv zeta. destruct (decodePoint key) as [A|]; [|reflexivity].
    rewrite HRx, HS. cbv beta iota.
    assert (bool_decide (Rx >= curve_p) || bool_decide (S >= curve_n)
            = true) as ->; [|reflexivity].
    destruct Hge as [Hge | Hge];
      rewrite (bool_decide_true _ Hge); [reflexivity|].
    apply orb_true_r.
  - intros Hin. unfold Schnorr.batchVerify.
    destruct (Schnorr.lengths_ok batch); simpl; [|reflexivity].
    pose proof (schnorr_loop_unreduced batch msg sig key Rx S Hin HRx HS
                  Hge rng None) as Hne.
    unfold Schnorr._batchVerify.
    destruct (Schnorr._batchVerify_loop rng batch None) as [[|]|];
      simpl; congruence.
Qed.

(** Schnorr [sign] throws on a message that has not the size of a hash and
    on a key that has not the size of the curve, and returns no signature
    for a key that decodes to zero or to a number that is [n] or more. *)
Theorem schnorr_sign_refuses (rng : rng_state) (msg key : list Z) :
  (blen msg <> hash_size \/ blen key <> curve_size ->
     Schnorr.sign rng msg key = Throw "Assertion failed.") /\
  (forall a, decodeScalar key = Ok a -> a = 0 \/ a >= curve_n ->
     exists e, Schnorr.sign rng msg key = Throw e).
Proof.
  split.
  - intros Hlen. unfold Schnorr.sign. unfold_bind.
    repeat case_bool_decide; try reflexivity. tauto.
  - intros a Ha Hbad. unfold Schnorr.sign. unfold_bind.
    destruct (assert (bool_decide (blen msg = hash_size))); [|eauto].
    destruct (assert (bool_decide (blen key = curve_size))); [|eauto].
    destruct (Schnorr.hashInt [key; msg]) as [k|]; [|eauto].
    cbv beta iota zeta.
    destruct (bool_decide (k = 0)); [eauto|].
    destruct (point_mulBlind curve_g k) as [Rp|]; [|eauto].
    destruct (point_getY Rp) as [y|]; [|eauto].
    destruct (BN_jacobi y curve_p) as [j|]; [|eauto].
    cbv beta iota zeta. rewrite Ha. cbv beta iota.
    assert (bool_decide (a = 0) || bool_decide (a >= curve_n) = true)
      as ->; [|eauto].
    destruct Hbad as [Hbad | Hbad];
      rewrite (bool_decide_true _ Hbad); [reflexivity|].
    apply orb_true_r.
Qed.

End SchnorrRefused.

(** [schnorr_rejects_unreduced] on the integers modulo 7, where [p] is
    11: a signature whose first byte is 12. *)
Lemma schnorr_rejects_unreduced_witness :
  @Schnorr.verify Toy.curve7 Toy.hash_sum [2] [12; 3] [3] = Ok false /\
  @Schnorr.batchVerify Toy.curve7 Toy.hash_sum Toy.rng_counter 0
    [([1], [3; 4], [3]); ([2], [12; 3], [3])] = Ok false.
Proof.
  destruct (@schnorr_rejects_unreduced Toy.curve7 Toy.hash_sum
              Toy.rng_counter 0 [([1], [3; 4], [3]); ([2], [12; 3], [3])]
              [2] [12; 3] [3] 12 3 eq_refl eq_refl) as [Hv Hb].
  - left. vm_compute. discriminate.
  - split; [exact Hv|]. apply Hb. do 2 constructor.
Defined.

(** [schnorr_sign_refuses] on the integers modulo 7: a message of two
    bytes, and the key 0. *)
Lemma schnorr_sign_refuses_witness :
  @Schnorr.sign Toy.curve7 Toy.hash_sum Toy.rng_counter 0 [1; 2] [3]
    = Throw "Assertion failed." /\
  exists e, @Schnorr.sign Toy.curve7 Toy.hash_sum Toy.rng_counter 0 [1] [0]
            = Throw e.
Proof.
  split.
  - apply (proj1 (@schnorr_sign_refuses Toy.curve7 Toy.hash_sum
                    Toy.rng_counter 0 [1; 2] [3])).
    left. vm_compute. discriminate.
  - apply (proj2 (@schnorr_sign_refuses Toy.curve7 Toy.hash_sum
                    Toy.rng_counter 0 [1] [0]) 0 eq_refl).
    left. reflexivity.
Defined.

Section SchnorrRoundTrip.
Context {C : Curve} {H : Hash} {R : Rng}.
Hypothesis facade : eddsa_facade_ok.

(** Scalars below [n] that encode have [size] bytes and decode back; so
    does the [x] of a multiple of the base point, which is below [p]. *)
Hypothesis scalar_encodes : forall s b,
  0 <= s < curve_n -> encodeScalar s = Ok b ->
  blen b = curve_size /\ decodeScalar b = Ok s.
Hypothesis coord_encodes : forall k P x b,
  point_mul curve_g k = Ok P -> point_getX P = Ok x -> encodeInt x = Ok b ->
  blen b = curve_size /\ decodeInt b = Ok x /\ x < curve_p.

(** A multiple of the base point by a number that is not zero modulo [n]
    is not the point at infinity. *)
Hypothesis finite : forall k P,
  point_mul curve_g k = Ok P -> k mod curve_n <> 0 ->
  point_isInfinity P = Ok false.

(** Of such a point and its opposite, which have the same [x], one has a
    [y] whose Jacobi symbol is 1. *)
Hypothesis negation : forall k P Q y j,
  point_mul curve_g k = Ok P -> point_mul curve_g (curve_n - k) = Ok Q ->
  k mod curve_n <> 0 ->
  point_getY P = Ok y -> BN_jacobi y curve_p = Ok j -> j <> 1 ->
  point_getX Q = point_getX P /\
  exists y', point_getY Q = Ok y' /\ BN_jacobi y' curve_p = Ok 1.

Lemma schnorr_hashInt_range (items : list (list Z)) (v : Z) :
  Schnorr.hashInt items = Ok v -> 0 <= v < curve_n.
Proof.
  pose proof (curve_n_gt_1 facade) as Hn.
  unfold Schnorr.hashInt. unfold_bind.
  destruct hash_init as [h0|]; [|discriminate].
  destruct (EDDSA.update_all h0 items) as [h1|]; [|discriminate].
  destruct (hash_final h1 None) as [d|]; [|discriminate].
  destruct (BN_decode d) as [num|]; [|discriminate].
  intros Hv. inversion Hv; subst. apply Z.mod_pos_bound. lia.
Qed.

(** With interfaces that keep their contract, every signature that Schnorr
    [sign] returns for a message and a key is accepted by [verify] under
    the encoding of the base point multiplied by that key. *)
Theorem schnorr_sign_then_verify (rng rng' : rng_state)
    (msg key pub sig : list Z) (a : Z) (PA : point) :
  Schnorr.sign rng msg key = Ok (sig, rng') ->
  decodeScalar key = Ok a -> point_mul curve_g a = Ok PA ->
  decodePoint pub = Ok PA ->
  Schnorr.verify msg sig pub = Ok true.
Proof.
  intros Hsign Ha HPA Hpub. pose proof (curve_n_gt_1 facade) as Hn.
  unfold Schnorr.sign in Hsign. unfold_bind.
  destruct (bool_decide (blen msg = hash_size)) eqn:Hmsg; [|discriminate].
  apply bool_decide_eq_true in Hmsg.
  destruct (bool_decide (blen key = curve_size)) eqn:Hkey; [|discriminate].
  apply bool_decide_eq_true in Hkey.
  cbn [assert] in Hsign. cbv beta iota zeta in Hsign.
  destruct (Schnorr.hashInt [key; msg]) as [k'|] eqn:Hk'; [|discriminate].
  pose proof (schnorr_hashInt_range _ _ Hk') as Hk'n.
  cbv beta iota in Hsign.
  destruct (bool_decide (k' = 0)) eqn:Hk0; [discriminate|].
  apply bool_decide_eq_false in Hk0.
  rewrite (ok_mulBlind facade) in Hsign.
  destruct (point_mul curve_g k') as [Rp|] eqn:HRp; [|discriminate].
  cbv beta iota in Hsign.
  destruct (point_getY Rp) as [y|] eqn:Hy; [|discriminate].
  cbv beta iota in Hsign.
  destruct (BN_jacobi y curve_p) as [j|] eqn:Hj; [|discriminate].
  cbv beta iota zeta in Hsign.
  rewrite Ha in Hsign. cbv beta iota in Hsign.
  destruct (bool_decide (a = 0) || bool_decide (a >= curve_n)) eqn:Hrange;
    [discriminate|].
  apply orb_false_iff in Hrange as [Ha0 Han].
  apply bool_decide_eq_false in Ha0. apply bool_decide_eq_false in Han.
  rewrite (ok_mulBlind facade), HPA in Hsign. cbv beta iota in Hsign.
  destruct (point_encode PA) as [Araw|] eqn:HAraw; [|discriminate].
  cbv beta iota in Hsign.
  destruct (point_getX Rp) as [x|] eqn:Hx; [|discriminate].
  cbv beta iota in Hsign.
  destruct (encodeInt x) as [Rraw|] eqn:HRraw; [|discriminate].
  cbv beta iota in Hsign.
  destruct (Schnorr.hashInt [Rraw; Araw; msg]) as [e|] eqn:He;
    [|discriminate].
  pose proof (schnorr_hashInt_range _ _ He) as Hen.
  cbv beta iota in Hsign.
  destruct (ok_random facade rng 1 curve_n Hn) as (b & rng1 & Hb & Hbn).
  rewrite Hb in Hsign. cbv beta iota zeta in Hsign.
  set (k := if bool_decide (j <> 1) then curve_n - k' else k') in *.
  assert (Schnorr.blinded_S curve_n k e a b = (k + e * a) mod curve_n)
    as HS.
  { exact (unblind curve_n k e a b (ok_n_prime facade) Hbn). }
  rewrite HS in Hsign.
  assert (0 <= (k + e * a) mod curve_n < curve_n) as HSn
    by (apply Z.mod_pos_bound; lia).
  destruct (encodeScalar ((k + e * a) mod curve_n)) as [Sraw|] eqn:HSraw;
    [|discriminate].
  cbv beta iota in Hsign. inversion Hsign; subst sig rng1. clear Hsign.
  destruct (scalar_encodes _ _ HSn HSraw) as [HSlen HSdec].
  destruct (coord_encodes k' Rp x Rraw HRp Hx HRraw)
    as (HRlen & HRdec & Hxp).
  (* the point [verify] rebuilds *)
  assert (k mod curve_n <> 0) as Hknz.
  { unfold k. destruct (bool_decide (j <> 1));
      rewrite Z.mod_small by lia; lia. }
  destruct (ok_mul_g facade k) as (Pk & ? & HPk & _).
  assert (point_isInfinity Pk = Ok false /\ point_getX Pk = Ok x /\
          exists y', point_getY Pk = Ok y' /\ BN_jacobi y' curve_p = Ok 1)
    as (Hinf & HxPk & y' & Hy' & Hj').
  { split; [exact (finite k Pk HPk Hknz)|].
    unfold k in HPk. destruct (bool_decide (j <> 1)) eqn:Hj1;
      [apply bool_decide_eq_true in Hj1
      |apply bool_decide_eq_false in Hj1].
    - assert (k' mod curve_n <> 0) as Hk'nz
        by (rewrite Z.mod_small by lia; lia).
      destruct (negation k' Rp Pk y j HRp HPk Hk'nz Hy Hj Hj1)
        as (HxQ & y' & Hy' & Hj').
      split; [rewrite HxQ; exact Hx|]. eauto.
    - assert (j = 1) as -> by (destruct (decide (j = 1)); tauto).
      rewrite HRp in HPk. inversion HPk; subst Pk.
      split; [exact Hx|]. eauto. }
  destruct (ok_mul_g facade ((k + e * a) mod curve_n)) as (L & ? & HL & _).
  destruct (ok_mul_g facade (a * (curve_n - e))) as (T & ? & HT & _).
  assert (point_add L T = Ok Pk) as Hadd.
  { rewrite (ok_add facade _ _ L T HL HT). rewrite <- HPk.
    apply (mul_congr facade).
    rewrite Zplus_mod_idemp_l. 
    replace (k + e * a + a * (curve_n - e)) with (k + a * curve_n) by ring.
    apply Z.mod_add. lia. }
  unfold Schnorr.verify, Schnorr._verify. unfold_bind.
  rewrite bool_decide_false by tauto.
  rewrite bool_decide_false by (rewrite blen_app; lia).
  cbv zeta. step Hpub.
  rewrite slice_app_prefix by assumption.
  rewrite slice_from_app by assumption.
  step HRdec. step HSdec.
  rewrite (bool_decide_false (x >= curve_p)) by lia.
  rewrite (bool_decide_false (_ >= curve_n)) by lia.
  cbn [orb]. step HAraw. step He. step HL.
  rewrite (ok_mul_mul facade a PA _ HPA). step HT. step Hadd. step Hinf.
  step Hy'. step Hj'. rewrite bool_decide_false by tauto.
  step HxPk. rewrite bool_decide_true by reflexivity. reflexivity.
Qed.

End SchnorrRoundTrip.

Lemma toy_facade7s_ok :
  @eddsa_facade_ok Toy.curve7s Toy.hash_sum Toy.rng_counter.
Proof.
  split; simpl.
  - exact prime_7.
  - eauto.
  - intros data d Hd. inversion Hd; subst.
    do 3 eexists. split; [reflexivity|]. split; reflexivity.
  - eauto.
  - eauto.
  - eauto.
  - eauto.
  - intros s lo hi Hlt. rewrite bool_decide_true by assumption.
    do 2 eexists. split; [reflexivity|].
    pose proof (Z.mod_pos_bound s (hi - lo)). lia.
  - intros k. do 2 eexists. split; [reflexivity|]. split; [reflexivity|].
    split; [reflexivity|]. unfold_bind. simpl.
    rewrite bool_decide_true; [reflexivity|]. apply Z.mod_pos_bound. lia.
  - reflexivity.
  - intros k. f_equal. rewrite Zmult_mod_idemp_r. reflexivity.
  - intros a A h HA. inversion HA; subst. f_equal.
    rewrite Zmult_mod_idemp_l. f_equal. ring.
  - intros x y X Y HX HY. inversion HX; inversion HY; subst. f_equal.
    rewrite <- Zplus_mod. f_equal. ring.
  - eauto.
  - intros P. rewrite bool_decide_true; reflexivity.
  - intros S HS. unfold Toy.encode1.
    rewrite bool_decide_true by lia. eexists. split; [reflexivity|].
    split; reflexivity.
Qed.

Lemma toy_scalar_encodes (s : Z) (b : list Z) :
  0 <= s < @curve_n Toy.curve7s -> @encodeScalar Toy.curve7s s = Ok b ->
  blen b = @curve_size Toy.curve7s /\ @decodeScalar Toy.curve7s b = Ok s.
Proof.
  simpl. unfold Toy.encode1. intros Hs.
  rewrite bool_decide_true by lia. intros Hb. inversion Hb; subst.
  split; reflexivity.
Qed.

Lemma toy_coord_encodes (k : Z) (P : @point Toy.curve7s) (x : Z)
    (b : list Z) :
  @point_mul Toy.curve7s (@curve_g Toy.curve7s) k = Ok P ->
  @point_getX Toy.curve7s P = Ok x -> @encodeInt Toy.curve7s x = Ok b ->
  blen b = @curve_size Toy.curve7s /\ @decodeInt Toy.curve7s b = Ok x /\
  x < @curve_p Toy.curve7s.
Proof.
  simpl. unfold Toy.encode1. intros HP Hx.
  inversion HP; subst P. inversion Hx; subst x.
  pose proof (Z.mod_pos_bound (1 * k) 7 ltac:(lia)) as Hk.
  rewrite bool_decide_true by lia. intros Hb. inversion Hb; subst.
  repeat split. lia.
Qed.

Lemma toy_finite (k : Z) (P : @point Toy.curve7s) :
  @point_mul Toy.curve7s (@curve_g Toy.curve7s) k = Ok P ->
  k mod @curve_n Toy.curve7s <> 0 ->
  @point_isInfinity Toy.curve7s P = Ok false.
Proof.
  simpl. intros HP Hk. inversion HP; subst P. rewrite Z.mul_1_l.
  rewrite bool_decide_false by exact Hk. reflexivity.
Qed.

Lemma toy_negation (k : Z) (P Q : @point Toy.curve7s) (y j : Z) :
  @point_mul Toy.curve7s (@curve_g Toy.curve7s) k = Ok P ->
  @point_mul Toy.curve7s (@curve_g Toy.curve7s) (@curve_n Toy.curve7s - k)
    = Ok Q ->
  k mod @curve_n Toy.curve7s <> 0 ->
  @point_getY Toy.curve7s P = Ok y ->
  @BN_jacobi Toy.curve7s y (@curve_p Toy.curve7s) = Ok j -> j <> 1 ->
  @point_getX Toy.curve7s Q = @point_getX Toy.curve7s P /\
  exists y', @point_getY Toy.curve7s Q = Ok y' /\
             @BN_jacobi Toy.curve7s y' (@curve_p Toy.curve7s) = Ok 1.
Proof.
  simpl. intros HP HQ Hk Hy Hj Hj1.
  inversion HP; subst P. inversion HQ; subst Q. inversion Hy; subst y.
  rewrite !Z.mul_1_l in *. rewrite Z.mod_mod in Hj by lia.
  assert ((7 - k) mod 7 = 7 - k mod 7) as Hneg.
  { rewrite Zminus_mod, Z_mod_same_full, Z.sub_0_l.
    rewrite Z.mod_opp_l_nz; rewrite ?Z.mod_mod by lia; lia. }
  rewrite Hneg.
  pose proof (Z.mod_pos_bound k 7 ltac:(lia)) as Hr.
  assert (k mod 7 = 1 \/ k mod 7 = 2 \/ k mod 7 = 3 \/ k mod 7 = 4 \/
          k mod 7 = 5 \/ k mod 7 = 6) as Hcases by lia.
  destruct Hcases as [Hc | [Hc | [Hc | [Hc | [Hc | Hc]]]]];
    rewrite Hc in *; vm_compute in Hj; inversion Hj; subst j;
    try (exfalso; apply Hj1; reflexivity);
    (split; [reflexivity|]); eexists; split; reflexivity.
Qed.

(** [schnorr_sign_then_verify] on the integers modulo 7, with the message
    [2] and the key 3, for which [sign] takes the opposite of its
    nonce. *)
Lemma schnorr_sign_then_verify_witness :
  @Schnorr.sign Toy.curve7s Toy.hash_sum Toy.rng_counter 3 [2] [3]
    = Ok ([2; 2], 4) /\
  @Schnorr.verify Toy.curve7s Toy.hash_sum [2] [2; 2] [3] = Ok true.
Proof.
  split; [reflexivity|].
  apply (@schnorr_sign_then_verify Toy.curve7s Toy.hash_sum Toy.rng_counter
           toy_facade7s_ok toy_scalar_encodes toy_coord_encodes toy_finite
           toy_negation 3 4 [2] [3] [3] [2; 2] 3 3).
  - reflexivity.
  - reflexivity.
  - reflexivity.
  - reflexivity.
Defined.

(** ** The BLAKE2s front end *)

Section Blake2sFacts.
Import Blake2s.
Context {B : Backends}.

Lemma init_overwrites (s1 s2 : Blake2s) (size : option Z)
    (key : option (list Z)) :
  (init s1 size key).2 = (init s2 size key).2 /\
  ((init s1 size key).2 = Ok tt ->
   (init s1 size key).1 = (init s2 size key).1 /\
   (node (init s1 size key).1 = None \/ js (init s1 size key).1 = None)).
Proof.
  unfold init. cbv zeta.
  destruct (negb (bool_decide (0 <= default 32 size < 2 ^ 32)));
    [split; [reflexivity|discriminate]|].
  destruct (bool_decide (_ = None) && names (default 32 size)).
  - destruct (createHash (default 32 size));
      [|split; [reflexivity|discriminate]].
    split; [reflexivity|]. intros _. split; [reflexivity|]. right.
    reflexivity.
  - destruct (Backend_init Backend_new (default 32 size) _) as [b r].
    split; [reflexivity|]. intros _. split; [reflexivity|]. left.
    reflexivity.
Qed.

Lemma update_keeps_side (s : Blake2s) (data : list Z) :
  node s = None \/ js s = None ->
  node (update s data).1 = None \/ js (update s data).1 = None.
Proof.
  intros Hs. unfold update.
  destruct (node s) as [h|] eqn:Hn.
  - destruct (node_update h data) as [h' r]. right. simpl.
    destruct Hs as [Hs | Hs]; [discriminate|exact Hs].
  - destruct (js s) as [b|] eqn:Hj.
    + destruct (Backend_update b data) as [b' r]. left. reflexivity.
    + left. exact Hn.
Qed.

Lemma final_clears (s s' : Blake2s) (ret : list Z) :
  node s = None \/ js s = None ->
  final s = (s', Ok ret) -> s' = new.
Proof.
  intros Hs. unfold final, new.
  destruct (node s) as [h|] eqn:Hn.
  - destruct (node_digest h) as [h' [r|e]]; intros Hf; inversion Hf.
    destruct Hs as [Hs | Hs]; [discriminate|]. rewrite Hs. reflexivity.
  - destruct (js s) as [b|] eqn:Hj.
    + destruct (Backend_final b) as [b' [r|e]]; intros Hf; inversion Hf.
      reflexivity.
    + discriminate.
Qed.

(** [Blake2s.digest] does not depend on what the shared context held
    before: it returns or throws the same from any state of it; a key of
    no bytes is no key; and when it returns, it leaves the context as
    [new Blake2s()] leaves it, a state in which [update] and [final]
    throw. *)
Theorem digest_is_self_contained (s1 s2 : Blake2s) (data : list Z)
    (size : option Z) (key : option (list Z)) :
  (digest s1 data size key).2 = (digest s2 data size key).2 /\
  digest s1 data size (Some []) = digest s1 data size None /\
  (forall ret, (digest s1 data size key).2 = Ok ret ->
               (digest s1 data size key).1 = new) /\
  update new data = (new, Throw "Assertion failed.") /\
  final new = (new, Throw "Assertion failed.").
Proof.
  split; [|split; [|split; [|split; reflexivity]]].
  - unfold digest. cbv zeta.
    destruct (init_overwrites s1 s2 (Some (default 32 size)) key)
      as [Hr Hs].
    destruct (init s1 (Some (default 32 size)) key) as [c1 r1].
    destruct (init s2 (Some (default 32 size)) key) as [c2 r2].
    cbn [fst snd] in *. subst r2.
    destruct r1 as [[]|e]; [|reflexivity].
    destruct (Hs eq_refl) as [-> _]. reflexivity.
  - reflexivity.
  - intros ret. unfold digest. cbv zeta.
    destruct (init_overwrites s1 s1 (Some (default 32 size)) key)
      as [_ Hs].
    destruct (init s1 (Some (default 32 size)) key) as [c1 r1].
    cbn [fst snd] in *.
    destruct r1 as [[]|e]; [|discriminate].
    destruct (Hs eq_refl) as [_ Hside].
    unfold then_update.
    pose proof (update_keeps_side c1 data Hside) as Hside'.
    destruct (update c1 data) as [c2 [[]|e]]; [|discriminate].
    cbn [fst] in Hside'.
    destruct (final c2) as [c3 r3] eqn:Hf. cbn [fst snd].
    intros ->. exact (final_clears c2 c3 ret Hside' Hf).
Qed.

Lemma then_update_final_clears (c : Blake2s) (data : list Z)
    (k : Blake2s -> Blake2s * result (list Z)) (ret : list Z) :
  (forall c', node c' = None \/ js c' = None ->
              (k c').2 = Ok ret -> (k c').1 = new) ->
  node c = None \/ js c = None ->
  (then_update c data k).2 = Ok ret -> (then_update c data k).1 = new.
Proof.
  intros Hk Hside. unfold then_update.
  pose proof (update_keeps_side c data Hside) as Hside'.
  destruct (update c data) as [c' [[]|e]]; [|discriminate].
  apply Hk. exact Hside'.
Qed.

Lemma final_clears' (c : Blake2s) (ret : list Z) :
  node c = None \/ js c = None ->
  (final c).2 = Ok ret -> (final c).1 = new.
Proof.
  intros Hside Hf. destruct (final c) as [c' r] eqn:Hfin.
  cbn [fst snd] in *. subst r. exact (final_clears c c' ret Hside Hfin).
Qed.

(** [Blake2s.root] and [Blake2s.multi] do not depend on what the shared
    context held before either, and leave it as [new Blake2s()] leaves it
    when they return; [root] throws unless both of its arguments have
    [size] bytes, and is [multi] of the two with no third argument when
    they have. *)
Theorem root_and_multi_are_self_contained (s1 s2 : Blake2s)
    (one two : list Z) (three : option (list Z)) (size : option Z) :
  (root s1 one two size).2 = (root s2 one two size).2 /\
  (multi s1 one two three size).2 = (multi s2 one two three size).2 /\
  (forall ret, (root s1 one two size).2 = Ok ret ->
               (root s1 one two size).1 = new) /\
  (forall ret, (multi s1 one two three size).2 = Ok ret ->
               (multi s1 one two three size).1 = new) /\
  (blen one <> default 32 size \/ blen two <> default 32 size ->
     root s1 one two size = (s1, Throw "Assertion failed.")) /\
  (blen one = default 32 size -> blen two = default 32 size ->
     root s1 one two size = multi s1 one two None size).
Proof.
  assert (forall t, (multi s1 one two t size).2 = (multi s2 one two t size).2)
    as Hmulti.
  { intros t. unfold multi. cbv zeta.
    destruct (init_overwrites s1 s2 (Some (default 32 size)) None)
      as [Hr Hs].
    destruct (init s1 (Some (default 32 size)) None) as [c1 r1].
    destruct (init s2 (Some (default 32 size)) None) as [c2 r2].
    cbn [fst snd] in *. subst r2.
    destruct r1 as [[]|e]; [|reflexivity].
    destruct (Hs eq_refl) as [-> _]. reflexivity. }
  assert (forall t ret, (multi s1 one two t size).2 = Ok ret ->
                        (multi s1 one two t size).1 = new) as Hclear.
  { intros t ret. unfold multi. cbv zeta.
    destruct (init_overwrites s1 s1 (Some (default 32 size)) None)
      as [_ Hs].
    destruct (init s1 (Some (default 32 size)) None) as [c1 r1].
    cbn [fst snd] in *.
    destruct r1 as [[]|e]; [|discriminate].
    destruct (Hs eq_refl) as [_ Hside].
    apply then_update_final_clears; [|exact Hside].
    intros c' Hc'. apply then_update_final_clears; [|exact Hc'].
    intros c'' Hc''. destruct t as [t|].
    - apply then_update_final_clears; [|exact Hc''].
      intros c3 Hc3. apply final_clears'. exact Hc3.
    - apply final_clears'. exact Hc''. }
  assert (blen one = default 32 size -> blen two = default 32 size ->
          forall s, root s one two size = multi s one two None size)
    as Hroot.
  { intros Hl Hr s. unfold root, multi. cbv zeta.
    rewrite !bool_decide_true by assumption. reflexivity. }
  assert (blen one <> default 32 size \/ blen two <> default 32 size ->
          forall s, root s one two size = (s, Throw "Assertion failed."))
    as Hbad.
  { intros Hlen s. unfold root. cbv zeta.
    repeat case_bool_decide; try reflexivity. tauto. }
  destruct (decide (blen one = default 32 size /\
                    blen two = default 32 size)) as [[Hl Hr] | Hne].
  - rewrite !(Hroot Hl Hr).
    split; [apply Hmulti|]. split; [apply Hmulti|].
    split; [apply Hclear|]. split; [apply Hclear|].
    split; [tauto|]. intros _ _. reflexivity.
  - assert (blen one <> default 32 size \/ blen two <> default 32 size)
      as Hlen by (destruct (decide (blen one = default 32 size)); tauto).
    rewrite !(Hbad Hlen).
    split; [reflexivity|]. split; [apply Hmulti|].
    split; [discriminate|]. split; [apply Hclear|].
    split; [reflexivity|]. intros Hl Hr. tauto.
Qed.

End Blake2sFacts.
